(** * gluoncv losses and the point-cloud training loop

    A shallow embedding of [gluoncv/loss.py] and of
    [scripts/classification/pointcloud/train_pointnet.py].

    Numbers.  The tensors of the source hold floating-point numbers; here a
    tensor entry is a rational [Q], so arithmetic is exact and every
    definition evaluates.  Statements about numbers use [==].  A division
    by zero gives 0 in [Q]; no statement below depends on its value.

    Tensors.  A tensor of rank one, two or three is a [list Q], a
    [list (list Q)] or a [list (list (list Q))], outermost axis first.

    Framework primitives.  The structural operators of the tensor library
    ([where], [pick], [take], [argsort], [one_hot], [tile], [arange],
    [round], [sum], [mean], [dot], ...) are defined below.  Its
    transcendental functions ([sigmoid], [log], [exp], [sqrt], [power],
    [log_softmax], [softrelu]) and the library losses are parameters of the
    sections that use them: every theorem holds whatever their numerics
    are. *)

From Stdlib Require Import ZArith QArith Qabs Qround Qpower List Bool Lia Lqa.
From Stdlib Require Import Permutation Sorted.
From Stdlib Require String.
Import ListNotations.

Local Open Scope Q_scope.

(** * Part I.  The embedding of the source *)

(** ** Scalars *)

Definition Qltb (x y : Q) : bool := negb (Qle_bool y x).
Definition Qgtb (x y : Q) : bool := Qltb y x.
Definition Qgeb (x y : Q) : bool := Qle_bool y x.

(** A comparison of the tensor library yields the numbers 1 and 0. *)
Definition b2q (b : bool) : Q := if b then 1 else 0.

(** An index held in a tensor. *)
Definition n2q (n : nat) : Q := inject_Z (Z.of_nat n).

(** Python's [max(a, b)]: the first argument unless the second is larger. *)
Definition py_max (a b : Q) : Q := if Qltb a b then b else a.

(** ** Tensor operators *)

Module nd.

Fixpoint map2 {A B C : Type} (f : A -> B -> C) (l1 : list A) (l2 : list B)
  : list C :=
  match l1, l2 with
  | a :: l1', b :: l2' => f a b :: map2 f l1' l2'
  | _, _ => []
  end.

(** [sum] over every entry of a rank-one tensor. *)
Definition sum (v : list Q) : Q := fold_right Qplus 0 v.

(** [sum] over every entry of a rank-two and of a rank-three tensor. *)
Definition sum2 (m : list (list Q)) : Q := sum (map sum m).
Definition sum3 (c : list (list (list Q))) : Q := sum (map sum2 c).

(** [mean] over every entry of a rank-one tensor. *)
Definition mean (v : list Q) : Q := sum v / n2q (length v).

(** [maximum(a, b)], elementwise on scalars. *)
Definition maximum (a b : Q) : Q := if Qle_bool a b then b else a.
Definition minimum (a b : Q) : Q := if Qle_bool a b then a else b.

(** [where(c, x, y)]: [x] where the condition is not zero. *)
Definition where_ (c x y : Q) : Q := if Qeq_bool c 0 then y else x.

(** [round]: to the nearest integer, halves away from zero. *)
Definition round (x : Q) : Q :=
  if Qle_bool 0 x then inject_Z (Qfloor (x + (1 # 2)))
  else - inject_Z (Qfloor (- x + (1 # 2))).

(** [arange(n)] and [tile(v, reps=(b, 1))]. *)
Definition arange (n : nat) : list Q := map n2q (seq 0 n).
Definition tile {A : Type} (v : list A) (b : nat) : list (list A) := repeat v b.

(** [take(a, idx)] along the first axis; an index past the end is clipped
    to the last entry (mode [clip], the default). *)
Definition take {A : Type} (d : A) (a : list A) (idx : list nat) : list A :=
  map (fun i => nth (Nat.min i (length a - 1)) a d) idx.

(** [pick(row, c)] on the last axis, index clipped to the axis. *)
Definition pick (row : list Q) (c : Z) : Q :=
  nth (Nat.min (Z.to_nat c) (length row - 1)) row 0.

(** [one_hot(l, depth)]: 1 at position [l], 0 elsewhere; a label outside
    [0, depth) gives a row of zeros. *)
Definition one_hot (l : Z) (depth : nat) : list Q :=
  map (fun c => b2q (Z.eqb (Z.of_nat c) l)) (seq 0 depth).

(** *** argsort

    The indices that sort a rank-one tensor ascending, entries that compare
    equal keeping their order. *)

Fixpoint insert_by (key : nat -> Q) (i : nat) (l : list nat) : list nat :=
  match l with
  | [] => [i]
  | j :: l' =>
      if Qle_bool (key i) (key j) then i :: j :: l' else j :: insert_by key i l'
  end.

Definition isort (key : nat -> Q) (l : list nat) : list nat :=
  fold_right (insert_by key) [] l.

Definition argsort (v : list Q) : list nat :=
  isort (fun i => nth i v 0) (seq 0 (length v)).

(** [v.argsort().argsort()]: the first result is a tensor of indices, which
    the second call sorts as numbers. *)
Definition rank_of (v : list Q) : list nat := argsort (map n2q (argsort v)).

End nd.

(** ** Arguments that are one tensor per device *)

Inductive arg (T : Type) : Type :=
| One (t : T)
| Several (l : list T).
Arguments One {T} t.
Arguments Several {T} l.

(** [_as_list]: "Make sure input is a list of mxnet NDArray". *)
Definition _as_list {T : Type} (arr : arg T) : list T :=
  match arr with
  | One t => [t]
  | Several l => l
  end.

(** Python's [zip] of four lists stops at the shortest. *)
Fixpoint zip4 {A B C D : Type} (la : list A) (lb : list B) (lc : list C)
  (ld : list D) : list (A * B * C * D) :=
  match la, lb, lc, ld with
  | a :: la', b :: lb', c :: lc', d :: ld' => (a, b, c, d) :: zip4 la' lb' lc' ld'
  | _, _, _, _ => []
  end.

(** Python's [sum] of a list of numbers, from 0, left to right. *)
Definition py_sum (l : list Q) : Q := fold_left Qplus l 0.

Definition mat : Type := list (list Q).
Definition cube : Type := list (list (list Q)).

(** [_reshape_like(F, x, y)]: the entries of [x], in order, in the shape
    of [y]. *)
Fixpoint fill2 (tpl : mat) (flat : list Q) : mat * list Q :=
  match tpl with
  | [] => ([], flat)
  | r :: tpl' =>
      let '(m, rest) := fill2 tpl' (skipn (length r) flat) in
      (firstn (length r) flat :: m, rest)
  end.

Fixpoint fill3 (tpl : cube) (flat : list Q) : cube * list Q :=
  match tpl with
  | [] => ([], flat)
  | m :: tpl' =>
      let '(m', flat') := fill2 m flat in
      let '(c, rest) := fill3 tpl' flat' in
      (m' :: c, rest)
  end.

Definition _reshape_like (x y : cube) : cube :=
  fst (fill3 y (concat (concat x))).

(** ** Python values and exceptions *)

(** The values the argument [num_class] may hold. *)
Inductive py_value : Type :=
| PyNone
| PyBool (b : bool)
| PyInt (z : Z)
| PyFloat (q : Q)
| PyStr (s : String.string).

(** [isinstance(v, int)]; a [bool] is an [int]. *)
Definition isinstance_int (v : py_value) : bool :=
  match v with
  | PyInt _ | PyBool _ => true
  | _ => false
  end.

(** The number an [int] compares as. *)
Definition int_value (v : py_value) : Z :=
  match v with
  | PyInt z => z
  | PyBool true => 1
  | _ => 0
  end.

Inductive exn : Type :=
| ValueError
| MXNetError.

Inductive outcome (T : Type) : Type :=
| Ok (v : T)
| Raises (e : exn).
Arguments Ok {T} v.
Arguments Raises {T} e.

(** [sparse_label and (not isinstance(num_class, int) or (num_class < 1))] *)
Definition bad_num_class (sparse_label : bool) (num_class : py_value) : bool :=
  sparse_label && (negb (isinstance_int num_class) || (int_value num_class <? 1)%Z).

(** ** The base class [mxnet.gluon.loss.Loss] and what it imports

    The losses below are stated for tensors of rank three: predictions of
    shape (batch, anchors, classes). *)

Module Loss.

(** Elementwise operators on tensors of rank three. *)
Definition ew1 (f : Q -> Q) (x : cube) : cube := map (map (map f)) x.
Definition ew2 (f : Q -> Q -> Q) (x y : cube) : cube :=
  nd.map2 (nd.map2 (nd.map2 f)) x y.

Definition shape (x : cube) : list (list nat) := map (map (@length Q)) x.

Definition same_shape (x y : cube) : bool :=
  if list_eq_dec (list_eq_dec Nat.eq_dec) (shape x) (shape y) then true else false.

(** Broadcasting: an axis of length one is read at every index. *)
Definition bnth {A : Type} (l : list A) (i : nat) (d : A) : A :=
  match l with
  | [v] => v
  | _ => nth i l d
  end.

Definition bmap2 {A B C : Type} (f : A -> B -> C) (da : A) (db : B)
  (x : list A) (y : list B) : list C :=
  map (fun i => f (bnth x i da) (bnth y i db))
      (seq 0 (Nat.max (length x) (length y))).

Definition broadcast_mul (x y : cube) : cube :=
  bmap2 (bmap2 (bmap2 Qmult 0 0) [] []) [] [] x y.

(** Two axis lengths broadcast when they agree or one of them is 1. *)
Definition blen (a b : nat) : bool :=
  Nat.eqb a b || Nat.eqb a 1 || Nat.eqb b 1.

Definition broadcastable_shapes (sx sy : list (list nat)) : bool :=
  blen (length sx) (length sy) &&
  forallb (fun i =>
             let rx := bnth sx i [] in
             let ry := bnth sy i [] in
             blen (length rx) (length ry) &&
             forallb (fun j => blen (bnth rx j 0%nat) (bnth ry j 0%nat))
                     (seq 0 (Nat.max (length rx) (length ry))))
          (seq 0 (Nat.max (length sx) (length sy))).

Definition broadcastable (x y : cube) : bool :=
  broadcastable_shapes (shape x) (shape y).

(** [_apply_weighting(F, loss, weight, sample_weight)]: the loss times the
    sample weight, broadcast, when there is one, then times the global
    weight when there is one. *)
Definition _apply_weighting (loss : cube) (weight : option Q)
  (sample_weight : option cube) : outcome cube :=
  let by_weight (l : cube) : cube :=
    match weight with
    | Some w => ew1 (fun v => v * w) l
    | None => l
    end in
  match sample_weight with
  | Some sw =>
      if broadcastable loss sw then Ok (by_weight (broadcast_mul loss sw))
      else Raises MXNetError
  | None => Ok (by_weight loss)
  end.

(** The entries of a rank-three tensor grouped by their index on [axis]:
    what a reduction with [axis=axis, exclude=True] reduces. *)
Definition slices (axis : nat) (x : cube) : list mat :=
  match axis with
  | 0%nat => x
  | 1%nat =>
      map (fun n => map (fun m => nth n m []) x) (seq 0 (length (nth 0 x [])))
  | _ =>
      map (fun c => map (map (fun r => nth c r 0)) x)
          (seq 0 (length (nth 0 (nth 0 x []) [])))
  end.

(** An axis of a rank-three tensor, counted from the front or (negative)
    from the back. *)
Definition axis_of (a : Z) : option nat :=
  if ((0 <=? a) && (a <? 3))%Z then Some (Z.to_nat a)
  else if ((-3 <=? a) && (a <? 0))%Z then Some (Z.to_nat (a + 3))
  else None.

Definition mean_of (m : mat) : Q := nd.mean (concat m).
Definition sum_of (m : mat) : Q := nd.sum (concat m).

(** [F.mean(x, axis=a, exclude=True)] and [F.sum(x, axis=a, exclude=True)]. *)
Definition reduce_exclude (average : bool) (a : Z) (x : cube) : outcome (list Q) :=
  match axis_of a with
  | Some k => Ok (map (if average then mean_of else sum_of) (slices k x))
  | None => Raises MXNetError
  end.

End Loss.

(** ** FocalLoss *)

(** The labels: class indices when [sparse_label], else a tensor of the
    shape of the prediction. *)
Inductive labels : Type :=
| SparseLabels (l : list (list Z))
| DenseLabels (l : cube).

Module FocalLoss.

Record t : Type := {
  _weight : option Q;
  _batch_axis : Z;
  _axis : Z;
  _alpha : Q;
  _gamma : Q;
  _sparse_label : bool;
  _num_class : py_value;
  _from_logits : bool;
  _eps : Q;
  _size_average : bool
}.

Definition __init__ (axis : Z) (alpha gamma : Q) (sparse_label from_logits : bool)
  (batch_axis : Z) (weight : option Q) (num_class : py_value) (eps : Q)
  (size_average : bool) : outcome t :=
  if bad_num_class sparse_label num_class then Raises ValueError
  else Ok {| _weight := weight;
             _batch_axis := batch_axis;
             _axis := axis;
             _alpha := alpha;
             _gamma := gamma;
             _sparse_label := sparse_label;
             _num_class := num_class;
             _from_logits := from_logits;
             _eps := eps;
             _size_average := size_average |}.

Section Forward.

Variable sigmoid : Q -> Q.
Variable log : Q -> Q.
(** [x ** gamma] *)
Variable power : Q -> Q -> Q.

(** [F.one_hot(label, self._num_class)] or [label > 0]; [None] when the
    labels are not of the kind the flag announces (the shapes then differ
    from the shape of [pred]). *)
Definition one_hot_of (L : t) (label : labels) : option cube :=
  match _sparse_label L, label with
  | true, SparseLabels l =>
      Some (map (map (fun c => nd.one_hot c (Z.to_nat (int_value (_num_class L))))) l)
  | false, DenseLabels l => Some (Loss.ew1 (fun v => b2q (Qgtb v 0)) l)
  | _, _ => None
  end.

(** The loss tensor before the weighting. *)
Definition focal_tensor (L : t) (pred one_hot : cube) : cube :=
  let pt := Loss.ew2 (fun oh p => nd.where_ oh p (1 - p)) one_hot pred in
  let t := Loss.ew1 (fun _ => 1) one_hot in
  let alpha :=
    Loss.ew2 (fun oh t => nd.where_ oh (_alpha L * t) ((1 - _alpha L) * t))
      one_hot t in
  Loss.ew2 Qmult
    (Loss.ew2 (fun a p => - a * power (1 - p) (_gamma L)) alpha pt)
    (Loss.ew1 (fun p => log (nd.minimum (p + _eps L) 1)) pt).

Definition hybrid_forward (L : t) (pred : cube) (label : labels)
  (sample_weight : option cube) : outcome (list Q) :=
  let pred := if _from_logits L then pred else Loss.ew1 sigmoid pred in
  match one_hot_of L label with
  | None => Raises MXNetError
  | Some one_hot =>
      if negb (Loss.same_shape one_hot pred) then Raises MXNetError
      else
        match Loss._apply_weighting (focal_tensor L pred one_hot)
                (_weight L) sample_weight with
        | Raises e => Raises e
        | Ok loss => Loss.reduce_exclude (_size_average L) (_batch_axis L) loss
        end
  end.

End Forward.

End FocalLoss.

(** ** YOLOV3Loss *)

Module YOLOV3Loss.

Record t : Type := {
  _weight : option Q;
  _batch_axis : Z
}.

Definition __init__ (batch_axis : Z) (weight : option Q) : t :=
  {| _weight := weight; _batch_axis := batch_axis |}.

(** [F.broadcast_mul(x, y)] of two tensors; shapes that do not broadcast
    are refused. *)
Definition broadcast_mul (x y : cube) : outcome cube :=
  if Loss.broadcastable x y then Ok (Loss.broadcast_mul x y)
  else Raises MXNetError.

(** [F.shape_array(x).slice_axis(axis=0, begin=1, end=None).prod()]: the
    number of entries of one sample. *)
Definition denorm_of (x : cube) : Q :=
  n2q (length (nth 0 x []) * length (nth 0 (nth 0 x []) [])).

(** [F.broadcast_mul(loss, d)] of a loss of shape (B,) with a number. *)
Definition times (loss : outcome (list Q)) (d : Q) : outcome (list Q) :=
  match loss with
  | Ok v => Ok (map (fun x => x * d) v)
  | Raises e => Raises e
  end.

(** [obj_loss], [center_loss], [scale_loss], [cls_loss]. *)
Definition losses : Type := (list Q * list Q * list Q * list Q)%type.

Section Forward.

(** [self._sigmoid_ce] and [self._l1_loss], the library's
    [SigmoidBinaryCrossEntropyLoss(from_sigmoid=False)] and [L1Loss],
    called with a prediction, a label and a sample weight: one loss per
    sample. *)
Variable _sigmoid_ce : cube -> cube -> cube -> outcome (list Q).
Variable _l1_loss : cube -> cube -> cube -> outcome (list Q).

Definition hybrid_forward (L : t)
  (objness box_centers box_scales cls_preds : cube)
  (objness_t center_t scale_t weight_t class_t class_mask : cube)
  : outcome losses :=
  let denorm := denorm_of objness_t in
  match broadcast_mul weight_t objness_t with
  | Raises e => Raises e
  | Ok weight_t =>
  let hard_objness_t :=
    Loss.ew1 (fun o => nd.where_ (b2q (Qgtb o 0)) 1 o) objness_t in
  let new_objness_mask :=
    Loss.ew1 (fun o => nd.where_ (b2q (Qgtb o 0)) o (b2q (Qgeb o 0))) objness_t in
  match times (_sigmoid_ce objness hard_objness_t new_objness_mask) denorm with
  | Raises e => Raises e
  | Ok obj_loss =>
  match times (_sigmoid_ce box_centers center_t weight_t) (denorm * 2) with
  | Raises e => Raises e
  | Ok center_loss =>
  match times (_l1_loss box_scales scale_t weight_t) (denorm * 2) with
  | Raises e => Raises e
  | Ok scale_loss =>
  let denorm_class := denorm_of class_t in
  match broadcast_mul class_mask objness_t with
  | Raises e => Raises e
  | Ok class_mask =>
  match times (_sigmoid_ce cls_preds class_t class_mask) denorm_class with
  | Raises e => Raises e
  | Ok cls_loss => Ok (obj_loss, center_loss, scale_loss, cls_loss)
  end end end end end end.

End Forward.

End YOLOV3Loss.

(** ** DistillationSoftmaxCrossEntropyLoss *)

Module DistillationSoftmaxCrossEntropyLoss.

Record t : Type := {
  _temperature : Q;
  _hard_weight : Q
}.

Definition __init__ (temperature hard_weight : Q) : t :=
  {| _temperature := temperature; _hard_weight := hard_weight |}.

Section Forward.

(** The labels of the hard loss: sparse or not, as the constructor was
    told. *)
Variable label_t : Type.

(** [self.soft_loss] and [self.hard_loss], the library's
    [SoftmaxCrossEntropyLoss]: one loss per sample. *)
Variable soft_loss : mat -> mat -> list Q.
Variable hard_loss : mat -> label_t -> list Q.

Definition hybrid_forward (L : t) (output : mat) (label : label_t)
  (soft_target : mat) : list Q :=
  (* (self._temperature ** 2) * self.soft_loss(output / self._temperature,
     soft_target) *)
  let soft :=
    map (Qmult (_temperature L ^ 2))
      (soft_loss (map (map (fun x => x / _temperature L)) output) soft_target) in
  if Qeq_bool (_hard_weight L) 0 then soft
  else if Qeq_bool (_hard_weight L) 1 then hard_loss output label
  else
    let hard := hard_loss output label in
    nd.map2 Qplus (map (Qmult (1 - _hard_weight L)) soft)
      (map (Qmult (_hard_weight L)) hard).

End Forward.

End DistillationSoftmaxCrossEntropyLoss.

(** ** SSDMultiBoxLoss *)

Module SSDMultiBoxLoss.

Record t : Type := {
  _negative_mining_ratio : Q;
  _rho : Q;
  _lambd : Q;
  _min_hard_negatives : Z
}.

Definition __init__ (negative_mining_ratio rho lambd : Q) (min_hard_negatives : Z)
  : t :=
  {| _negative_mining_ratio := py_max 0 negative_mining_ratio;
     _rho := rho;
     _lambd := lambd;
     _min_hard_negatives := Z.max 0 min_hard_negatives |}.

(** One device's share of the batch: class scores (B, N, C), box
    predictions, class targets (B, N) and box targets (B, N, 4). *)
Definition device : Type := (cube * cube * list (list Z) * cube)%type.

(** The three lists [forward] returns: [sum_losses], [cls_losses] and
    [box_losses], each with one rank-one tensor per device. *)
Definition losses : Type := (list (list Q) * list (list Q) * list (list Q))%type.

Section Forward.

(** [nd.log_softmax] along the last axis. *)
Variable log_softmax : list Q -> list Q.

(** [ct > 0] *)
Definition pos_of (ct : list (list Z)) : mat :=
  map (map (fun c => b2q (0 <? c)%Z)) ct.

(** [num_pos_all = sum([p.asscalar() for p in num_pos])] with
    [num_pos] the per-device [(ct > 0).sum()]. *)
Definition num_pos_all (devs : list device) : Q :=
  py_sum (map (fun '(cp, bp, ct, bt) => nd.sum2 (pos_of ct)) devs).

(** The guard of the early return. *)
Definition no_samples (L : t) (devs : list device) : bool :=
  Qltb (num_pos_all devs) 1 && (_min_hard_negatives L <? 1)%Z.

(** [nd.sum(x * 0)], a tensor of shape (1,). *)
Definition sum_times_zero (x : cube) : list Q :=
  [nd.sum3 (map (map (map (fun v => v * 0))) x)].

(** "no positive samples and no hard negatives, return dummy losses" *)
Definition dummy_losses (cls_pred box_pred : list cube) : losses :=
  let cls_losses := map sum_times_zero cls_pred in
  let box_losses := map sum_times_zero box_pred in
  let sum_losses :=
    nd.map2 (fun cp bp => nd.map2 Qplus (sum_times_zero cp) (sum_times_zero bp))
      cls_pred box_pred in
  (sum_losses, cls_losses, box_losses).

(** [-nd.pick(nd.log_softmax(cp, axis=-1), ct, axis=-1)] *)
Definition cross_entropy (cp : cube) (ct : list (list Z)) : mat :=
  let pred := map (map log_softmax) cp in
  nd.map2 (nd.map2 (fun p c => - nd.pick p c)) pred ct.

(** [(cls_loss * (pos - 1)).argsort(axis=1).argsort(axis=1)] *)
Definition mining_key (cls_loss pos : mat) : mat :=
  nd.map2 (nd.map2 (fun l p => l * (p - 1))) cls_loss pos.

Definition mining_rank (cls_loss pos : mat) : list (list nat) :=
  map nd.rank_of (mining_key cls_loss pos).

(** [nd.maximum(min_hard_negatives, pos.sum(axis=1) * negative_mining_ratio)] *)
Definition mining_threshold (L : t) (pos : mat) : list Q :=
  map (fun prow =>
         nd.maximum (inject_Z (_min_hard_negatives L))
           (nd.sum prow * _negative_mining_ratio L))
      pos.

(** [rank < threshold.expand_dims(-1)] *)
Definition hard_negative_of (L : t) (cls_loss pos : mat) : mat :=
  nd.map2 (fun rrow thr => map (fun r => b2q (Qltb (n2q r) thr)) rrow)
    (mining_rank cls_loss pos) (mining_threshold L pos).

(** [(pos + hard_negative) > 0] *)
Definition keep_mask (L : t) (cls_loss pos : mat) : mat :=
  nd.map2 (nd.map2 (fun p h => b2q (Qgtb (p + h) 0)))
    pos (hard_negative_of L cls_loss pos).

(** [nd.where((pos + hard_negative) > 0, cls_loss, nd.zeros_like(cls_loss))] *)
Definition mined_cls_loss (L : t) (cp : cube) (ct : list (list Z)) : mat :=
  let pos := pos_of ct in
  let cls_loss := cross_entropy cp ct in
  nd.map2 (nd.map2 (fun k l => nd.where_ k l 0)) (keep_mask L cls_loss pos) cls_loss.

(** The smooth L1 loss of a box coordinate. *)
Definition smooth_l1 (L : t) (p b : Q) : Q :=
  let box_loss := Qabs (p - b) in
  nd.where_ (b2q (Qgtb box_loss (_rho L)))
    (box_loss - (1 # 2) * _rho L)
    (((1 # 2) / _rho L) * (box_loss * box_loss)).

(** "box loss only apply to positive samples" *)
Definition masked_box_loss (L : t) (bp : cube) (ct : list (list Z)) (bt : cube)
  : cube :=
  let pos := pos_of ct in
  let bp := _reshape_like bp bt in
  let box_loss := nd.map2 (nd.map2 (nd.map2 (smooth_l1 L))) bp bt in
  nd.map2 (nd.map2 (fun coords p => map (fun x => x * p) coords)) box_loss pos.

(** The body of the second loop, for one device. *)
Definition device_losses (L : t) (npa : Q) (d : device)
  : list Q * list Q * list Q :=
  let '(cp, bp, ct, bt) := d in
  let cls := map (fun row => nd.sum row / py_max 1 npa) (mined_cls_loss L cp ct) in
  let box := map (fun rows => nd.sum2 rows / py_max 1 npa) (masked_box_loss L bp ct bt) in
  (nd.map2 (fun c b => c + _lambd L * b) cls box, cls, box).

Definition forward (L : t) (cls_pred box_pred : arg cube)
  (cls_target : arg (list (list Z))) (box_target : arg cube) : losses :=
  let cls_pred := _as_list cls_pred in
  let box_pred := _as_list box_pred in
  let cls_target := _as_list cls_target in
  let box_target := _as_list box_target in
  let devs := zip4 cls_pred box_pred cls_target box_target in
  let npa := num_pos_all devs in
  if no_samples L devs then dummy_losses cls_pred box_pred
  else
    let per_device := map (device_losses L npa) devs in
    (map (fun r => fst (fst r)) per_device,
     map (fun r => snd (fst r)) per_device,
     map snd per_device).

End Forward.

End SSDMultiBoxLoss.

(** ** Instance masks: [crop] and [mask_loss]

    [YOLACTMultiBoxLoss] and [MaskLoss] define the same [crop] and, up to
    the image size ([gt_weidth], [gt_height]), the same [mask_loss]. *)

Module MaskOps.

(** [crop(self, bboxes, h, w, masks)] *)
Definition crop (bboxes : mat) (h w : nat) (masks : cube) : cube :=
  let scale := 4 in
  let b := length bboxes in
  let _h := nd.tile (nd.arange h) b in
  let _w := nd.tile (nd.arange w) b in
  let x1 := map (fun bb => nd.round (nth 0 bb 0 / scale)) bboxes in
  let y1 := map (fun bb => nd.round (nth 1 bb 0 / scale)) bboxes in
  let x2 := map (fun bb => nd.round (nth 2 bb 0 / scale)) bboxes in
  let y2 := map (fun bb => nd.round (nth 3 bb 0 / scale)) bboxes in
  let ge := nd.map2 (fun row x => map (fun v => b2q (Qgeb v x)) row) in
  let le := nd.map2 (fun row x => map (fun v => b2q (Qle_bool v x)) row) in
  let _w := nd.map2 (nd.map2 Qmult) (ge _w x1) (le _w x2) in
  let _h := nd.map2 (nd.map2 Qmult) (ge _h y1) (le _h y2) in
  (* batch_dot of (b, h, 1) with the transpose of (b, w, 1) *)
  let _mask :=
    nd.map2 (fun hrow wrow => map (fun hv => map (fun wv => hv * wv) wrow) hrow)
      _h _w in
  nd.map2 (nd.map2 (nd.map2 Qmult)) _mask masks.

(** [nd.dot] of a (P, K) matrix with a (K, h, w) tensor: a (P, h, w) tensor. *)
Definition scale_mat (s : Q) (m : mat) : mat := map (map (Qmult s)) m.
Definition add_mat (m1 m2 : mat) : mat := nd.map2 (nd.map2 Qplus) m1 m2.

Definition dot_row (coefs : list Q) (m : cube) : mat :=
  match nd.map2 scale_mat coefs m with
  | [] => []
  | x :: xs => fold_left add_mat xs x
  end.

Definition dot (a : mat) (m : cube) : cube := map (fun coefs => dot_row coefs m) a.

Section GlobalAware.

(** [nd.sqrt], elementwise. *)
Variable sqrt : Q -> Q.

(** [global_aware(self, masks)] (of [YOLACTMultiBoxLoss] and of
    [MaskLoss]): each mask, flattened, minus its mean, over its standard
    deviation plus 1e-6, in its shape again. *)
Definition global_aware (masks : cube) : cube :=
  map (fun m =>
         let flat := concat m in
         let centered := map (fun x => x - nd.mean flat) flat in
         let std := sqrt (nd.mean (map (fun x => x * x) centered)) in
         fst (fill2 m (map (fun x => x / (std + (1 # 1000000))) centered)))
      masks.

End GlobalAware.

Section MaskLoss.

(** [nd.sigmoid], elementwise. *)
Variable sigmoid : Q -> Q.

(** [gluon.loss.SigmoidBinaryCrossEntropyLoss(from_sigmoid=True)]: one loss
    per entry of the first axis. *)
Variable SBCELoss : cube -> cube -> list Q.

(** [samples.sum(axis=-1).asnumpy().astype('int')] with
    [samples = matches >= 0], for one row. *)
Definition pos_num_of (matches : list Z) : nat :=
  length (filter (fun m => (0 <=? m)%Z) matches).

(** [(-matches).argsort(axis=-1)], for one row. *)
Definition rank_row (matches : list Z) : list nat :=
  nd.argsort (map (fun m => - inject_Z m) matches).

(** [rank[i, :pos_num[i]]] *)
Definition idx_of (matches : list Z) : list nat :=
  firstn (pos_num_of matches) (rank_row matches).

(** [(pos_bboxe[:, 3] - pos_bboxe[:, 1]) * (pos_bboxe[:, 2] - pos_bboxe[:, 0])] *)
Definition area_of (bb : list Q) : Q :=
  (nth 3 bb 0 - nth 1 bb 0) * (nth 2 bb 0 - nth 0 bb 0).

(** [mask_target[i, matches[i, idx], :, :]] *)
Definition gather_masks (mask_target : cube) (matches : list Z) (idx : list nat)
  : cube :=
  map (fun j => nth (Z.to_nat (nth j matches 0%Z)) mask_target []) idx.

(** The body of the loop of [mask_loss] for sample [i], after the test
    [pos_num[i] == 0]. *)
Definition sample_loss (gt_weidth gt_height : Q) (mask_pred : cube)
  (mask_eoc : mat) (mask_target : cube) (matches : list Z) (bt_target : mat)
  : Q :=
  let idx := idx_of matches in
  let pos_bboxe := nd.take [] bt_target idx in
  let weight := map (fun bb => gt_weidth * gt_height / area_of bb) pos_bboxe in
  let mask_gt := gather_masks mask_target matches idx in
  let mask_preds :=
    map (map (map sigmoid)) (dot (nd.take [] mask_eoc idx) mask_pred) in
  let h := length (nth 0 mask_pred []) in
  let w := length (nth 0 (nth 0 mask_pred []) []) in
  let mask_preds := crop pos_bboxe h w mask_preds in
  let loss := nd.map2 Qmult (SBCELoss mask_preds mask_gt) weight in
  nd.mean loss.

(** [mask_loss(self, mask_pred, mask_eoc, mask_target, matches, bt_target)]:
    one loss per sample of the batch. *)
Definition mask_loss (gt_weidth gt_height : Q) (mask_pred : list cube)
  (mask_eoc : cube) (mask_target : list cube) (matches : list (list Z))
  (bt_target : cube) : list Q :=
  let losses :=
    map (fun i =>
           if Nat.eqb (pos_num_of (nth i matches [])) 0 then [0]
           else [sample_loss gt_weidth gt_height (nth i mask_pred [])
                   (nth i mask_eoc []) (nth i mask_target [])
                   (nth i matches []) (nth i bt_target [])])
        (seq 0 (length mask_pred)) in
  concat losses.

End MaskLoss.

End MaskOps.

(** ** MaskLoss *)

Module MaskLoss.

Record t : Type := {
  gt_weidth : Q;
  gt_height : Q;
  mask_lambd : Q
}.

Definition __init__ (mask_lambd : Q) : t :=
  {| gt_weidth := 740; gt_height := 740; mask_lambd := mask_lambd |}.

Section Forward.

Variable sigmoid : Q -> Q.
Variable SBCELoss : cube -> cube -> list Q.

Definition mask_loss (L : t) :=
  MaskOps.mask_loss sigmoid SBCELoss (gt_weidth L) (gt_height L).

Definition crop (bboxes : mat) (h w : nat) (masks : cube) : cube :=
  MaskOps.crop bboxes h w masks.

Definition forward (L : t) (box_target : cube) (gt_masks : list cube)
  (matches : list (list Z)) (masks : list cube) (maskeoc_pred : cube) : Q :=
  nd.mean (map (Qmult (mask_lambd L))
             (mask_loss L masks maskeoc_pred gt_masks matches box_target)).

End Forward.

End MaskLoss.

(** ** YOLACTMultiBoxLoss *)

Module YOLACTMultiBoxLoss.

Record t : Type := {
  _negative_mining_ratio : Q;
  _rho : Q;
  box_lambd : Q;
  conf_lambd : Q;
  mask_lambd : Q;
  gt_weidth : Q;
  gt_height : Q;
  _min_hard_negatives : Z
}.

Definition __init__
  (negative_mining_ratio rho box_lambd conf_lambd mask_lambd : Q)
  (min_hard_negatives : Z)
  : t :=
  {| _negative_mining_ratio := py_max 0 negative_mining_ratio;
     _rho := rho;
     box_lambd := box_lambd;
     conf_lambd := conf_lambd;
     mask_lambd := mask_lambd;
     gt_weidth := 550;
     gt_height := 550;
     _min_hard_negatives := Z.max 0 min_hard_negatives |}.

(** The fields the mining and box-regression code reads; that code is the
    code of [SSDMultiBoxLoss.forward]. *)
Definition mining_params (L : t) : SSDMultiBoxLoss.t :=
  {| SSDMultiBoxLoss._negative_mining_ratio := _negative_mining_ratio L;
     SSDMultiBoxLoss._rho := _rho L;
     SSDMultiBoxLoss._lambd := 1;
     SSDMultiBoxLoss._min_hard_negatives := _min_hard_negatives L |}.

(** What the second loop zips besides the four lists of a [device]:
    [mask_pred], [mask_eoc], [mask_target], [matches] and [bts]. *)
Definition mask_device : Type :=
  (list cube * cube * list cube * list (list Z) * cube)%type.

Fixpoint zip5 {A B C D E : Type} (la : list A) (lb : list B) (lc : list C)
  (ld : list D) (le : list E) : list (A * B * C * D * E) :=
  match la, lb, lc, ld, le with
  | a :: la', b :: lb', c :: lc', d :: ld', e :: le' =>
      (a, b, c, d, e) :: zip5 la' lb' lc' ld' le'
  | _, _, _, _, _ => []
  end.

(** [sum_losses], [cls_losses], [box_losses], [mask_losses]. *)
Definition losses : Type :=
  (list (list Q) * list (list Q) * list (list Q) * list (list Q))%type.

Section Forward.

Variable log_softmax : list Q -> list Q.
Variable sigmoid : Q -> Q.
Variable SBCELoss : cube -> cube -> list Q.

Definition mask_loss (L : t) :=
  MaskOps.mask_loss sigmoid SBCELoss (gt_weidth L) (gt_height L).

Definition crop (bboxes : mat) (h w : nat) (masks : cube) : cube :=
  MaskOps.crop bboxes h w masks.

Definition no_samples (L : t) (devs : list SSDMultiBoxLoss.device) : bool :=
  Qltb (SSDMultiBoxLoss.num_pos_all devs) 1 && (_min_hard_negatives L <? 1)%Z.

Definition dummy_losses (cls_pred box_pred mask_eoc : list cube) : losses :=
  let z := SSDMultiBoxLoss.sum_times_zero in
  let cls_losses := map z cls_pred in
  let box_losses := map z box_pred in
  let mask_losses := map z mask_eoc in
  let sum_losses :=
    map (fun '(cp, bp, me) => nd.map2 Qplus (nd.map2 Qplus (z cp) (z bp)) (z me))
      (combine (combine cls_pred box_pred) mask_eoc) in
  (sum_losses, cls_losses, box_losses, mask_losses).

(** The body of the second loop, for one device. *)
Definition device_losses (L : t) (npa : Q)
  (d : SSDMultiBoxLoss.device * mask_device)
  : list Q * list Q * list Q * list Q :=
  let '((cp, bp, ct, bt), (mp, me, mt, ma, btt)) := d in
  let msk := map (Qmult (mask_lambd L)) (mask_loss L mp me mt ma btt) in
  let cls :=
    map (fun row => conf_lambd L * nd.sum row / py_max 1 npa)
      (SSDMultiBoxLoss.mined_cls_loss log_softmax (mining_params L) cp ct) in
  let box :=
    map (fun rows => box_lambd L * nd.sum2 rows / py_max 1 npa)
      (SSDMultiBoxLoss.masked_box_loss (mining_params L) bp ct bt) in
  (nd.map2 Qplus (nd.map2 Qplus cls box) msk, cls, box, msk).

Definition forward (L : t) (cls_pred box_pred : arg cube)
  (mask_pred : list (list cube)) (mask_eoc : list cube)
  (cls_target : arg (list (list Z))) (box_target : arg cube)
  (mask_target : list (list cube)) (matches : list (list (list Z)))
  (bts : list cube) : losses :=
  let cls_pred := _as_list cls_pred in
  let box_pred := _as_list box_pred in
  let cls_target := _as_list cls_target in
  let box_target := _as_list box_target in
  let devs := zip4 cls_pred box_pred cls_target box_target in
  let npa := SSDMultiBoxLoss.num_pos_all devs in
  if no_samples L devs then dummy_losses cls_pred box_pred mask_eoc
  else
    let per_device :=
      map (device_losses L npa)
        (combine devs (zip5 mask_pred mask_eoc mask_target matches bts)) in
    (map (fun r => fst (fst (fst r))) per_device,
     map (fun r => snd (fst (fst r))) per_device,
     map (fun r => snd (fst r)) per_device,
     map snd per_device).

End Forward.

End YOLACTMultiBoxLoss.

(** ** IOULoss *)

Module IOULoss.

Record t : Type := {
  _weight : option Q;
  _batch_axis : Z;
  _return_iou : bool;
  _eps : Q
}.

Definition __init__ (return_iou : bool) (eps : Q) (weight : option Q)
  (batch_axis : Z) : t :=
  {| _weight := weight;
     _batch_axis := batch_axis;
     _return_iou := return_iou;
     _eps := eps |}.

(** What [hybrid_forward] returns: the loss, or the pair of the loss and
    the IoU tensor. *)
Inductive result : Type :=
| Loss (loss : Q)
| LossAndIous (loss : Q) (ious : mat).

Definition loss_of (r : result) : Q :=
  match r with
  | Loss l => l
  | LossAndIous l _ => l
  end.

(** Elementwise operators on tensors of shape (B, N). *)
Definition ew1 (f : Q -> Q) (a : mat) : mat := map (map f) a.
Definition ew2 (f : Q -> Q -> Q) (a b : mat) : mat := nd.map2 (nd.map2 f) a b.

(** [F.split(x, num_outputs=4, axis=-1, squeeze_axis=True)], output [k]. *)
Definition split4 (k : nat) (x : cube) : mat := map (map (fun bx => nth k bx 0)) x.

Section Forward.

(** [F.log], elementwise. *)
Variable log : Q -> Q.

Definition ious_of (pred gt : cube) : mat :=
  let px1 := split4 0 pred in
  let py1 := split4 1 pred in
  let px2 := split4 2 pred in
  let py2 := split4 3 pred in
  let gx1 := split4 0 gt in
  let gy1 := split4 1 gt in
  let gx2 := split4 2 gt in
  let gy2 := split4 3 gt in
  let plus1 := ew1 (fun x => x + 1) in
  let max0 := ew1 (fun x => nd.maximum x 0) in
  let apd := ew2 Qmult (ew1 Qabs (plus1 (ew2 Qminus px2 px1)))
                       (ew1 Qabs (plus1 (ew2 Qminus py2 py1))) in
  let agt := ew2 Qmult (ew1 Qabs (plus1 (ew2 Qminus gx2 gx1)))
                       (ew1 Qabs (plus1 (ew2 Qminus gy2 gy1))) in
  let iw := max0 (plus1 (ew2 Qminus (ew2 nd.minimum px2 gx2) (ew2 nd.maximum px1 gx1))) in
  let ih := max0 (plus1 (ew2 Qminus (ew2 nd.minimum py2 gy2) (ew2 nd.maximum py1 gy1))) in
  let ain := plus1 (ew2 Qmult iw ih) in
  let union := plus1 (ew2 Qminus (ew2 Qplus apd agt) ain) in
  max0 (ew2 Qdiv ain union).

(** [F.where(label > 0, F.ones_like(label), F.zeros_like(label))] *)
Definition fg_mask_of (label : mat) : mat :=
  ew1 (fun l => nd.where_ (b2q (Qgtb l 0)) 1 0) label.

Definition hybrid_forward (L : t) (pred gt : cube) (label : mat) : result :=
  let ious := ious_of pred gt in
  let fg_mask := fg_mask_of label in
  let loss :=
    ew2 Qmult (ew1 (fun x => - log (nd.minimum (x + _eps L) 1)) ious) fg_mask in
  if _return_iou L
  then LossAndIous (nd.sum2 loss / nd.maximum (nd.sum2 fg_mask) 1) ious
  else Loss (nd.sum2 loss / nd.maximum (nd.sum2 fg_mask) 1).

End Forward.

End IOULoss.

(** ** CtrNessLoss *)

Module CtrNessLoss.

Record t : Type := {
  _weight : option Q;
  _batch_axis : Z
}.

(** [eps] is accepted and not kept. *)
Definition __init__ (eps : Q) (weight : option Q) (batch_axis : Z) : t :=
  {| _weight := weight; _batch_axis := batch_axis |}.

(** [F.squeeze(pred, axis=-1)]: the last axis has to be of length 1. *)
Definition squeeze (pred : cube) : outcome mat :=
  if forallb (forallb (fun x => Nat.eqb (length x) 1)) pred
  then Ok (map (map (fun x => nth 0 x 0)) pred)
  else Raises MXNetError.

Section Forward.

(** [F.log] and [F.exp], elementwise. *)
Variable log : Q -> Q.
Variable exp : Q -> Q.

(** The loss tensor and the mask of [hybrid_forward], for predictions that
    are squeezed already. *)
Definition loss_and_mask (pred ctr_gt cls_gt : mat) : mat * mat :=
  let pos_gt_mask := IOULoss.ew1 (fun c => b2q (Qgtb c 0)) cls_gt in
  let pos_pred_mask := IOULoss.ew1 (fun p => b2q (Qgeb p 0)) pred in
  let loss :=
    IOULoss.ew2 Qmult
      (IOULoss.ew2 Qplus
         (IOULoss.ew2 Qminus (IOULoss.ew2 Qmult pred pos_pred_mask)
            (IOULoss.ew2 Qmult pred ctr_gt))
         (IOULoss.ew1 (fun p => log (1 + exp (- Qabs p))) pred))
      pos_gt_mask in
  (loss, pos_gt_mask).

Definition hybrid_forward (L : t) (pred : cube) (ctr_gt cls_gt : mat)
  : outcome Q :=
  match squeeze pred with
  | Raises e => Raises e
  | Ok pred =>
      let '(loss, pos_gt_mask) := loss_and_mask pred ctr_gt cls_gt in
      Ok (nd.sum2 loss / nd.maximum (nd.sum2 pos_gt_mask) 1)
  end.

End Forward.

End CtrNessLoss.

(** ** SigmoidFocalLoss and MaskFCOSLoss: the constructors *)

Module SigmoidFocalLoss.

Record t : Type := {
  _weight : option Q;
  _batch_axis : Z;
  _alpha : Q;
  _gamma : Q;
  _sparse_label : bool;
  _num_class : py_value;
  _from_logits : bool;
  _eps : Q
}.

Definition __init__ (alpha gamma : Q) (sparse_label from_logits : bool)
  (batch_axis : Z) (weight : option Q) (num_class : py_value) (eps : Q)
  : outcome t :=
  if bad_num_class sparse_label num_class then Raises ValueError
  else Ok {| _weight := weight;
             _batch_axis := batch_axis;
             _alpha := alpha;
             _gamma := gamma;
             _sparse_label := sparse_label;
             _num_class := num_class;
             _from_logits := from_logits;
             _eps := eps |}.

Section Forward.

Variable sigmoid : Q -> Q.
Variable log : Q -> Q.
Variable power : Q -> Q -> Q.

(** [F.slice_axis(F.one_hot(label, self._num_class), begin=1, end=None,
    axis=-1)]: the one-hot rows without their first entry; [None] when
    [num_class] is not an [int], or leaves no class after the slice. *)
Definition one_hot_of (L : t) (label : list (list Z)) : option cube :=
  if isinstance_int (_num_class L) && (2 <=? int_value (_num_class L))%Z
  then Some (map (map (fun c =>
                         skipn 1 (nd.one_hot c (Z.to_nat (int_value (_num_class L))))))
               label)
  else None.

(** The loss tensor before the weighting. *)
Definition focal_tensor (L : t) (pred one_hot : cube) : cube :=
  let pt := Loss.ew2 (fun oh p => nd.where_ oh p (1 - p)) one_hot pred in
  let t := Loss.ew1 (fun _ => 1) one_hot in
  let alpha :=
    Loss.ew2 (fun oh t => nd.where_ oh (_alpha L * t) ((1 - _alpha L) * t))
      one_hot t in
  Loss.ew2 Qmult
    (Loss.ew2 (fun a p => - a * power (1 - p) (_gamma L)) alpha pt)
    (Loss.ew1 (fun p => log (nd.minimum (p + _eps L) 1)) pt).

(** [label > 0] *)
Definition pos_mask_of (label : list (list Z)) : mat :=
  map (map (fun c => b2q (0 <? c)%Z)) label.

Definition hybrid_forward (L : t) (pred : cube) (label : list (list Z))
  (sample_weight : option cube) : outcome Q :=
  let pred := if _from_logits L then pred else Loss.ew1 sigmoid pred in
  match one_hot_of L label with
  | None => Raises MXNetError
  | Some one_hot =>
      if negb (Loss.same_shape one_hot pred) then Raises MXNetError
      else
        match Loss._apply_weighting (focal_tensor L pred one_hot)
                (_weight L) sample_weight with
        | Raises e => Raises e
        | Ok loss =>
            Ok (nd.sum3 loss / nd.maximum (nd.sum2 (pos_mask_of label)) 1)
        end
  end.

End Forward.

End SigmoidFocalLoss.

Module MaskFCOSLoss.

Record t : Type := {
  _return_iou : bool;
  _eps : Q;
  _alpha : Q;
  _gamma : Q;
  _cls_lambd : Q;
  _box_lambd : Q;
  _ctr_lambd : Q;
  _mask_lambd : Q;
  _sparse_label : bool;
  _num_class : py_value;
  _from_logits : bool;
  gt_weidth : Q;
  gt_height : Q;
  max : Q
}.

(** [img_shape] is a sequence of numbers, as its default [(740, 740)].
    After the check of [num_class],
    [self.gt_weidth, self.gt_height = img_shape] unpacks it, which raises
    [ValueError] unless it has exactly two entries. *)
Definition __init__ (return_iou : bool)
  (alpha gamma cls_lambd box_lambd ctr_lambd mask_lambd : Q)
  (img_shape : list Q) (sparse_label from_logits : bool) (num_class : py_value)
  (eps : Q) : outcome t :=
  if bad_num_class sparse_label num_class then Raises ValueError
  else
    match img_shape with
    | [weidth; height] =>
        Ok {| _return_iou := return_iou;
              _eps := eps;
              _alpha := alpha;
              _gamma := gamma;
              _cls_lambd := cls_lambd;
              _box_lambd := box_lambd;
              _ctr_lambd := ctr_lambd;
              _mask_lambd := mask_lambd;
              _sparse_label := sparse_label;
              _num_class := num_class;
              _from_logits := from_logits;
              gt_weidth := weidth;
              gt_height := height;
              max := 0 |}
    | _ => Raises ValueError
    end.

Section Forward.

Variable sigmoid : Q -> Q.
Variable log : Q -> Q.
Variable exp : Q -> Q.
Variable power : Q -> Q -> Q.

(** The first two blocks of the loop of [forward], for one device: from
    the class targets [clst] (B, N), the centre-ness targets [ctrt] (B, N),
    the class scores [clsp] (B, N, C) and the centre-ness scores [ctrp]
    (B, N, 1). *)

(** [pos_gt_mask = clst > 0] *)
Definition pos_gt_mask_of (clst : list (list Z)) : mat :=
  map (map (fun c => b2q (0 <? c)%Z)) clst.

(** "cls loss" *)
Definition cls_loss (L : t) (clst : list (list Z)) (clsp : cube) : outcome Q :=
  let clsp := if _from_logits L then clsp else Loss.ew1 sigmoid clsp in
  if isinstance_int (_num_class L) && (2 <=? int_value (_num_class L))%Z
  then
    let one_hot :=
      map (map (fun c =>
                  skipn 1 (nd.one_hot c (Z.to_nat (int_value (_num_class L))))))
        clst in
    if negb (Loss.same_shape one_hot clsp) then Raises MXNetError
    else
      let pt := Loss.ew2 (fun oh p => nd.where_ oh p (1 - p)) one_hot clsp in
      let t := Loss.ew1 (fun _ => 1) one_hot in
      let alpha :=
        Loss.ew2 (fun oh t => nd.where_ oh (_alpha L * t) ((1 - _alpha L) * t))
          one_hot t in
      let cls_loss :=
        Loss.ew2 Qmult
          (Loss.ew2 (fun a p => - a * power (1 - p) (_gamma L)) alpha pt)
          (Loss.ew1 (fun p => log (nd.minimum (p + _eps L) 1)) pt) in
      Ok (nd.sum3 cls_loss / nd.maximum (nd.sum2 (pos_gt_mask_of clst)) 1)
  else Raises MXNetError.

(** "ctr loss" *)
Definition ctr_loss (clst : list (list Z)) (ctrt : mat) (ctrp : cube) : outcome Q :=
  match CtrNessLoss.squeeze ctrp with
  | Raises e => Raises e
  | Ok ctrp =>
      let pos_gt_mask := pos_gt_mask_of clst in
      let pos_pred_mask := IOULoss.ew1 (fun p => b2q (Qgeb p 0)) ctrp in
      let ctr_loss :=
        IOULoss.ew2 Qmult
          (IOULoss.ew2 Qplus
             (IOULoss.ew2 Qminus (IOULoss.ew2 Qmult ctrp pos_pred_mask)
                (IOULoss.ew2 Qmult ctrp ctrt))
             (IOULoss.ew1 (fun p => log (1 + exp (- Qabs p))) ctrp))
          pos_gt_mask in
      Ok (nd.sum2 ctr_loss / nd.maximum (nd.sum2 pos_gt_mask) 1)
  end.

End Forward.

End MaskFCOSLoss.

(** ** The point-cloud training loop ([train_pointnet.py]) *)

Module TrainPointnet.

(** The command-line options the loop reads. [lr_decay_epoch] is the
    parsed list [[int(i) for i in opt.lr_decay_epoch.split(',')]];
    [save_dir] tells whether the directory name is not empty;
    [per_device_batch_size] is [opt.batch_size], the batch size of one
    device. *)
Record options : Type := {
  lr : Q;
  lr_decay : Q;
  lr_decay_epoch : list Z;
  save_period : Z;
  save_dir : bool;
  per_device_batch_size : Z;
  num_gpus : Z
}.

(** An entry of the module-level [lr_decay_epoch]: an epoch or [np.inf]. *)
Inductive mark : Type :=
| At (e : Z)
| Inf.

(** [epoch == m] *)
Definition mark_eqb (epoch : nat) (m : mark) : bool :=
  match m with
  | At e => Z.eqb (Z.of_nat epoch) e
  | Inf => false
  end.

(** What the loop does to the trainer, the network and the log. *)
Inductive event : Type :=
| SetLearningRate (epoch : nat) (learning_rate : Q)
| TrainerStep (epoch batch : nat) (learning_rate : Q)
| SaveBest (epoch : nat) (score : Q)
| LogEpoch (epoch : nat)
| SaveParams (epoch : Z).

Record state : Type := {
  learning_rate : Q;
  lr_decay_count : nat;
  iteration : nat;
  best_val_score : Q;
  trace : list event
}.

Inductive error : Type :=
| IndexError
| ZeroDivisionError.

Definition bind {A B : Type} (x : A + error) (f : A -> B + error) : B + error :=
  match x with
  | inl a => f a
  | inr e => inr e
  end.

(** The devices of the module-level [context]. *)
Inductive device : Type :=
| gpu (i : nat)
| cpu.

(** [batch_size *= max(1, num_gpus)], from the per-device [--batch-size]. *)
Definition batch_size (per_device num_gpus : Z) : Z :=
  per_device * Z.max 1 num_gpus.

(** [[mx.gpu(i) for i in range(num_gpus)] if num_gpus > 0 else [mx.cpu()]] *)
Definition context (num_gpus : Z) : list device :=
  if (0 <? num_gpus)%Z then map gpu (seq 0 (Z.to_nat num_gpus)) else [cpu].

Section Train.

Variable opt : options.

(** [len(train_data)] *)
Variable num_batch : nat.

(** The accuracy the first [test(ctx, val_data)] of an epoch returns. *)
Variable val_acc : nat -> Q.

(** [[int(i) for i in opt.lr_decay_epoch.split(',')] + [np.inf]] *)
Definition marks : list mark := map At (lr_decay_epoch opt) ++ [Inf].

(** The module-level normalisation of [save_dir] and [save_period]. *)
Definition saving : bool := save_dir opt && negb (Z.eqb (save_period opt) 0).

Definition emit (s : state) (e : event) : state :=
  {| learning_rate := learning_rate s;
     lr_decay_count := lr_decay_count s;
     iteration := iteration s;
     best_val_score := best_val_score s;
     trace := trace s ++ [e] |}.

(** [if epoch == lr_decay_epoch[lr_decay_count]: ...] *)
Definition decay (epoch : nat) (s : state) : state + error :=
  match nth_error marks (lr_decay_count s) with
  | None => inr IndexError
  | Some m =>
      if mark_eqb epoch m
      then
        let new_lr := learning_rate s * lr_decay opt in
        inl {| learning_rate := new_lr;
               lr_decay_count := S (lr_decay_count s);
               iteration := iteration s;
               best_val_score := best_val_score s;
               trace := trace s ++ [SetLearningRate epoch new_lr] |}
      else inl s
  end.

(** One mini-batch: [trainer.step(batch_size)], [iteration += 1]. *)
Definition batch (epoch : nat) (s : state) (i : nat) : state :=
  {| learning_rate := learning_rate s;
     lr_decay_count := lr_decay_count s;
     iteration := S (iteration s);
     best_val_score := best_val_score s;
     trace := trace s ++ [TrainerStep epoch i (learning_rate s)] |}.

(** [for i, batch in enumerate(train_data): ...] *)
Definition batches (epoch : nat) (s : state) : state :=
  fold_left (batch epoch) (seq 0 num_batch) s.

(** [if val_acc > best_val_score: ...] *)
Definition validate (epoch : nat) (s : state) : state :=
  if Qgtb (val_acc epoch) (best_val_score s)
  then {| learning_rate := learning_rate s;
          lr_decay_count := lr_decay_count s;
          iteration := iteration s;
          best_val_score := val_acc epoch;
          trace := trace s ++ [SaveBest epoch (val_acc epoch)] |}
  else s.

(** [if save_period and save_dir and (epoch + 1) % save_period == 0: ...] *)
Definition periodic (epoch : nat) (s : state) : state :=
  if saving && Z.eqb ((Z.of_nat epoch + 1) mod save_period opt) 0
  then emit s (SaveParams (Z.of_nat epoch))
  else s.

(** [batch_size * num_batch], with the module-level [batch_size]. *)
Definition divisor : Z :=
  batch_size (per_device_batch_size opt) (num_gpus opt) * Z.of_nat num_batch.

(** [train_loss /= batch_size * num_batch], after the mini-batches and
    before the validation: a divisor 0 raises.  The loss itself is only
    logged. *)
Definition divide_train_loss (s : state) : state + error :=
  if Z.eqb divisor 0 then inr ZeroDivisionError else inl s.

(** The body of [for epoch in range(epochs)]. *)
Definition epoch_body (s : state) (epoch : nat) : state + error :=
  bind (decay epoch s)
       (fun s =>
          bind (divide_train_loss (batches epoch s))
               (fun s => inl (periodic epoch
                                (emit (validate epoch s) (LogEpoch epoch))))).

Definition initial : state :=
  {| learning_rate := lr opt;
     lr_decay_count := 0;
     iteration := 0;
     best_val_score := 0;
     trace := [] |}.

(** The state after the first [n] epochs. *)
Definition run (n : nat) : state + error :=
  fold_left (fun r epoch => bind r (fun s => epoch_body s epoch)) (seq 0 n)
    (inl initial).

(** [train(epochs, ctx)] *)
Definition train (epochs : nat) : state + error :=
  bind (run epochs)
       (fun s => inl (if saving then emit s (SaveParams (Z.of_nat epochs - 1))
                      else s)).

End Train.

End TrainPointnet.

(** * Part II.  Properties *)

(** ** Facts about the scalars *)

Lemma Qltb_lt (x y : Q) : Qltb x y = true <-> x < y.
Proof.
  unfold Qltb. rewrite negb_true_iff. split; intro H.
  - apply Qnot_le_lt. intro L. apply Qle_bool_iff in L. congruence.
  - destruct (Qle_bool y x) eqn:E; [|reflexivity].
    apply Qle_bool_iff in E. lra.
Qed.

Lemma Qltb_ge (x y : Q) : Qltb x y = false <-> y <= x.
Proof.
  unfold Qltb. rewrite negb_false_iff. apply Qle_bool_iff.
Qed.

Lemma Qle_bool_gt (x y : Q) : Qle_bool x y = false <-> y < x.
Proof.
  split; intro H.
  - apply Qnot_le_lt. intro L. apply Qle_bool_iff in L. congruence.
  - destruct (Qle_bool x y) eqn:E; [|reflexivity].
    apply Qle_bool_iff in E. lra.
Qed.

Lemma n2q_le (a b : nat) : n2q a <= n2q b <-> (a <= b)%nat.
Proof.
  unfold n2q. rewrite <- Zle_Qle. lia.
Qed.

Lemma n2q_lt (a b : nat) : n2q a < n2q b <-> (a < b)%nat.
Proof.
  unfold n2q. rewrite <- Zlt_Qlt. lia.
Qed.

Lemma py_max_spec (a b : Q) : a <= py_max a b /\ b <= py_max a b.
Proof.
  unfold py_max. destruct (Qltb a b) eqn:E.
  - apply Qltb_lt in E. lra.
  - apply Qltb_ge in E. lra.
Qed.

(** ** The tensor operators on small inputs *)

Example argsort_example :
  nd.argsort [3; 1; 2; 1] = [1; 3; 2; 0]%nat
  /\ nd.rank_of [3; 1; 2; 1] = [3; 0; 2; 1]%nat.
Proof. split; reflexivity. Qed.

Example round_example :
  map nd.round [5 # 2; - (5 # 2); 12 # 5; - (3 # 2); 0] = [3; -3; 2; -2; 0].
Proof. reflexivity. Qed.

Example take_pick_example :
  nd.take 0 [10; 20; 30] [2; 0; 7]%nat = [30; 10; 30]
  /\ nd.pick [10; 20; 30] (-1) = 10
  /\ nd.pick [10; 20; 30] 5 = 30
  /\ nd.one_hot 1 3 = [0; 1; 0]
  /\ nd.one_hot 3 3 = [0; 0; 0].
Proof. repeat split. Qed.

(** ** Facts about argsort *)

Section ArgsortFacts.

Lemma insert_by_perm (key : nat -> Q) (i : nat) (l : list nat) :
  Permutation (nd.insert_by key i l) (i :: l).
Proof.
  induction l as [|j l IH]; simpl.
  - apply Permutation_refl.
  - destruct (Qle_bool (key i) (key j)).
    + apply Permutation_refl.
    + eapply Permutation_trans; [apply perm_skip, IH | apply perm_swap].
Qed.

Lemma isort_perm (key : nat -> Q) (l : list nat) :
  Permutation (nd.isort key l) l.
Proof.
  induction l as [|i l IH]; simpl.
  - constructor.
  - eapply Permutation_trans; [apply insert_by_perm | apply perm_skip, IH].
Qed.

Definition key_le (key : nat -> Q) (i j : nat) : Prop := key i <= key j.

Lemma insert_by_sorted (key : nat -> Q) (i : nat) (l : list nat) :
  StronglySorted (key_le key) l ->
  StronglySorted (key_le key) (nd.insert_by key i l).
Proof.
  induction l as [|j l IH]; simpl; intro S.
  - repeat constructor.
  - inversion S as [|? ? Sl Fl]; subst.
    destruct (Qle_bool (key i) (key j)) eqn:E.
    + apply Qle_bool_iff in E. constructor; [exact S|].
      constructor; [exact E|].
      eapply Forall_impl; [|exact Fl].
      unfold key_le. intros a Ha. lra.
    + apply Qle_bool_gt in E. constructor; [apply IH, Sl|].
      eapply Permutation_Forall; [apply Permutation_sym, insert_by_perm|].
      constructor; [unfold key_le; lra | exact Fl].
Qed.

Lemma isort_sorted (key : nat -> Q) (l : list nat) :
  StronglySorted (key_le key) (nd.isort key l).
Proof.
  induction l as [|i l IH]; simpl.
  - constructor.
  - apply insert_by_sorted, IH.
Qed.

Lemma argsort_perm (v : list Q) :
  Permutation (nd.argsort v) (seq 0 (length v)).
Proof. apply isort_perm. Qed.

Lemma argsort_length (v : list Q) : length (nd.argsort v) = length v.
Proof.
  rewrite (Permutation_length (argsort_perm v)). apply length_seq.
Qed.

Lemma argsort_NoDup (v : list Q) : NoDup (nd.argsort v).
Proof.
  eapply Permutation_NoDup; [apply Permutation_sym, argsort_perm|].
  apply seq_NoDup.
Qed.

Lemma argsort_In (v : list Q) (i : nat) :
  In i (nd.argsort v) <-> (i < length v)%nat.
Proof.
  split; intro H.
  - apply (Permutation_in _ (argsort_perm v)) in H.
    apply in_seq in H. lia.
  - apply (Permutation_in _ (Permutation_sym (argsort_perm v))).
    apply in_seq. lia.
Qed.

Lemma argsort_nth_lt (v : list Q) (a : nat) :
  (a < length v)%nat -> (nth a (nd.argsort v) 0%nat < length v)%nat.
Proof.
  intro H. apply argsort_In. apply nth_In. now rewrite argsort_length.
Qed.

Lemma StronglySorted_nth {A : Type} (R : A -> A -> Prop) (l : list A) (d : A) :
  StronglySorted R l ->
  forall a b, (a < b)%nat -> (b < length l)%nat -> R (nth a l d) (nth b l d).
Proof.
  induction 1 as [|x l S IH F]; intros a b Hab Hb; simpl in Hb; [lia|].
  destruct b as [|b]; [lia|]. destruct a as [|a]; simpl.
  - rewrite Forall_forall in F. apply F, nth_In. lia.
  - apply IH; lia.
Qed.

(** Along [argsort v] the entries of [v] ascend. *)
Lemma argsort_ascending (v : list Q) (a b : nat) :
  (a <= b)%nat -> (b < length v)%nat ->
  nth (nth a (nd.argsort v) 0%nat) v 0 <= nth (nth b (nd.argsort v) 0%nat) v 0.
Proof.
  intros Hab Hb.
  destruct (Nat.eq_dec a b) as [->|Hne]; [lra|].
  pose proof (isort_sorted (fun i => nth i v 0) (seq 0 (length v))) as S.
  apply (StronglySorted_nth _ _ 0%nat S a b); [lia|].
  fold (nd.argsort v). now rewrite argsort_length.
Qed.

Lemma seq_sorted (s n : nat) : StronglySorted le (seq s n).
Proof.
  revert s. induction n as [|n IH]; intro s; simpl; constructor.
  - apply IH.
  - apply Forall_forall. intros x Hx. apply in_seq in Hx. lia.
Qed.

Lemma sorted_perm_unique (l1 l2 : list nat) :
  StronglySorted le l1 -> StronglySorted le l2 -> Permutation l1 l2 -> l1 = l2.
Proof.
  revert l2. induction l1 as [|a l1 IH]; intros l2 S1 S2 P.
  - apply Permutation_nil in P. now subst.
  - destruct l2 as [|b l2].
    + apply Permutation_sym, Permutation_nil in P. discriminate.
    + inversion S1 as [|? ? S1' F1]; inversion S2 as [|? ? S2' F2]; subst.
      rewrite Forall_forall in F1, F2.
      assert (Hab : a = b).
      { assert (Ia : In a (b :: l2))
          by (apply (Permutation_in _ P); now left).
        assert (Ib : In b (a :: l1))
          by (apply (Permutation_in _ (Permutation_sym P)); now left).
        destruct Ia as [E|Ia]; [now symmetry|].
        destruct Ib as [E|Ib]; [exact E|].
        apply F1 in Ib. apply F2 in Ia. lia. }
      subst b. f_equal. apply IH; try assumption.
      now apply Permutation_cons_inv in P.
Qed.

Lemma map_nth_seq {A : Type} (l : list A) (d : A) :
  map (fun i => nth i l d) (seq 0 (length l)) = l.
Proof.
  apply (nth_ext _ _ d d).
  - now rewrite length_map, length_seq.
  - intros n Hn. rewrite length_map, length_seq in Hn.
    rewrite (nth_indep _ d (nth 0%nat l d)) by now rewrite length_map, length_seq.
    rewrite (map_nth (fun i => nth i l d)), seq_nth by exact Hn.
    reflexivity.
Qed.

(** The second argsort inverts the first: [rank_of v] gives each index its
    position in the sorted order. *)
Lemma rank_of_position (v : list Q) (i : nat) :
  (i < length v)%nat ->
  nth (nth i (nd.rank_of v) 0%nat) (nd.argsort v) 0%nat = i.
Proof.
  intro Hi. unfold nd.rank_of.
  set (p := nd.argsort v).
  set (q := nd.argsort (map n2q p)).
  assert (Lp : length p = length v) by apply argsort_length.
  assert (Lq : length q = length v).
  { unfold q. now rewrite argsort_length, length_map. }
  assert (Pq : Permutation q (seq 0 (length p))).
  { unfold q. rewrite <- (length_map n2q p). apply argsort_perm. }
  assert (E : map (fun a => nth a p 0%nat) q = seq 0 (length v)).
  { apply sorted_perm_unique.
    - (* ascending, from the order of the second argsort *)
      pose proof (isort_sorted (fun a => nth a (map n2q p) 0)
                    (seq 0 (length (map n2q p)))) as S.
      fold (nd.argsort (map n2q p)) in S. fold q in S.
      assert (Fq : Forall (fun a => (a < length p)%nat) q).
      { apply Forall_forall. intros a Ha.
        apply (Permutation_in _ Pq) in Ha. apply in_seq in Ha. lia. }
      clear -S Fq. induction S as [|a l S IH F]; simpl; constructor.
      + apply IH. now inversion Fq.
      + inversion Fq as [|? ? Ha Fl]; subst.
        rewrite Forall_forall in *. intros y Hy.
        apply in_map_iff in Hy. destruct Hy as [b [<- Hb]].
        specialize (F b Hb). unfold key_le in F.
        change 0 with (n2q 0) in F.
        rewrite !(map_nth n2q) in F. now apply n2q_le in F.
    - apply seq_sorted.
    - eapply Permutation_trans; [apply Permutation_map, Pq|].
      rewrite map_nth_seq. subst p. apply argsort_perm. }
  apply (f_equal (fun l => nth i l 0%nat)) in E.
  rewrite seq_nth in E by exact Hi. simpl in E.
  rewrite (nth_indep _ 0%nat ((fun a => nth a p 0%nat) 0%nat)) in E
    by (rewrite length_map; lia).
  rewrite (map_nth (fun a => nth a p 0%nat)) in E. exact E.
Qed.

Lemma rank_of_length (v : list Q) : length (nd.rank_of v) = length v.
Proof.
  unfold nd.rank_of. now rewrite argsort_length, length_map, argsort_length.
Qed.

Lemma rank_of_lt (v : list Q) (i : nat) :
  (i < length v)%nat -> (nth i (nd.rank_of v) 0%nat < length v)%nat.
Proof.
  intro Hi. unfold nd.rank_of.
  pose proof (argsort_nth_lt (map n2q (nd.argsort v)) i) as H.
  rewrite length_map, argsort_length in H. now apply H.
Qed.

(** A strictly smaller entry has a strictly smaller rank. *)
Lemma rank_of_monotone (v : list Q) (i j : nat) :
  (i < length v)%nat -> (j < length v)%nat ->
  nth i v 0 < nth j v 0 ->
  (nth i (nd.rank_of v) 0%nat < nth j (nd.rank_of v) 0%nat)%nat.
Proof.
  intros Hi Hj Hlt.
  destruct (Nat.lt_ge_cases (nth i (nd.rank_of v) 0%nat)
              (nth j (nd.rank_of v) 0%nat)) as [L|G]; [exact L|exfalso].
  pose proof (argsort_ascending v _ _ G (rank_of_lt v i Hi)) as A.
  rewrite !rank_of_position in A by assumption. lra.
Qed.

Lemma rank_of_injective (v : list Q) (i j : nat) :
  (i < length v)%nat -> (j < length v)%nat ->
  nth i (nd.rank_of v) 0%nat = nth j (nd.rank_of v) 0%nat -> i = j.
Proof.
  intros Hi Hj E.
  rewrite <- (rank_of_position v i Hi), <- (rank_of_position v j Hj).
  now rewrite E.
Qed.

(** *** The rank as a count *)

Lemma filter_none {A : Type} (P : A -> bool) (l : list A) :
  (forall b, In b l -> P b = false) -> filter P l = [].
Proof.
  induction l as [|b l IH]; intro H; simpl; [reflexivity|].
  rewrite (H b) by now left. apply IH. intros x Hx. apply H. now right.
Qed.

Lemma Permutation_filter_length {A : Type} (f : A -> bool) (l1 l2 : list A) :
  Permutation l1 l2 -> length (filter f l1) = length (filter f l2).
Proof.
  induction 1; simpl; try congruence.
  - destruct (f x); simpl; congruence.
  - destruct (f x), (f y); reflexivity.
Qed.

(** [j] comes before [i] in the order of [argsort]: a smaller entry, or an
    equal entry at a smaller index. *)
Definition sorts_before (v : list Q) (j i : nat) : bool :=
  Qltb (nth j v 0) (nth i v 0)
  || (Qeq_bool (nth j v 0) (nth i v 0) && Nat.ltb j i).

Definition lex_lt (key : nat -> Q) (a b : nat) : Prop :=
  key a < key b \/ (key a == key b /\ (a < b)%nat).

Lemma sorts_before_iff (v : list Q) (j i : nat) :
  sorts_before v j i = true <-> lex_lt (fun a => nth a v 0) j i.
Proof.
  unfold sorts_before, lex_lt.
  rewrite orb_true_iff, andb_true_iff, Qltb_lt, Qeq_bool_iff, Nat.ltb_lt.
  reflexivity.
Qed.

Lemma lex_lt_asym (key : nat -> Q) (a b : nat) :
  lex_lt key a b -> ~ lex_lt key b a.
Proof. unfold lex_lt. intros [H|[H1 H2]] [G|[G1 G2]]; try lra; lia. Qed.

Lemma lex_lt_irrefl (key : nat -> Q) (a : nat) : ~ lex_lt key a a.
Proof. unfold lex_lt. intros [H|[_ H]]; [lra|lia]. Qed.

Lemma insert_by_lex (key : nat -> Q) (i : nat) (l : list nat) :
  StronglySorted (lex_lt key) l -> Forall (fun j => (i < j)%nat) l ->
  StronglySorted (lex_lt key) (nd.insert_by key i l).
Proof.
  induction 1 as [|j l S IH F]; intro G; simpl.
  - repeat constructor.
  - inversion G as [|? ? Hij Gl]; subst.
    destruct (Qle_bool (key i) (key j)) eqn:E.
    + apply Qle_bool_iff in E.
      assert (Rij : lex_lt key i j).
      { unfold lex_lt. destruct (Qlt_le_dec (key i) (key j)) as [H|H];
          [now left|right]. split; [lra|exact Hij]. }
      constructor; [now constructor|].
      constructor; [exact Rij|].
      rewrite Forall_forall in *. intros x Hx.
      specialize (F x Hx). specialize (Gl x Hx).
      unfold lex_lt in *. destruct F as [F|[F1 F2]].
      * left. lra.
      * destruct (Qlt_le_dec (key i) (key x)) as [H|H]; [now left|right].
        split; [lra|exact Gl].
    + apply Qle_bool_gt in E.
      constructor; [now apply IH|].
      apply Forall_forall. intros x Hx.
      apply (Permutation_in _ (insert_by_perm key i l)) in Hx.
      destruct Hx as [<-|Hx]; [now left|].
      rewrite Forall_forall in F. now apply F.
Qed.

Lemma isort_seq_lex (key : nat -> Q) (s n : nat) :
  StronglySorted (lex_lt key) (nd.isort key (seq s n)).
Proof.
  revert s. induction n as [|n IH]; intro s; simpl; [constructor|].
  apply insert_by_lex; [apply IH|].
  apply Forall_forall. intros x Hx.
  apply (Permutation_in _ (isort_perm key (seq (S s) n))) in Hx.
  apply in_seq in Hx. lia.
Qed.

(** In a list sorted for the order, the entries before the one at position
    [p] are the first [p]. *)
Lemma sorted_count_before (v : list Q) (l : list nat) (p : nat) :
  StronglySorted (lex_lt (fun a => nth a v 0)) l -> (p < length l)%nat ->
  length (filter (fun j => sorts_before v j (nth p l 0%nat)) l) = p.
Proof.
  intro S. revert p. induction S as [|a l S IH F]; intros p Hp; simpl in Hp; [lia|].
  rewrite Forall_forall in F.
  destruct p as [|p]; cbn [nth filter].
  - replace (sorts_before v a a) with false.
    + rewrite filter_none; [reflexivity|].
      intros x Hx. destruct (sorts_before v x a) eqn:E; [|reflexivity].
      apply sorts_before_iff in E.
      exfalso. exact (lex_lt_asym _ _ _ (F x Hx) E).
    + symmetry. destruct (sorts_before v a a) eqn:E; [|reflexivity].
      apply sorts_before_iff in E. exfalso. exact (lex_lt_irrefl _ _ E).
  - replace (sorts_before v a (nth p l 0%nat)) with true.
    + cbn [length]. f_equal. apply IH. lia.
    + symmetry. apply sorts_before_iff. apply F, nth_In. lia.
Qed.

(** The rank of an entry is the number of entries that sort before it:
    the smaller ones, and the equal ones at a smaller index. *)
Lemma rank_of_count (v : list Q) (i : nat) :
  (i < length v)%nat ->
  nth i (nd.rank_of v) 0%nat
  = length (filter (fun j => sorts_before v j i) (seq 0 (length v))).
Proof.
  intro Hi.
  pose proof (rank_of_position v i Hi) as P.
  pose proof (rank_of_lt v i Hi) as L.
  rewrite <- (Permutation_filter_length _ _ _ (argsort_perm v)).
  set (p := nth i (nd.rank_of v) 0%nat) in *.
  rewrite <- P. symmetry. apply sorted_count_before.
  - apply isort_seq_lex.
  - now rewrite argsort_length.
Qed.

End ArgsortFacts.

(** ** Facts about the tensor operators *)

Section TensorFacts.

Lemma length_map2 {A B C : Type} (f : A -> B -> C) (l1 : list A) (l2 : list B) :
  length (nd.map2 f l1 l2) = Nat.min (length l1) (length l2).
Proof.
  revert l2. induction l1 as [|a l1 IH]; intros [|b l2]; simpl; auto.
Qed.

Lemma nth_map2 {A B C : Type} (f : A -> B -> C) (l1 : list A) (l2 : list B)
      (i : nat) (da : A) (db : B) (dc : C) :
  (i < length l1)%nat -> (i < length l2)%nat ->
  nth i (nd.map2 f l1 l2) dc = f (nth i l1 da) (nth i l2 db).
Proof.
  revert l2 i. induction l1 as [|a l1 IH]; intros [|b l2] [|i] H1 H2;
    simpl in *; try lia; auto.
  apply IH; lia.
Qed.

Lemma nth_map_lt {A B : Type} (f : A -> B) (l : list A) (i : nat) (da : A) (db : B) :
  (i < length l)%nat -> nth i (map f l) db = f (nth i l da).
Proof.
  intro H. rewrite (nth_indep _ db (f da)) by now rewrite length_map.
  apply map_nth.
Qed.

Lemma sum_b2q (f : Z -> bool) (l : list Z) :
  nd.sum (map (fun c => b2q (f c)) l) == n2q (length (filter f l)).
Proof.
  induction l as [|c l IH]; simpl; [reflexivity|].
  rewrite IH. destruct (f c); simpl; unfold b2q, n2q.
  - rewrite Nat2Z.inj_succ, <- Z.add_1_l, inject_Z_plus. reflexivity.
  - lra.
Qed.

Lemma sum_app (l1 l2 : list Q) : nd.sum (l1 ++ l2) == nd.sum l1 + nd.sum l2.
Proof.
  induction l1 as [|x l1 IH]; simpl; [lra|]. rewrite IH. lra.
Qed.

Lemma sum2_concat (m : list (list Q)) : nd.sum2 m == nd.sum (concat m).
Proof.
  unfold nd.sum2. induction m as [|r m IH]; simpl; [reflexivity|].
  rewrite sum_app, IH. reflexivity.
Qed.

Lemma n2q_plus (a b : nat) : n2q (a + b) == n2q a + n2q b.
Proof.
  unfold n2q. rewrite Nat2Z.inj_add, inject_Z_plus. reflexivity.
Qed.

Lemma maximum_comp (a b b' : Q) : b == b' -> nd.maximum a b == nd.maximum a b'.
Proof.
  intro E. unfold nd.maximum.
  destruct (Qle_bool a b) eqn:E1; destruct (Qle_bool a b') eqn:E2;
    try (apply Qle_bool_iff in E1); try (apply Qle_bool_iff in E2);
    try (apply Qle_bool_gt in E1); try (apply Qle_bool_gt in E2); lra.
Qed.

Lemma Qltb_comp (a b b' : Q) : b == b' -> Qltb a b = Qltb a b'.
Proof.
  intro E. destruct (Qltb a b') eqn:E2.
  - apply Qltb_lt. apply Qltb_lt in E2. lra.
  - apply Qltb_ge. apply Qltb_ge in E2. lra.
Qed.

End TensorFacts.

(** ** Facts about Python's [sum] *)

Lemma fold_left_Qplus (l : list Q) (a : Q) : fold_left Qplus l a == a + nd.sum l.
Proof.
  revert a. induction l as [|x l IH]; intro a; simpl.
  - lra.
  - rewrite IH. lra.
Qed.

Lemma py_sum_sum (l : list Q) : py_sum l == nd.sum l.
Proof.
  unfold py_sum. rewrite fold_left_Qplus. lra.
Qed.

(** ** Hard-negative mining *)

Section MiningFacts.

Import SSDMultiBoxLoss.

Variable log_softmax : list Q -> list Q.

Local Abbreviation cross_entropy := (cross_entropy log_softmax).
Local Abbreviation mined_cls_loss := (mined_cls_loss log_softmax).

(** The tensors of the mining step, row by row. *)

Definition row_pos (cts : list Z) : list Q := map (fun c => b2q (0 <? c)%Z) cts.

Definition row_loss (scores : list (list Q)) (cts : list Z) : list Q :=
  nd.map2 (fun p c => - nd.pick p c) (map log_softmax scores) cts.

Definition row_key (loss pos : list Q) : list Q :=
  nd.map2 (fun l p => l * (p - 1)) loss pos.

Definition row_threshold (L : t) (pos : list Q) : Q :=
  nd.maximum (inject_Z (_min_hard_negatives L))
    (nd.sum pos * _negative_mining_ratio L).

Lemma pos_of_row (ct : list (list Z)) (b : nat) :
  (b < length ct)%nat -> nth b (pos_of ct) [] = row_pos (nth b ct []).
Proof. intro H. unfold pos_of. now rewrite (nth_map_lt _ _ _ []). Qed.

Lemma cross_entropy_row (cp : cube) (ct : list (list Z)) (b : nat) :
  (b < length cp)%nat -> (b < length ct)%nat ->
  nth b (cross_entropy cp ct) [] = row_loss (nth b cp []) (nth b ct []).
Proof.
  intros H1 H2. unfold SSDMultiBoxLoss.cross_entropy.
  rewrite (nth_map2 _ _ _ _ [] []) by (rewrite ?length_map; assumption).
  now rewrite (nth_map_lt _ _ _ []).
Qed.

Lemma length_row_loss (scores : list (list Q)) (cts : list Z) :
  length scores = length cts -> length (row_loss scores cts) = length cts.
Proof. intro H. unfold row_loss. rewrite length_map2, length_map. lia. Qed.

Lemma length_row_pos (cts : list Z) : length (row_pos cts) = length cts.
Proof. apply length_map. Qed.

Lemma length_row_key (loss pos : list Q) :
  length loss = length pos -> length (row_key loss pos) = length pos.
Proof. intro H. unfold row_key. rewrite length_map2. lia. Qed.

Lemma mining_key_row (cp : cube) (ct : list (list Z)) (b : nat) :
  (b < length cp)%nat -> (b < length ct)%nat ->
  nth b (mining_key (cross_entropy cp ct) (pos_of ct)) [] =
  row_key (row_loss (nth b cp []) (nth b ct [])) (row_pos (nth b ct [])).
Proof.
  intros H1 H2. unfold mining_key.
  rewrite (nth_map2 _ _ _ _ [] []).
  - now rewrite cross_entropy_row, pos_of_row.
  - unfold SSDMultiBoxLoss.cross_entropy. rewrite length_map2, length_map. lia.
  - unfold pos_of. now rewrite length_map.
Qed.

Lemma length_mining_key (cp : cube) (ct : list (list Z)) :
  length (mining_key (cross_entropy cp ct) (pos_of ct)) =
  Nat.min (length cp) (length ct).
Proof.
  unfold mining_key, SSDMultiBoxLoss.cross_entropy, pos_of.
  rewrite !length_map2, !length_map. lia.
Qed.

Lemma mining_rank_row (cp : cube) (ct : list (list Z)) (b : nat) :
  (b < length cp)%nat -> (b < length ct)%nat ->
  nth b (mining_rank (cross_entropy cp ct) (pos_of ct)) [] =
  nd.rank_of (row_key (row_loss (nth b cp []) (nth b ct [])) (row_pos (nth b ct []))).
Proof.
  intros H1 H2. unfold mining_rank.
  rewrite (nth_map_lt _ _ _ []) by (rewrite length_mining_key; lia).
  now rewrite mining_key_row.
Qed.

Lemma mining_threshold_row (L : t) (ct : list (list Z)) (b : nat) :
  (b < length ct)%nat ->
  nth b (mining_threshold L (pos_of ct)) 0 = row_threshold L (row_pos (nth b ct [])).
Proof.
  intro H. unfold mining_threshold.
  rewrite (nth_map_lt _ _ _ []) by (unfold pos_of; now rewrite length_map).
  now rewrite pos_of_row.
Qed.

Lemma hard_negative_row (L : t) (cp : cube) (ct : list (list Z)) (b : nat) :
  (b < length cp)%nat -> (b < length ct)%nat ->
  nth b (hard_negative_of L (cross_entropy cp ct) (pos_of ct)) [] =
  map (fun r => b2q (Qltb (n2q r) (row_threshold L (row_pos (nth b ct [])))))
      (nd.rank_of (row_key (row_loss (nth b cp []) (nth b ct []))
                     (row_pos (nth b ct [])))).
Proof.
  intros H1 H2. unfold hard_negative_of.
  rewrite (nth_map2 _ _ _ _ [] 0).
  - now rewrite mining_rank_row, mining_threshold_row.
  - unfold mining_rank. rewrite length_map, length_mining_key. lia.
  - unfold mining_threshold, pos_of. now rewrite !length_map.
Qed.

Lemma mined_cls_loss_row (L : t) (cp : cube) (ct : list (list Z)) (b : nat) :
  (b < length cp)%nat -> (b < length ct)%nat ->
  nth b (mined_cls_loss L cp ct) [] =
  let pos := row_pos (nth b ct []) in
  let loss := row_loss (nth b cp []) (nth b ct []) in
  let hn := map (fun r => b2q (Qltb (n2q r) (row_threshold L pos)))
                (nd.rank_of (row_key loss pos)) in
  nd.map2 (fun k l => nd.where_ k l 0)
    (nd.map2 (fun p h => b2q (Qgtb (p + h) 0)) pos hn) loss.
Proof.
  intros H1 H2. unfold SSDMultiBoxLoss.mined_cls_loss.
  assert (Lce : length (cross_entropy cp ct) = Nat.min (length cp) (length ct)).
  { unfold SSDMultiBoxLoss.cross_entropy. now rewrite length_map2, length_map. }
  assert (Lhn : length (hard_negative_of L (cross_entropy cp ct) (pos_of ct)) =
                Nat.min (length cp) (length ct)).
  { unfold hard_negative_of, mining_rank, mining_threshold, pos_of.
    rewrite length_map2, !length_map, length_mining_key. lia. }
  assert (Lk : length (keep_mask L (cross_entropy cp ct) (pos_of ct)) =
               Nat.min (length cp) (length ct)).
  { unfold keep_mask. rewrite length_map2, Lhn. unfold pos_of.
    rewrite length_map. lia. }
  rewrite (nth_map2 _ _ _ _ [] []) by lia.
  rewrite cross_entropy_row by assumption.
  unfold keep_mask. rewrite (nth_map2 _ _ _ _ [] []).
  - now rewrite pos_of_row, hard_negative_row.
  - unfold pos_of. now rewrite length_map.
  - lia.
Qed.

Lemma row_pos_sum (cts : list Z) :
  nd.sum (row_pos cts) == n2q (length (filter (fun c => (0 <? c)%Z) cts)).
Proof. apply sum_b2q. Qed.

(** The entry of the mined loss at anchor [i] of a row. *)
Lemma mined_entry (L : t) (scores : list (list Q)) (cts : list Z) (i : nat) :
  length scores = length cts -> (i < length cts)%nat ->
  let pos := row_pos cts in
  let loss := row_loss scores cts in
  let rank := nd.rank_of (row_key loss pos) in
  let hn := map (fun r => b2q (Qltb (n2q r) (row_threshold L pos))) rank in
  nth i (nd.map2 (fun k l => nd.where_ k l 0)
           (nd.map2 (fun p h => b2q (Qgtb (p + h) 0)) pos hn) loss) 0 =
  if (0 <? nth i cts 0%Z)%Z then nth i loss 0
  else if Qltb (n2q (nth i rank 0%nat)) (row_threshold L pos) then nth i loss 0
       else 0.
Proof.
  intros Hs Hi pos loss rank hn.
  assert (Ll : length loss = length cts) by now apply length_row_loss.
  assert (Lp : length pos = length cts) by apply length_row_pos.
  assert (Lr : length rank = length cts).
  { unfold rank. rewrite rank_of_length, length_row_key; lia. }
  assert (Lh : length hn = length cts) by (unfold hn; now rewrite length_map).
  rewrite (nth_map2 _ _ _ _ 0 0) by (rewrite ?length_map2; lia).
  rewrite (nth_map2 _ _ _ _ 0 0) by lia.
  unfold hn. rewrite (nth_map_lt _ _ _ 0%nat) by lia.
  unfold pos, row_pos. rewrite (nth_map_lt _ _ _ 0%Z) by lia.
  fold (row_pos cts). fold pos.
  destruct (0 <? nth i cts 0%Z)%Z; simpl.
  - destruct (Qltb _ _); reflexivity.
  - destruct (Qltb _ _); reflexivity.
Qed.

(** The key of an anchor that is not positive is its loss, negated. *)
Lemma row_key_negative (scores : list (list Q)) (cts : list Z) (i : nat) :
  length scores = length cts -> (i < length cts)%nat ->
  (nth i cts 0 <= 0)%Z ->
  nth i (row_key (row_loss scores cts) (row_pos cts)) 0 ==
  - nth i (row_loss scores cts) 0.
Proof.
  intros Hs Hi Hc. unfold row_key.
  rewrite (nth_map2 _ _ _ _ 0 0)
    by (rewrite ?length_row_loss, ?length_row_pos; assumption || lia).
  unfold row_pos at 1. rewrite (nth_map_lt _ _ _ 0%Z) by lia.
  replace (0 <? nth i cts 0%Z)%Z with false by (symmetry; apply Z.ltb_ge; lia).
  simpl. lra.
Qed.

(** The key of a positive anchor is 0: the mask [pos - 1] takes its loss
    out of the ranking. *)
Lemma row_key_positive (scores : list (list Q)) (cts : list Z) (i : nat) :
  length scores = length cts -> (i < length cts)%nat ->
  (0 < nth i cts 0)%Z ->
  nth i (row_key (row_loss scores cts) (row_pos cts)) 0 == 0.
Proof.
  intros Hs Hi Hc. unfold row_key.
  rewrite (nth_map2 _ _ _ _ 0 0)
    by (rewrite ?length_row_loss, ?length_row_pos; assumption || lia).
  unfold row_pos at 1. rewrite (nth_map_lt _ _ _ 0%Z) by lia.
  replace (0 <? nth i cts 0%Z)%Z with true by (symmetry; apply Z.ltb_lt; lia).
  simpl. lra.
Qed.

End MiningFacts.

Section MiningTheorem.

Import SSDMultiBoxLoss.

Variable log_softmax : list Q -> list Q.

Local Abbreviation cross_entropy := (cross_entropy log_softmax).
Local Abbreviation mined_cls_loss := (mined_cls_loss log_softmax).

(** C1.  Hard-negative mining in [SSDMultiBoxLoss.forward] (and, by the same
    code, in [YOLACTMultiBoxLoss.forward]).  For anchor [i] of row [b] of a
    device's batch, with class target [c], cross-entropy loss [loss], rank
    [rank] and [limit = maximum(min_hard_negatives, positives of the row *
    negative_mining_ratio)]:
    - a positive anchor ([c > 0]) keeps its loss;
    - an anchor that is not positive keeps its loss when [rank < limit] and
      contributes zero otherwise;
    - [rank] is the double argsort of the key [cls_loss * (pos - 1)], the
      negated loss with the positive anchors masked: the key of a positive
      anchor is 0, the key of an anchor that is not positive is its negated
      loss;
    - the rank of an anchor is its position in the ascending order of the
      key, that is the number of anchors of the row with a smaller key, or
      with an equal key and a smaller index; so among the anchors that are
      not positive a larger loss has a smaller rank, and an anchor that is
      not positive and has a loss above 0 ranks before every positive
      anchor. *)
Theorem hard_negative_mining (L : t) (cp : cube) (ct : list (list Z)) (b i : nat) :
  (b < length cp)%nat -> (b < length ct)%nat ->
  length (nth b cp []) = length (nth b ct []) ->
  (i < length (nth b ct []))%nat ->
  let c := nth i (nth b ct []) 0%Z in
  let loss := nth b (cross_entropy cp ct) [] in
  let key := nth b (mining_key (cross_entropy cp ct) (pos_of ct)) [] in
  let rank := nth b (mining_rank (cross_entropy cp ct) (pos_of ct)) [] in
  let n_pos := length (filter (fun c => (0 <? c)%Z) (nth b ct [])) in
  let limit :=
    nd.maximum (inject_Z (_min_hard_negatives L))
      (n2q n_pos * _negative_mining_ratio L) in
  let out := nth i (nth b (mined_cls_loss L cp ct) []) 0 in
  ((0 < c)%Z -> out = nth i loss 0) /\
  ((c <= 0)%Z -> n2q (nth i rank 0%nat) < limit -> out = nth i loss 0) /\
  ((c <= 0)%Z -> ~ n2q (nth i rank 0%nat) < limit -> out = 0) /\
  rank = nd.argsort (map n2q (nd.argsort key)) /\
  nth (nth i rank 0%nat) (nd.argsort key) 0%nat = i /\
  ((c <= 0)%Z -> nth i key 0 == - nth i loss 0) /\
  (forall j, (j < length (nth b ct []))%nat ->
             (c <= 0)%Z -> (nth j (nth b ct []) 0 <= 0)%Z ->
             nth j loss 0 < nth i loss 0 ->
             (nth i rank 0 < nth j rank 0)%nat) /\
  ((0 < c)%Z -> nth i key 0 == 0) /\
  nth i rank 0%nat
  = length (filter (fun j => Qltb (nth j key 0) (nth i key 0)
                             || (Qeq_bool (nth j key 0) (nth i key 0)
                                 && Nat.ltb j i))
              (seq 0 (length (nth b ct [])))) /\
  (forall j, (j < length (nth b ct []))%nat ->
             (c <= 0)%Z -> 0 < nth i loss 0 -> (0 < nth j (nth b ct []) 0)%Z ->
             (nth i rank 0 < nth j rank 0)%nat).
Proof.
  intros Hb1 Hb2 Hs Hi c loss key rank n_pos limit out.
  subst out. rewrite mined_cls_loss_row by assumption. cbv zeta.
  rewrite (mined_entry _ L _ _ i Hs Hi). cbv zeta.
  subst loss key rank.
  rewrite cross_entropy_row, mining_key_row, mining_rank_row by assumption.
  set (cts := nth b ct []) in *. set (scores := nth b cp []) in *.
  fold c.
  assert (Lk : length (row_key (row_loss log_softmax scores cts) (row_pos cts))
               = length cts).
  { rewrite length_row_key; rewrite ?length_row_loss, ?length_row_pos; auto. }
  assert (Elim : row_threshold L (row_pos cts) == limit).
  { unfold row_threshold, limit, n_pos. apply maximum_comp.
    now rewrite row_pos_sum. }
  split; [|split; [|split; [|split; [|split; [|split; [|split; [|split; [|split]]]]]]]].
  - intro Hc. apply Z.ltb_lt in Hc. now rewrite Hc.
  - intros Hc Hr. replace (0 <? c)%Z with false by (symmetry; apply Z.ltb_ge; lia).
    rewrite (Qltb_comp _ _ _ Elim).
    apply Qltb_lt in Hr. now rewrite Hr.
  - intros Hc Hr. replace (0 <? c)%Z with false by (symmetry; apply Z.ltb_ge; lia).
    rewrite (Qltb_comp _ _ _ Elim).
    destruct (Qltb _ limit) eqn:E; [|reflexivity].
    apply Qltb_lt in E. contradiction.
  - reflexivity.
  - apply rank_of_position. now rewrite Lk.
  - intro Hc. now apply row_key_negative.
  - intros j Hj Hc Hcj Hlt.
    apply rank_of_monotone; rewrite ?Lk; try assumption.
    rewrite !row_key_negative by assumption. lra.
  - intro Hc. now apply row_key_positive.
  - rewrite rank_of_count by (now rewrite Lk). now rewrite Lk.
  - intros j Hj Hc Hl Hcj.
    apply rank_of_monotone; rewrite ?Lk; try assumption.
    rewrite row_key_negative, row_key_positive by assumption. lra.
Qed.

End MiningTheorem.

(** A row of five anchors, the first positive, with ratio 3: the three
    negatives of largest loss are kept, the last one is dropped. *)
Definition mining_L : SSDMultiBoxLoss.t := SSDMultiBoxLoss.__init__ 3 1 1 0.
Definition mining_cp : cube := [[[0; -1]; [-2; 0]; [-5; 0]; [-1; 0]; [-3; 0]]].
Definition mining_ct : list (list Z) := [[1; 0; 0; 0; 0]%Z].

Example mining_example :
  SSDMultiBoxLoss.mined_cls_loss (fun x => x) mining_L mining_cp mining_ct
  = [[1; 2; 5; 0; 3]]
  /\ SSDMultiBoxLoss.mining_rank
       (SSDMultiBoxLoss.cross_entropy (fun x => x) mining_cp mining_ct)
       (SSDMultiBoxLoss.pos_of mining_ct) = [[4; 2; 0; 3; 1]%nat].
Proof. split; vm_compute; reflexivity. Qed.

(** The positive anchor of the row keeps its loss, 1, and its key is 0;
    the negative anchor of loss 3 has rank 1: only the negative of loss 5
    sorts before it. *)
Lemma hard_negative_mining_witness :
  nth 0 (nth 0 (SSDMultiBoxLoss.mined_cls_loss (fun x => x)
                  mining_L mining_cp mining_ct) []) 0
  = nth 0 (nth 0 (SSDMultiBoxLoss.cross_entropy (fun x => x)
                    mining_cp mining_ct) []) 0
  /\ nth 0 (nth 0 (SSDMultiBoxLoss.mining_key
                     (SSDMultiBoxLoss.cross_entropy (fun x => x)
                        mining_cp mining_ct)
                     (SSDMultiBoxLoss.pos_of mining_ct)) []) 0 == 0
  /\ nth 4 (nth 0 (SSDMultiBoxLoss.mining_rank
                     (SSDMultiBoxLoss.cross_entropy (fun x => x)
                        mining_cp mining_ct)
                     (SSDMultiBoxLoss.pos_of mining_ct)) []) 0%nat = 1%nat.
Proof.
  destruct (hard_negative_mining (fun x => x) mining_L mining_cp mining_ct 0 0)
    as (Hout & _ & _ & _ & _ & _ & _ & Hkey & _); try (simpl; lia).
  destruct (hard_negative_mining (fun x => x) mining_L mining_cp mining_ct 0 4)
    as (_ & _ & _ & _ & _ & _ & _ & _ & Hrank & _); try (simpl; lia).
  split; [apply Hout; simpl; lia|].
  split; [apply Hkey; simpl; lia|].
  rewrite Hrank. reflexivity.
Defined.

(** ** Mask cropping *)

Section CropFacts.

Lemma nth_tile {A : Type} (v : list A) (b k : nat) (d : list A) :
  (k < b)%nat -> nth k (nd.tile v b) d = v.
Proof.
  unfold nd.tile. revert k. induction b as [|b IH]; intros [|k] H; simpl;
    try lia; auto. apply IH. lia.
Qed.

Lemma length_tile {A : Type} (v : list A) (b : nat) : length (nd.tile v b) = b.
Proof. apply repeat_length. Qed.

Lemma nth_arange (n i : nat) : (i < n)%nat -> nth i (nd.arange n) 0 = n2q i.
Proof.
  intro H. unfold nd.arange.
  rewrite (nth_map_lt _ _ _ 0%nat) by now rewrite length_seq.
  now rewrite seq_nth.
Qed.

Lemma length_arange (n : nat) : length (nd.arange n) = n.
Proof. unfold nd.arange. now rewrite length_map, length_seq. Qed.

(** One side of the window: [(_w >= lo) * (_w <= hi)] at position [i]. *)
Definition window (n : nat) (lo hi : Q) : list Q :=
  nd.map2 Qmult (map (fun v => b2q (Qgeb v lo)) (nd.arange n))
                (map (fun v => b2q (Qle_bool v hi)) (nd.arange n)).

Lemma length_window (n : nat) (lo hi : Q) : length (window n lo hi) = n.
Proof.
  unfold window. rewrite length_map2, !length_map, length_arange. lia.
Qed.

Lemma nth_window (n i : nat) (lo hi : Q) :
  (i < n)%nat ->
  nth i (window n lo hi) 0 =
  b2q (Qgeb (n2q i) lo) * b2q (Qle_bool (n2q i) hi).
Proof.
  intro H. unfold window.
  rewrite (nth_map2 _ _ _ _ 0 0) by (rewrite length_map, length_arange; lia).
  rewrite !(nth_map_lt _ _ _ 0) by (rewrite length_arange; lia).
  now rewrite nth_arange.
Qed.

Lemma window_inside (n i : nat) (lo hi : Q) :
  (i < n)%nat -> lo <= n2q i <= hi -> nth i (window n lo hi) 0 == 1.
Proof.
  intros H [H1 H2]. rewrite nth_window by assumption. unfold Qgeb.
  apply Qle_bool_iff in H1, H2. rewrite H1, H2. reflexivity.
Qed.

Lemma window_outside (n i : nat) (lo hi : Q) :
  (i < n)%nat -> ~ (lo <= n2q i <= hi) -> nth i (window n lo hi) 0 == 0.
Proof.
  intros H N. rewrite nth_window by assumption. unfold Qgeb.
  destruct (Qle_bool lo (n2q i)) eqn:E1; destruct (Qle_bool (n2q i) hi) eqn:E2;
    simpl; try reflexivity.
  apply Qle_bool_iff in E1, E2. tauto.
Qed.

(** The rows of the two windows of box [k]. *)
Lemma crop_row (bboxes : mat) (h w : nat) (masks : cube) (k : nat) :
  (k < length bboxes)%nat -> (k < length masks)%nat ->
  nth k (MaskOps.crop bboxes h w masks) [] =
  let bb := nth k bboxes [] in
  let wh := window h (nd.round (nth 1 bb 0 / 4)) (nd.round (nth 3 bb 0 / 4)) in
  let ww := window w (nd.round (nth 0 bb 0 / 4)) (nd.round (nth 2 bb 0 / 4)) in
  nd.map2 (nd.map2 Qmult)
    (map (fun hv => map (fun wv => hv * wv) ww) wh) (nth k masks []).
Proof.
  intros Hk Hm. unfold MaskOps.crop. cbv zeta.
  set (b := length bboxes).
  assert (W : forall n (f g : list Q -> Q),
             nth k (nd.map2 (nd.map2 Qmult)
                      (nd.map2 (fun row x => map (fun v => b2q (Qgeb v x)) row)
                         (nd.tile (nd.arange n) b) (map f bboxes))
                      (nd.map2 (fun row x => map (fun v => b2q (Qle_bool v x)) row)
                         (nd.tile (nd.arange n) b) (map g bboxes))) []
             = window n (f (nth k bboxes [])) (g (nth k bboxes []))).
  { intros n f g.
    rewrite (nth_map2 _ _ _ _ [] [])
      by (rewrite length_map2, length_tile, length_map; fold b; lia).
    rewrite !(nth_map2 _ _ _ _ [] 0)
      by (rewrite ?length_tile, ?length_map; fold b; lia).
    rewrite nth_tile by (unfold b; lia).
    rewrite !(nth_map_lt _ _ _ []) by lia.
    reflexivity. }
  assert (Lw : forall n (f g : list Q -> Q),
             length (nd.map2 (nd.map2 Qmult)
                      (nd.map2 (fun row x => map (fun v => b2q (Qgeb v x)) row)
                         (nd.tile (nd.arange n) b) (map f bboxes))
                      (nd.map2 (fun row x => map (fun v => b2q (Qle_bool v x)) row)
                         (nd.tile (nd.arange n) b) (map g bboxes))) = b).
  { intros n f g. rewrite !length_map2, length_tile, !length_map. fold b. lia. }
  rewrite (nth_map2 _ _ _ _ [] []); [|rewrite length_map2, !Lw; lia|lia].
  rewrite (nth_map2 _ _ _ _ [] []) by (rewrite Lw; unfold b; lia).
  rewrite !W. reflexivity.
Qed.

Lemma length_crop (bboxes : mat) (h w : nat) (masks : cube) :
  length masks = length bboxes ->
  length (MaskOps.crop bboxes h w masks) = length masks.
Proof.
  intro H. unfold MaskOps.crop. cbv zeta.
  rewrite !length_map2, !length_tile, !length_map. lia.
Qed.

End CropFacts.

(** C4.  Mask cropping ([MaskLoss.crop], [YOLACTMultiBoxLoss.crop]).  For
    boxes of shape (b, 4) and masks of shape (b, h, w) the result has the
    shape of the masks; its entry (k, i, j) is the entry of the masks when
    [round(bboxes[k,1]/4) <= i <= round(bboxes[k,3]/4)] and
    [round(bboxes[k,0]/4) <= j <= round(bboxes[k,2]/4)], and zero
    otherwise. *)
Theorem crop_keeps_box_zeroes_rest (bboxes : mat) (h w : nat) (masks : cube)
    (k i j : nat) :
  length masks = length bboxes ->
  Forall (fun bb => length bb = 4%nat) bboxes ->
  Forall (fun m => length m = h /\ Forall (fun r => length r = w) m) masks ->
  (k < length bboxes)%nat -> (i < h)%nat -> (j < w)%nat ->
  let bb := nth k bboxes [] in
  let x1 := nd.round (nth 0 bb 0 / 4) in
  let y1 := nd.round (nth 1 bb 0 / 4) in
  let x2 := nd.round (nth 2 bb 0 / 4) in
  let y2 := nd.round (nth 3 bb 0 / 4) in
  let inside := y1 <= n2q i <= y2 /\ x1 <= n2q j <= x2 in
  let cropped := MaskOps.crop bboxes h w masks in
  let out := nth j (nth i (nth k cropped []) []) 0 in
  (inside -> out == nth j (nth i (nth k masks []) []) 0) /\
  (~ inside -> out == 0) /\
  length cropped = length masks /\
  length (nth k cropped []) = h /\
  length (nth i (nth k cropped []) []) = w.
Proof.
  intros Hl Hb Hm Hk Hi Hj bb x1 y1 x2 y2 inside cropped out.
  assert (Hk' : (k < length masks)%nat) by lia.
  rewrite Forall_forall in Hm.
  destruct (Hm (nth k masks []) (nth_In _ _ Hk')) as [Hh Hw].
  rewrite Forall_forall in Hw.
  assert (Hi' : (i < length (nth k masks []))%nat) by lia.
  specialize (Hw (nth i (nth k masks []) []) (nth_In _ _ Hi')).
  subst out cropped. rewrite crop_row by assumption. cbv zeta.
  fold bb. fold x1 y1 x2 y2.
  assert (Lrows : length (map (fun hv => map (fun wv => hv * wv) (window w x1 x2))
                            (window h y1 y2)) = h)
    by now rewrite length_map, length_window.
  assert (Erow : nth i (nd.map2 (nd.map2 Qmult)
                          (map (fun hv => map (fun wv => hv * wv) (window w x1 x2))
                             (window h y1 y2)) (nth k masks [])) []
                 = nd.map2 Qmult
                     (map (fun wv => nth i (window h y1 y2) 0 * wv) (window w x1 x2))
                     (nth i (nth k masks []) [])).
  { rewrite (nth_map2 _ _ _ _ [] []) by lia.
    now rewrite (nth_map_lt _ _ _ 0) by (rewrite length_window; lia). }
  rewrite Erow.
  assert (Eout : nth j (nd.map2 Qmult
                          (map (fun wv => nth i (window h y1 y2) 0 * wv)
                             (window w x1 x2))
                          (nth i (nth k masks []) [])) 0
                 = nth i (window h y1 y2) 0 * nth j (window w x1 x2) 0
                   * nth j (nth i (nth k masks []) []) 0).
  { rewrite (nth_map2 _ _ _ _ 0 0)
      by (rewrite ?length_map, ?length_window; lia).
    now rewrite (nth_map_lt _ _ _ 0) by (rewrite length_window; lia). }
  rewrite Eout.
  split; [|split; [|split; [|split]]].
  - intros [Iy Ix].
    rewrite (window_inside h i) by assumption.
    rewrite (window_inside w j) by assumption. lra.
  - intro N.
    destruct (Qle_bool y1 (n2q i) && Qle_bool (n2q i) y2) eqn:Ey.
    + apply andb_true_iff in Ey. destruct Ey as [E1 E2].
      apply Qle_bool_iff in E1, E2.
      rewrite (window_outside w j); [lra|assumption|].
      intro Ix. apply N. split; [split|]; assumption.
    + rewrite (window_outside h i); [lra|assumption|].
      intros [E1 E2]. apply Qle_bool_iff in E1, E2.
      rewrite E1, E2 in Ey. discriminate.
  - now apply length_crop.
  - rewrite length_map2, Lrows. lia.
  - rewrite length_map2, length_map, length_window. lia.
Qed.

Definition crop_boxes : mat := [[8; 4; 16; 12]].
Definition crop_masks : cube := [[[1; 1; 1; 1; 1];
                                   [1; 1; 1; 1; 1];
                                   [1; 1; 1; 1; 1];
                                   [1; 1; 1; 1; 1]]].

Example crop_example :
  Forall2 (Forall2 (Forall2 Qeq))
    (MaskOps.crop crop_boxes 4 5 crop_masks)
    [[[0; 0; 0; 0; 0];
      [0; 0; 1; 1; 1];
      [0; 0; 1; 1; 1];
      [0; 0; 1; 1; 1]]].
Proof. repeat constructor. Qed.

Lemma crop_keeps_box_zeroes_rest_witness :
  nth 0 (nth 0 (nth 0 (MaskOps.crop crop_boxes 4 5 crop_masks) []) []) 0 == 0.
Proof.
  refine (proj1 (proj2 (crop_keeps_box_zeroes_rest crop_boxes 4 5 crop_masks
                          0 0 0 _ _ _ _ _ _)) _);
    try (simpl; lia); try (repeat constructor).
  intros [[H _] _]. apply (Qle_not_lt _ _ H). reflexivity.
Defined.

(** ** Mask-coefficient projection *)

Section MaskLossFacts.

Import MaskOps.

(** In a list sorted for [R], the entries that satisfy a predicate closed
    under [R]-predecessors form a prefix. *)
Lemma sorted_filter_prefix {A : Type} (R : A -> A -> Prop) (P : A -> bool)
      (l : list A) :
  StronglySorted R l ->
  (forall a b, In a l -> In b l -> R a b -> P b = true -> P a = true) ->
  firstn (length (filter P l)) l = filter P l.
Proof.
  induction 1 as [|a l S IH F]; intro C; simpl; [reflexivity|].
  destruct (P a) eqn:Pa; simpl.
  - f_equal. apply IH. intros x y Hx Hy. apply C; now right.
  - rewrite filter_none; [reflexivity|].
    intros b Hb. destruct (P b) eqn:Pb; [|reflexivity].
    rewrite Forall_forall in F.
    rewrite (C a b) in Pa; [discriminate|now left|now right|now apply F|exact Pb].
Qed.

Lemma filter_indices {A : Type} (f : A -> bool) (l : list A) (d : A) :
  length (filter f l) =
  length (filter (fun j => f (nth j l d)) (seq 0 (length l))).
Proof.
  rewrite <- (map_nth_seq l d) at 1.
  generalize (seq 0 (length l)). intro s.
  induction s as [|j s IH]; simpl; [reflexivity|].
  destruct (f (nth j l d)); simpl; now rewrite IH.
Qed.

(** [idx] lists the anchors of the row that are matched. *)
Lemma idx_of_filter (matches : list Z) :
  idx_of matches =
  filter (fun j => (0 <=? nth j matches 0%Z)%Z) (rank_row matches).
Proof.
  unfold idx_of, pos_num_of, rank_row.
  set (keys := map (fun m => - inject_Z m) matches).
  set (P := fun j => (0 <=? nth j matches 0%Z)%Z).
  assert (Lk : length keys = length matches) by apply length_map.
  assert (E : length (filter (fun m => (0 <=? m)%Z) matches)
              = length (filter P (nd.argsort keys))).
  { rewrite (filter_indices _ _ 0%Z).
    rewrite (Permutation_filter_length P _ _ (argsort_perm keys)).
    now rewrite Lk. }
  rewrite E.
  apply (sorted_filter_prefix (key_le (fun i => nth i keys 0))).
  - apply isort_sorted.
  - intros a b Ha Hb Rab Pb. unfold P in *.
    apply argsort_In in Ha, Hb. rewrite Lk in Ha, Hb.
    unfold key_le, keys in Rab.
    rewrite !(nth_map_lt _ _ _ 0%Z) in Rab by assumption.
    apply Z.leb_le in Pb. apply Z.leb_le.
    apply Qopp_le_compat in Rab. rewrite !Qopp_involutive in Rab.
    rewrite <- Zle_Qle in Rab. lia.
Qed.

Lemma idx_of_In (matches : list Z) (j : nat) :
  In j (idx_of matches) <->
  (j < length matches)%nat /\ (0 <= nth j matches 0)%Z.
Proof.
  rewrite idx_of_filter, filter_In. unfold rank_row.
  rewrite argsort_In, length_map, Z.leb_le. tauto.
Qed.

Lemma idx_of_NoDup (matches : list Z) : NoDup (idx_of matches).
Proof.
  rewrite idx_of_filter. apply NoDup_filter, argsort_NoDup.
Qed.

Lemma idx_of_length (matches : list Z) :
  length (idx_of matches) = pos_num_of matches.
Proof.
  unfold idx_of. rewrite length_firstn. unfold rank_row.
  rewrite argsort_length, length_map. unfold pos_num_of.
  pose proof (filter_length_le (fun m => (0 <=? m)%Z) matches). lia.
Qed.

Lemma pos_num_positive (matches : list Z) (j : nat) :
  (j < length matches)%nat -> (0 <= nth j matches 0)%Z ->
  Nat.eqb (pos_num_of matches) 0 = false.
Proof.
  intros Hj Hm. apply Nat.eqb_neq. rewrite <- idx_of_length.
  assert (I : In j (idx_of matches)) by now apply idx_of_In.
  destruct (idx_of matches); [destruct I|simpl; lia].
Qed.

Lemma nth_concat_singletons {A : Type} (f : nat -> A) (n i : nat) (d : A) :
  (i < n)%nat -> nth i (concat (map (fun k => [f k]) (seq 0 n))) d = f i.
Proof.
  intro H.
  replace (concat (map (fun k => [f k]) (seq 0 n))) with (map f (seq 0 n)).
  - rewrite (nth_map_lt _ _ _ 0%nat) by now rewrite length_seq.
    now rewrite seq_nth.
  - generalize (seq 0 n). intro s. induction s as [|k s IH]; simpl; congruence.
Qed.

(** *** The projection is a matrix product *)

(** A matrix of [h] rows of [w] entries. *)
Definition is_matrix (h w : nat) (m : mat) : Prop :=
  length m = h /\ Forall (fun r => length r = w) m.

Lemma is_matrix_row (h w : nat) (m : mat) (y : nat) :
  is_matrix h w m -> (y < h)%nat -> length (nth y m []) = w.
Proof.
  intros [Hh Hw] Hy. rewrite Forall_forall in Hw. apply Hw, nth_In. lia.
Qed.

Lemma scale_mat_matrix (h w : nat) (s : Q) (m : mat) :
  is_matrix h w m -> is_matrix h w (scale_mat s m).
Proof.
  intros [Hh Hw]. unfold scale_mat. split; [now rewrite length_map|].
  apply Forall_map. eapply Forall_impl; [|exact Hw].
  intros r Hr. simpl. now rewrite length_map.
Qed.

Lemma scale_mat_entry (h w : nat) (s : Q) (m : mat) (y x : nat) :
  is_matrix h w m -> (y < h)%nat -> (x < w)%nat ->
  nth x (nth y (scale_mat s m) []) 0 = s * nth x (nth y m []) 0.
Proof.
  intros Hm Hy Hx. unfold scale_mat.
  rewrite (nth_map_lt _ _ _ []) by (destruct Hm; lia).
  rewrite (nth_map_lt _ _ _ 0) by (now rewrite (is_matrix_row h w m y)).
  reflexivity.
Qed.

Lemma add_mat_matrix (h w : nat) (m1 m2 : mat) :
  is_matrix h w m1 -> is_matrix h w m2 -> is_matrix h w (add_mat m1 m2).
Proof.
  intros [H1 W1] [H2 W2]. unfold add_mat. split.
  - rewrite length_map2. lia.
  - subst h. revert m2 H2 W2.
    induction W1 as [|r1 m1 Hr1 W1 IH]; intros [|r2 m2] H2 W2; simpl in *;
      try discriminate; constructor.
    + inversion W2; subst. rewrite length_map2. lia.
    + apply IH; [lia|now inversion W2].
Qed.

Lemma add_mat_entry (h w : nat) (m1 m2 : mat) (y x : nat) :
  is_matrix h w m1 -> is_matrix h w m2 -> (y < h)%nat -> (x < w)%nat ->
  nth x (nth y (add_mat m1 m2) []) 0
  = nth x (nth y m1 []) 0 + nth x (nth y m2 []) 0.
Proof.
  intros M1 M2 Hy Hx. unfold add_mat.
  rewrite (nth_map2 _ _ _ _ [] []) by (destruct M1, M2; lia).
  rewrite (nth_map2 _ _ _ _ 0 0)
    by (rewrite ?(is_matrix_row h w m1 y), ?(is_matrix_row h w m2 y); assumption).
  reflexivity.
Qed.

Lemma fold_add_entry (h w : nat) (ms : cube) (m0 : mat) (y x : nat) :
  is_matrix h w m0 -> Forall (is_matrix h w) ms -> (y < h)%nat -> (x < w)%nat ->
  nth x (nth y (fold_left add_mat ms m0) []) 0
  == nth x (nth y m0 []) 0 + nd.sum (map (fun m => nth x (nth y m []) 0) ms).
Proof.
  intros M0 Ms Hy Hx. revert m0 M0.
  induction Ms as [|m ms Hm Ms IH]; intros m0 M0; simpl; [lra|].
  rewrite IH by (now apply add_mat_matrix).
  rewrite (add_mat_entry h w) by assumption. lra.
Qed.

Lemma map2_by_index {A B C : Type} (f : A -> B -> C) (l1 : list A) (l2 : list B)
      (da : A) (db : B) :
  length l1 = length l2 ->
  nd.map2 f l1 l2 = map (fun k => f (nth k l1 da) (nth k l2 db)) (seq 0 (length l2)).
Proof.
  intro H. apply (nth_ext _ _ (f da db) (f da db)).
  - rewrite length_map2, length_map, length_seq. lia.
  - intros k Hk. rewrite length_map2 in Hk.
    rewrite (nth_map2 _ _ _ _ da db) by lia.
    rewrite (nth_map_lt _ _ _ 0%nat) by (rewrite length_seq; lia).
    rewrite seq_nth by lia. reflexivity.
Qed.

(** [nd.dot] is the matrix product: the entry (y, x) of row [a] is the sum
    over [k] of coefficient [k] times the entry (y, x) of prototype [k]. *)
Lemma dot_row_entry (h w : nat) (coefs : list Q) (m : cube) (y x : nat) :
  length coefs = length m -> (0 < length m)%nat ->
  Forall (is_matrix h w) m -> (y < h)%nat -> (x < w)%nat ->
  nth x (nth y (dot_row coefs m) []) 0
  == nd.sum (map (fun k => nth k coefs 0 * nth x (nth y (nth k m []) []) 0)
               (seq 0 (length m))).
Proof.
  intros Hl Hpos Hm Hy Hx. unfold dot_row.
  assert (Fs : Forall (is_matrix h w) (nd.map2 scale_mat coefs m)).
  { clear Hpos. revert coefs Hl.
    induction Hm as [|p m Hp Hm IH]; intros [|c coefs] Hl; simpl in *;
      try discriminate; constructor.
    - now apply scale_mat_matrix.
    - apply IH. lia. }
  assert (E : map (fun p => nth x (nth y p []) 0) (nd.map2 scale_mat coefs m)
              = map (fun k => nth k coefs 0 * nth x (nth y (nth k m []) []) 0)
                  (seq 0 (length m))).
  { rewrite (map2_by_index scale_mat coefs m 0 ([] : mat)) by exact Hl. rewrite map_map.
    apply map_ext_in. intros k Hk. apply in_seq in Hk.
    apply (scale_mat_entry h w); try assumption.
    rewrite Forall_forall in Hm. apply Hm, nth_In. lia. }
  rewrite <- E.
  destruct (nd.map2 scale_mat coefs m) as [|p ps] eqn:Ep.
  - apply (f_equal (@length _)) in Ep. rewrite length_map2 in Ep.
    simpl in Ep. unfold mat in *. lia.
  - inversion Fs; subst. rewrite (fold_add_entry h w) by assumption.
    simpl. reflexivity.
Qed.

Lemma dot_entry (h w : nat) (a : mat) (m : cube) (p y x : nat) :
  (p < length a)%nat -> length (nth p a []) = length m -> (0 < length m)%nat ->
  Forall (is_matrix h w) m -> (y < h)%nat -> (x < w)%nat ->
  nth x (nth y (nth p (dot a m) []) []) 0
  == nd.sum (map (fun k => nth k (nth p a []) 0 * nth x (nth y (nth k m []) []) 0)
               (seq 0 (length m))).
Proof.
  intros Hp Hl Hpos Hm Hy Hx. unfold dot.
  rewrite (nth_map_lt _ _ _ []) by exact Hp.
  now apply (dot_row_entry h w).
Qed.

(** [take] reads the rows at the indices, which are within the tensor. *)
Lemma take_row {A : Type} (d : A) (a : list A) (idx : list nat) (p : nat) :
  (p < length idx)%nat -> (nth p idx 0 < length a)%nat ->
  nth p (nd.take d a idx) d = nth (nth p idx 0%nat) a d.
Proof.
  intros Hp Hi. unfold nd.take.
  rewrite (nth_map_lt _ _ _ 0%nat) by exact Hp.
  f_equal. lia.
Qed.

Lemma fold_add_matrix (h w : nat) (ms : cube) (m0 : mat) :
  is_matrix h w m0 -> Forall (is_matrix h w) ms ->
  is_matrix h w (fold_left add_mat ms m0).
Proof.
  intros M0 Ms. revert m0 M0.
  induction Ms as [|m ms Hm Ms IH]; intros m0 M0; simpl; [exact M0|].
  apply IH. now apply add_mat_matrix.
Qed.

Lemma dot_row_matrix (h w : nat) (coefs : list Q) (m : cube) :
  length coefs = length m -> (0 < length m)%nat ->
  Forall (is_matrix h w) m -> is_matrix h w (dot_row coefs m).
Proof.
  intros Hl Hpos Hm. unfold dot_row.
  assert (Fs : Forall (is_matrix h w) (nd.map2 scale_mat coefs m)).
  { clear Hpos. revert coefs Hl.
    induction Hm as [|p m Hp Hm IH]; intros [|c coefs] Hl; simpl in *;
      try discriminate; constructor.
    - now apply scale_mat_matrix.
    - apply IH. lia. }
  destruct (nd.map2 scale_mat coefs m) as [|p ps] eqn:Ep.
  - apply (f_equal (@length _)) in Ep. rewrite length_map2 in Ep.
    simpl in Ep. unfold mat in *. lia.
  - inversion Fs; subst. now apply fold_add_matrix.
Qed.

End MaskLossFacts.

Section MaskLossTheorem.

Import MaskOps.

Variable sigmoid : Q -> Q.
Variable SBCELoss : cube -> cube -> list Q.

(** C5.  Mask-coefficient projection in [mask_loss] (of
    [YOLACTMultiBoxLoss] and of [MaskLoss]).  For a sample [i] with at
    least one match ([matches[i,j] >= 0] for some [j]):
    - [idx], the first [pos_num[i]] entries of [argsort(-matches[i])],
      lists each matched anchor of the row once, and nothing else;
    - the loss of the sample is the mean of the binary cross-entropy
      between the target masks and
      [crop(sigmoid(dot(take(mask_eoc[i], idx), mask_pred[i])))], the crop
      being to the matched boxes, each entry weighted by
      [gt_weidth * gt_height / area] of its box;
    - [take] reads the coefficients and the boxes of the anchors of [idx];
    - [dot] is the matrix product of the coefficients with the prototype
      masks: for [K] prototypes of [h] rows and [w] columns, the entry
      (y, x) of the mask of the anchor at position [a] of [idx] is the sum
      over [k < K] of coefficient [k] of the anchor times the entry (y, x)
      of prototype [k]; the predicted mask is its [sigmoid]. *)
Theorem mask_coefficient_projection (gt_weidth gt_height : Q)
    (mask_pred : list cube) (mask_eoc : cube) (mask_target : list cube)
    (matches : list (list Z)) (bt_target : cube) (i : nat) :
  (i < length mask_pred)%nat ->
  (exists j, (j < length (nth i matches []))%nat /\
             (0 <= nth j (nth i matches []) 0)%Z) ->
  let m := nth i matches [] in
  let pos_num := length (filter (fun x => (0 <=? x)%Z) m) in
  let idx := firstn pos_num (nd.argsort (map (fun x => - inject_Z x) m)) in
  let coefs := nd.take [] (nth i mask_eoc []) idx in
  let boxes := nd.take [] (nth i bt_target []) idx in
  let prototypes := nth i mask_pred [] in
  let h := length (nth 0 prototypes []) in
  let w := length (nth 0 (nth 0 prototypes []) []) in
  let projected := map (map (map sigmoid)) (dot coefs prototypes) in
  let target := map (fun j => nth (Z.to_nat (nth j m 0%Z)) (nth i mask_target []) []) idx in
  let weight :=
    map (fun bb =>
           gt_weidth * gt_height /
           ((nth 3 bb 0 - nth 1 bb 0) * (nth 2 bb 0 - nth 0 bb 0))) boxes in
  let losses :=
    mask_loss sigmoid SBCELoss gt_weidth gt_height
      mask_pred mask_eoc mask_target matches bt_target in
  nth i losses 0 =
    nd.mean (nd.map2 Qmult (SBCELoss (crop boxes h w projected) target) weight) /\
  length losses = length mask_pred /\
  length idx = pos_num /\
  NoDup idx /\
  (forall j, In j idx <-> (j < length m)%nat /\ (0 <= nth j m 0)%Z) /\
  (forall a, (a < pos_num)%nat ->
     (length (nth i mask_eoc []) = length m ->
      nth a coefs [] = nth (nth a idx 0%nat) (nth i mask_eoc []) []) /\
     (length (nth i bt_target []) = length m ->
      nth a boxes [] = nth (nth a idx 0%nat) (nth i bt_target []) [])) /\
  ((0 < length prototypes)%nat ->
   Forall (is_matrix h w) prototypes ->
   forall a y x,
     (a < pos_num)%nat -> length (nth a coefs []) = length prototypes ->
     (y < h)%nat -> (x < w)%nat ->
     nth x (nth y (nth a (dot coefs prototypes) []) []) 0
     == nd.sum (map (fun k => nth k (nth a coefs []) 0
                              * nth x (nth y (nth k prototypes []) []) 0)
                  (seq 0 (length prototypes))) /\
     nth x (nth y (nth a projected []) []) 0
     = sigmoid (nth x (nth y (nth a (dot coefs prototypes) []) []) 0)).
Proof.
  intros Hi [j [Hj Hm]] m pos_num idx coefs boxes prototypes h w projected
         target weight losses.
  assert (Eidx : idx = idx_of m) by reflexivity.
  assert (Lidx : length idx = pos_num) by (rewrite Eidx; apply idx_of_length).
  split; [|split; [|split; [|split; [|split; [|split]]]]].
  - subst losses. unfold mask_loss.
    set (body := fun k : nat => if Nat.eqb (pos_num_of (nth k matches [])) 0
                  then 0
                  else sample_loss sigmoid SBCELoss gt_weidth gt_height
                         (nth k mask_pred []) (nth k mask_eoc [])
                         (nth k mask_target []) (nth k matches [])
                         (nth k bt_target [])).
    rewrite (map_ext _ (fun k => [body k])).
    + rewrite nth_concat_singletons by exact Hi. unfold body.
      fold m. rewrite (pos_num_positive m j Hj Hm). reflexivity.
    + intro k. unfold body. now destruct (Nat.eqb _ 0).
  - subst losses. unfold mask_loss.
    transitivity (length (seq 0 (length mask_pred))); [|apply length_seq].
    generalize (seq 0 (length mask_pred)). intro s.
    induction s as [|k s IH]; simpl; [reflexivity|].
    rewrite length_app, IH. now destruct (Nat.eqb _ 0).
  - exact Lidx.
  - rewrite Eidx. apply idx_of_NoDup.
  - intro k. rewrite Eidx. apply idx_of_In.
  - intros a Ha.
    assert (Hin : (nth a idx 0 < length m)%nat).
    { apply (idx_of_In m). rewrite <- Eidx. apply nth_In. lia. }
    split; intro Hlen; apply take_row; lia.
  - intros Hpos Hshape a y x Ha Hl Hy Hx.
    assert (La : (a < length coefs)%nat).
    { unfold coefs, nd.take. rewrite length_map. lia. }
    split; [now apply (dot_entry h w)|].
    unfold projected.
    assert (Hd : is_matrix h w (nth a (dot coefs prototypes) [])).
    { unfold dot. rewrite (nth_map_lt _ _ _ []) by exact La.
      now apply dot_row_matrix. }
    rewrite (nth_map_lt _ _ _ []) by (unfold dot; now rewrite length_map).
    rewrite (nth_map_lt _ _ _ []) by (destruct Hd; lia).
    rewrite (nth_map_lt _ _ _ 0) by (now rewrite (is_matrix_row h w _ y Hd)).
    reflexivity.
Qed.

End MaskLossTheorem.

(** One sample, two prototypes of 2 x 2, three anchors of which the last two
    are matched (to ground truths 0 and 1). *)
Definition proj_mask_pred : list cube := [[[[1; 2]; [3; 4]]; [[0; 1]; [1; 0]]]].
Definition proj_mask_eoc : cube := [[[1; 0]; [0; 1]; [1; 1]]].
Definition proj_mask_target : list cube := [[[[1; 0]; [0; 0]]; [[0; 0]; [0; 1]]]].
Definition proj_matches : list (list Z) := [[-1; 0; 1]%Z].
Definition proj_bt_target : cube := [[[0; 0; 4; 4]; [0; 0; 8; 8]; [4; 4; 8; 8]]].

(** A stand-in for the library loss: the mean absolute error of a mask. *)
Definition abs_error (pred target : cube) : list Q :=
  nd.map2 (fun p t =>
             nd.sum2 (nd.map2 (nd.map2 (fun x y => Qabs (x - y))) p t)
             / n2q (length (concat p)))
    pred target.

Example proj_example :
  MaskOps.idx_of (nth 0 proj_matches []) = [2; 1]%nat
  /\ MaskOps.dot (nd.take [] (nth 0 proj_mask_eoc []) [2; 1]%nat)
       (nth 0 proj_mask_pred [])
     = [[[1; 3]; [4; 4]]; [[0; 1]; [1; 0]]].
Proof. split; vm_compute; reflexivity. Qed.

(** The mask of the first anchor of [idx], anchor 2 with coefficients
    (1, 1): its entry (0, 1) is 1 * 2 + 1 * 1. *)
Lemma mask_coefficient_projection_witness :
  length (MaskOps.mask_loss (fun x => x) abs_error 550 550 proj_mask_pred
            proj_mask_eoc proj_mask_target proj_matches proj_bt_target)
  = length proj_mask_pred
  /\ nth 1 (nth 0 (nth 0 (MaskOps.dot
                            (nd.take [] (nth 0 proj_mask_eoc [])
                               (MaskOps.idx_of (nth 0 proj_matches [])))
                            (nth 0 proj_mask_pred [])) []) []) 0
     == 1 * 2 + (1 * 1 + 0).
Proof.
  destruct (mask_coefficient_projection (fun x => x) abs_error
              550 550 proj_mask_pred proj_mask_eoc proj_mask_target
              proj_matches proj_bt_target 0)
    as (_ & Hlen & _ & _ & _ & _ & Hdot).
  - simpl. lia.
  - exists 1%nat. simpl. split; lia.
  - split; [exact Hlen|].
    refine (proj1 (Hdot _ _ 0%nat 0%nat 1%nat _ _ _ _)).
    + simpl. lia.
    + repeat constructor.
    + simpl. lia.
    + reflexivity.
    + simpl. lia.
    + simpl. lia.
Defined.

(** ** Cross-device reduction and the early return *)

Section ReductionFacts.

Lemma py_max_comp (a b b' : Q) : b == b' -> py_max a b == py_max a b'.
Proof.
  intro E. unfold py_max. rewrite (Qltb_comp a b b' E).
  destruct (Qltb a b'); [exact E|reflexivity].
Qed.

Lemma py_max_one_positive (x : Q) : 0 < py_max 1 x.
Proof. pose proof (py_max_spec 1 x). lra. Qed.

Lemma filter_app_length {A : Type} (f : A -> bool) (l1 l2 : list A) :
  length (filter f (l1 ++ l2)) = (length (filter f l1) + length (filter f l2))%nat.
Proof. now rewrite filter_app, length_app. Qed.

(** [(ct > 0).sum()] counts the positive entries of [ct]. *)
Lemma sum2_pos_of (ct : list (list Z)) :
  nd.sum2 (SSDMultiBoxLoss.pos_of ct)
  == n2q (length (filter (fun c => (0 <? c)%Z) (concat ct))).
Proof.
  unfold nd.sum2, SSDMultiBoxLoss.pos_of.
  induction ct as [|r ct IH]; simpl; [reflexivity|].
  rewrite IH, filter_app_length, n2q_plus, sum_b2q. reflexivity.
Qed.

Lemma sum_times_zero_is_zero (x : cube) :
  match SSDMultiBoxLoss.sum_times_zero x with
  | [z] => z == 0
  | _ => False
  end.
Proof.
  unfold SSDMultiBoxLoss.sum_times_zero, nd.sum3, nd.sum2.
  induction x as [|m x IHx]; simpl; [reflexivity|].
  rewrite IHx.
  assert (E : nd.sum (map nd.sum (map (map (fun v => v * 0)) m)) == 0).
  { clear. induction m as [|r m IHm]; simpl; [reflexivity|].
    rewrite IHm.
    assert (Er : nd.sum (map (fun v => v * 0) r) == 0).
    { clear. induction r as [|v r IHr]; simpl; [reflexivity|].
      rewrite IHr. lra. }
    rewrite Er. lra. }
  rewrite E. lra.
Qed.

Lemma dummy_sums_zero (la lb : list cube) :
  Forall (fun x => match x with [z] => z == 0 | _ => False end)
    (nd.map2 (fun cp bp => nd.map2 Qplus (SSDMultiBoxLoss.sum_times_zero cp)
                             (SSDMultiBoxLoss.sum_times_zero bp)) la lb).
Proof.
  revert lb. induction la as [|a la IH]; intros [|b lb]; simpl; constructor.
  - pose proof (sum_times_zero_is_zero a) as Ha.
    pose proof (sum_times_zero_is_zero b) as Hb.
    unfold SSDMultiBoxLoss.sum_times_zero in Ha, Hb. lra.
  - apply IH.
Qed.

End ReductionFacts.

(** A tensor of shape (1,) that holds zero. *)
Definition zero_scalar (x : list Q) : Prop :=
  match x with
  | [z] => z == 0
  | _ => False
  end.

(** The count of the entries with [cls_target > 0], over every device. *)
Definition positives_of_all (devs : list SSDMultiBoxLoss.device) : nat :=
  length (filter (fun c => (0 <? c)%Z)
            (concat (map (fun '(cp, bp, ct, bt) => concat ct) devs))).

Section ReductionTheorems.

Import SSDMultiBoxLoss.

Variable log_softmax : list Q -> list Q.

Lemma num_pos_all_counts (devs : list device) :
  num_pos_all devs == n2q (positives_of_all devs).
Proof.
  unfold num_pos_all, positives_of_all. rewrite py_sum_sum.
  induction devs as [|[[[cp bp] ct] bt] devs IH]; simpl; [reflexivity|].
  rewrite IH, filter_app_length, n2q_plus, sum2_pos_of. reflexivity.
Qed.

Lemma Forall2_Qeq_map {A : Type} (f g : A -> Q) (l : list A) :
  (forall x, f x == g x) -> Forall2 Qeq (map f l) (map g l).
Proof.
  intro H. induction l as [|x l IH]; simpl; constructor; auto.
Qed.

(** Under the guard of the early return the mining would keep nothing:
    there is no positive anchor, and the limit on the rank is at most 0. *)
Lemma zero_rows_kept (thr : Q) (cts : list Z) (ranks : list nat) (loss : list Q) :
  thr <= 0 -> Forall (fun c => (c <= 0)%Z) cts ->
  Forall (fun x => x = 0)
    (nd.map2 (fun k l => nd.where_ k l 0)
       (nd.map2 (fun p h => b2q (Qgtb (p + h) 0))
          (map (fun c => b2q (0 <? c)%Z) cts)
          (map (fun r => b2q (Qltb (n2q r) thr)) ranks))
       loss).
Proof.
  intros Ht Hc. revert ranks loss.
  induction Hc as [|c cts Hc0 Hc IH]; intros [|r ranks] [|l loss]; simpl;
    try constructor; try apply IH.
  replace (0 <? c)%Z with false by (symmetry; apply Z.ltb_ge; lia).
  replace (Qltb (n2q r) thr) with false; [reflexivity|].
  symmetry. apply Qltb_ge.
  assert (0 <= n2q r) by (change 0 with (n2q 0); apply n2q_le; lia). lra.
Qed.

Lemma sum_zero_row (cts : list Z) :
  Forall (fun c => (c <= 0)%Z) cts ->
  nd.sum (map (fun c => b2q (0 <? c)%Z) cts) == 0.
Proof.
  induction 1 as [|c cts Hc0 Hc IH]; simpl; [reflexivity|].
  replace (0 <? c)%Z with false by (symmetry; apply Z.ltb_ge; lia).
  rewrite IH. reflexivity.
Qed.

Lemma mining_keeps_nothing (L : t) (cp : cube) (ct : list (list Z)) :
  (_min_hard_negatives L < 1)%Z ->
  Forall (Forall (fun c => (c <= 0)%Z)) ct ->
  Forall (Forall (fun x => x = 0)) (mined_cls_loss log_softmax L cp ct).
Proof.
  intros Hm Hc. unfold mined_cls_loss, keep_mask, hard_negative_of,
    mining_threshold, mining_rank, pos_of.
  generalize (mining_key (cross_entropy log_softmax cp ct)
                (map (map (fun c => b2q (0 <? c)%Z)) ct)).
  generalize (cross_entropy log_softmax cp ct).
  intros loss key. revert loss key.
  induction Hc as [|cts ct Hr Hc IH]; intros [|l loss] [|k key]; simpl;
    try constructor; try apply IH.
  apply zero_rows_kept; [|exact Hr].
  rewrite (maximum_comp _ _ (0 * _negative_mining_ratio L))
    by (rewrite sum_zero_row by exact Hr; reflexivity).
  unfold nd.maximum.
  assert (Hq : inject_Z (_min_hard_negatives L) <= 0)
    by (change 0 with (inject_Z 0); rewrite <- Zle_Qle; lia).
  destruct (Qle_bool _ _); lra.
Qed.

Lemma no_positive_anywhere (devs : list device) :
  num_pos_all devs < 1 ->
  Forall (fun d => Forall (Forall (fun c => (c <= 0)%Z)) (snd (fst d))) devs.
Proof.
  intro H. rewrite num_pos_all_counts in H.
  change 1 with (n2q 1) in H. apply n2q_lt in H.
  assert (E : filter (fun c => (0 <? c)%Z)
                (concat (map (fun '(cp, bp, ct, bt) => concat ct) devs)) = []).
  { unfold positives_of_all in H.
    destruct (filter _ _); [reflexivity|simpl in H; lia]. }
  apply Forall_forall. intros [[[cp bp] ct] bt] Hd. simpl.
  apply Forall_forall. intros row Hrow. apply Forall_forall. intros c Hc.
  destruct (0 <? c)%Z eqn:Ec; [|apply Z.ltb_ge in Ec; exact Ec].
  assert (I : In c (filter (fun c => (0 <? c)%Z)
                      (concat (map (fun '(cp, bp, ct, bt) => concat ct) devs)))).
  { apply filter_In. split; [|exact Ec].
    apply in_concat. exists (concat ct). split.
    - apply in_map_iff. exists (cp, bp, ct, bt). split; [reflexivity|exact Hd].
    - apply in_concat. exists row. split; assumption. }
  rewrite E in I. destruct I.
Qed.

(** The early return gives what the mining would give: no anchor of any
    device contributes to the classification loss. *)
Lemma early_return_agrees_with_mining (L : t) (devs : list device) :
  no_samples L devs = true ->
  Forall (fun d => Forall (Forall (fun x => x = 0))
                     (mined_cls_loss log_softmax L (fst (fst (fst d)))
                        (snd (fst d)))) devs.
Proof.
  unfold no_samples. intro H. apply andb_true_iff in H. destruct H as [Hn Hm].
  apply Qltb_lt in Hn. apply Z.ltb_lt in Hm.
  pose proof (no_positive_anywhere devs Hn) as Hc.
  rewrite Forall_forall in *. intros d Hd.
  apply mining_keeps_nothing; [exact Hm|]. now apply Hc.
Qed.

(** Without a positive anchor the masked box loss is zero everywhere. *)
Lemma box_loss_keeps_nothing (L : t) (bp : cube) (ct : list (list Z)) (bt : cube) :
  Forall (Forall (fun c => (c <= 0)%Z)) ct ->
  Forall (Forall (Forall (fun x => x == 0))) (masked_box_loss L bp ct bt).
Proof.
  intro Hc. unfold masked_box_loss, pos_of.
  generalize (nd.map2 (nd.map2 (nd.map2 (smooth_l1 L))) (_reshape_like bp bt) bt).
  intro box. revert box.
  induction Hc as [|cts ct Hr Hc IH]; intros [|rows box]; simpl;
    try constructor; try apply IH.
  clear -Hr. revert rows.
  induction Hr as [|c cts Hc0 Hr IHr]; intros [|coords rows]; simpl;
    try constructor; try apply IHr.
  replace (0 <? c)%Z with false by (symmetry; apply Z.ltb_ge; lia).
  apply Forall_forall. intros x Hx. apply in_map_iff in Hx.
  destruct Hx as [y [<- _]]. simpl. lra.
Qed.

Lemma sum_all_zero (v : list Q) : Forall (fun x => x == 0) v -> nd.sum v == 0.
Proof.
  induction 1 as [|x v Hx Hv IH]; simpl; [reflexivity|]. rewrite Hx, IH. lra.
Qed.

Lemma sum2_all_zero (m : mat) :
  Forall (Forall (fun x => x == 0)) m -> nd.sum2 m == 0.
Proof.
  unfold nd.sum2. induction 1 as [|r m Hr Hm IH]; simpl; [reflexivity|].
  rewrite (sum_all_zero r Hr), IH. lra.
Qed.

(** C2.  Multi-device reduction in [SSDMultiBoxLoss.forward].
    [num_pos_all], the sum over the devices of the per-device counts
    [(ct > 0).sum()], is the number of entries with [cls_target > 0] over
    every device.  Past the early return, on every device the
    classification loss of a row is the sum of its mined loss divided by
    [max(1, num_pos_all)], and the box loss of a row is the sum of its
    masked box loss divided by the same [max(1, num_pos_all)].  When the
    early return is taken every one of these quotients is zero, and the
    losses returned are zero scalars. *)
Theorem losses_share_global_denominator (L : t) (cls_pred box_pred : arg cube)
    (cls_target : arg (list (list Z))) (box_target : arg cube) :
  let devs := zip4 (_as_list cls_pred) (_as_list box_pred)
                (_as_list cls_target) (_as_list box_target) in
  let total := n2q (positives_of_all devs) in
  let cls_losses := snd (fst (forward log_softmax L cls_pred box_pred
                                cls_target box_target)) in
  let box_losses := snd (forward log_softmax L cls_pred box_pred
                           cls_target box_target) in
  num_pos_all devs == total /\
  (no_samples L devs = false ->
   length cls_losses = length devs /\
   length box_losses = length devs /\
   forall d, (d < length devs)%nat ->
     let '(cp, bp, ct, bt) := nth d devs ([], [], [], []) in
     Forall2 Qeq (nth d cls_losses [])
       (map (fun row => nd.sum row / py_max 1 total)
          (mined_cls_loss log_softmax L cp ct)) /\
     Forall2 Qeq (nth d box_losses [])
       (map (fun rows => nd.sum2 rows / py_max 1 total)
          (masked_box_loss L bp ct bt))) /\
  (no_samples L devs = true ->
   Forall zero_scalar cls_losses /\
   Forall zero_scalar box_losses /\
   Forall (fun d =>
             let '(cp, bp, ct, bt) := d in
             Forall (fun row => nd.sum row / py_max 1 total == 0)
               (mined_cls_loss log_softmax L cp ct) /\
             Forall (fun rows => nd.sum2 rows / py_max 1 total == 0)
               (masked_box_loss L bp ct bt)) devs).
Proof.
  intros devs total cls_losses box_losses.
  assert (Et : num_pos_all devs == total) by apply num_pos_all_counts.
  assert (Em : py_max 1 (num_pos_all devs) == py_max 1 total)
    by now apply py_max_comp.
  split; [exact Et|]. split; intro Hg.
  - subst cls_losses box_losses. unfold forward. fold devs. rewrite Hg. simpl.
    rewrite !length_map.
    split; [reflexivity|]. split; [reflexivity|].
    intros d Hd.
    rewrite !(nth_map_lt _ _ _ ([], [], [])) by now rewrite length_map.
    rewrite !(nth_map_lt (device_losses log_softmax L (num_pos_all devs)) devs d
                ([], [], [], [])) by assumption.
    unfold device in *.
    destruct (nth d devs ([], [], [], [])) as [[[cp bp] ct] bt]. simpl.
    split; apply Forall2_Qeq_map; intro x; now rewrite Em.
  - assert (Z1 : forall l, Forall zero_scalar (map sum_times_zero l)).
    { intro l. apply Forall_forall. intros x Hx.
      apply in_map_iff in Hx. destruct Hx as [c [<- _]].
      apply sum_times_zero_is_zero. }
    subst cls_losses box_losses. unfold forward. fold devs. rewrite Hg. simpl.
    split; [apply Z1|]. split; [apply Z1|].
    pose proof (early_return_agrees_with_mining L devs Hg) as Hmined.
    unfold no_samples in Hg. apply andb_true_iff in Hg. destruct Hg as [Hn _].
    apply Qltb_lt in Hn. pose proof (no_positive_anywhere devs Hn) as Hc.
    rewrite Forall_forall in *. intros [[[cp bp] ct] bt] Hd.
    specialize (Hmined _ Hd). specialize (Hc _ Hd). simpl in Hmined, Hc.
    pose proof (py_max_one_positive total) as Hp.
    split; apply Forall_forall.
    + intros row Hrow. rewrite Forall_forall in Hmined.
      assert (E : nd.sum row == 0).
      { apply sum_all_zero. eapply Forall_impl; [|exact (Hmined row Hrow)].
        intros x ->. reflexivity. }
      rewrite E. field. lra.
    + intros rows Hrows.
      pose proof (box_loss_keeps_nothing L bp ct bt Hc) as Hb.
      rewrite Forall_forall in Hb.
      rewrite (sum2_all_zero rows (Hb rows Hrows)). field. lra.
Qed.

(** C8.  The early return.  When [num_pos_all < 1] and
    [min_hard_negatives < 1], [SSDMultiBoxLoss.forward] and
    [YOLACTMultiBoxLoss.forward] return the dummy losses: one zero scalar
    per entry of [cls_pred], of [box_pred] (and of [mask_eoc]), and their
    sums; the mining, the box regression and the division by
    [max(1, num_pos_all)] are not part of what is returned. *)
Theorem empty_batch_returns_zero_losses (L : t) (Y : YOLACTMultiBoxLoss.t)
    (sigmoid : Q -> Q) (SBCELoss : cube -> cube -> list Q)
    (cls_pred box_pred : arg cube)
    (cls_target : arg (list (list Z))) (box_target : arg cube)
    (mask_pred : list (list cube)) (mask_eoc : list cube)
    (mask_target : list (list cube)) (matches : list (list (list Z)))
    (bts : list cube) :
  let devs := zip4 (_as_list cls_pred) (_as_list box_pred)
                (_as_list cls_target) (_as_list box_target) in
  let n_cls := length (_as_list cls_pred) in
  let n_box := length (_as_list box_pred) in
  num_pos_all devs < 1 ->
  ((_min_hard_negatives L < 1)%Z ->
   let r := forward log_softmax L cls_pred box_pred cls_target box_target in
   r = dummy_losses (_as_list cls_pred) (_as_list box_pred) /\
   Forall zero_scalar (fst (fst r)) /\
   Forall zero_scalar (snd (fst r)) /\
   Forall zero_scalar (snd r) /\
   length (fst (fst r)) = Nat.min n_cls n_box /\
   length (snd (fst r)) = n_cls /\
   length (snd r) = n_box) /\
  ((YOLACTMultiBoxLoss._min_hard_negatives Y < 1)%Z ->
   let r := YOLACTMultiBoxLoss.forward log_softmax sigmoid SBCELoss Y
              cls_pred box_pred mask_pred mask_eoc cls_target box_target
              mask_target matches bts in
   r = YOLACTMultiBoxLoss.dummy_losses (_as_list cls_pred) (_as_list box_pred)
         mask_eoc /\
   Forall zero_scalar (fst (fst (fst r))) /\
   Forall zero_scalar (snd (fst (fst r))) /\
   Forall zero_scalar (snd (fst r)) /\
   Forall zero_scalar (snd r) /\
   length (fst (fst (fst r))) = Nat.min (Nat.min n_cls n_box) (length mask_eoc) /\
   length (snd (fst (fst r))) = n_cls /\
   length (snd (fst r)) = n_box /\
   length (snd r) = length mask_eoc).
Proof.
  intros devs n_cls n_box Hn.
  assert (Z1 : forall l, Forall zero_scalar (map sum_times_zero l)).
  { intro l. apply Forall_forall. intros x Hx.
    apply in_map_iff in Hx. destruct Hx as [c [<- _]].
    apply sum_times_zero_is_zero. }
  apply Qltb_lt in Hn.
  split; intro Hm; apply Z.ltb_lt in Hm; intro r.
  - assert (Er : r = dummy_losses (_as_list cls_pred) (_as_list box_pred)).
    { subst r. unfold forward, no_samples. fold devs. now rewrite Hn, Hm. }
    split; [exact Er|]. rewrite Er. unfold dummy_losses. simpl.
    rewrite length_map2, !length_map.
    repeat split; try apply Z1.
    apply dummy_sums_zero.
  - assert (Er : r = YOLACTMultiBoxLoss.dummy_losses (_as_list cls_pred)
                       (_as_list box_pred) mask_eoc).
    { subst r. unfold YOLACTMultiBoxLoss.forward, YOLACTMultiBoxLoss.no_samples.
      fold devs. now rewrite Hn, Hm. }
    split; [exact Er|]. rewrite Er. unfold YOLACTMultiBoxLoss.dummy_losses. simpl.
    rewrite !length_map, !length_combine.
    repeat split; try apply Z1.
    apply Forall_forall. intros x Hx.
    apply in_map_iff in Hx. destruct Hx as [[[cp bp] me] [<- _]].
    unfold sum_times_zero. simpl.
    pose proof (sum_times_zero_is_zero cp) as Ha.
    pose proof (sum_times_zero_is_zero bp) as Hb.
    pose proof (sum_times_zero_is_zero me) as Hc.
    unfold sum_times_zero in Ha, Hb, Hc. lra.
Qed.

End ReductionTheorems.

(** The row of [mining_example] on one device, with its boxes. *)
Definition mining_bp : cube :=
  [[[0; 0; 2; 2]; [0; 0; 1; 1]; [0; 0; 1; 1]; [0; 0; 1; 1]; [0; 0; 1; 1]]].
Definition mining_bt : cube :=
  [[[0; 0; 1; 4]; [0; 0; 0; 0]; [0; 0; 0; 0]; [0; 0; 0; 0]; [0; 0; 0; 0]]].

(** One positive: the kept losses 1 + 2 + 5 + 3 over [max(1, 1)], and the
    smooth L1 loss 1/2 + 3/2 of the positive box. *)
Example forward_example :
  let '(sum_losses, cls_losses, box_losses) :=
    SSDMultiBoxLoss.forward (fun x => x) mining_L (One mining_cp) (One mining_bp)
      (One mining_ct) (One mining_bt) in
  Forall2 (Forall2 Qeq) sum_losses [[13]] /\
  Forall2 (Forall2 Qeq) cls_losses [[11]] /\
  Forall2 (Forall2 Qeq) box_losses [[2]].
Proof. vm_compute. repeat constructor. Qed.

(** Two devices with one positive each: both divide by 2. *)
Definition two_device_cls_losses : list (list Q) :=
  snd (fst (SSDMultiBoxLoss.forward (fun x => x) mining_L
              (Several [mining_cp; mining_cp]) (Several [mining_bp; mining_bp])
              (Several [mining_ct; mining_ct])
              (Several [mining_bt; mining_bt]))).

Lemma losses_share_global_denominator_witness :
  SSDMultiBoxLoss.num_pos_all
    (zip4 [mining_cp; mining_cp] [mining_bp; mining_bp] [mining_ct; mining_ct]
       [mining_bt; mining_bt]) == 2 /\
  length two_device_cls_losses = 2%nat /\
  Forall2 Qeq (nth 0 two_device_cls_losses [])
    (map (fun row => nd.sum row / py_max 1 2)
       (SSDMultiBoxLoss.mined_cls_loss (fun x => x) mining_L mining_cp mining_ct)) /\
  Forall2 Qeq (nth 1 two_device_cls_losses [])
    (map (fun row => nd.sum row / py_max 1 2)
       (SSDMultiBoxLoss.mined_cls_loss (fun x => x) mining_L mining_cp mining_ct)).
Proof.
  destruct (losses_share_global_denominator (fun x => x) mining_L
              (Several [mining_cp; mining_cp]) (Several [mining_bp; mining_bp])
              (Several [mining_ct; mining_ct]) (Several [mining_bt; mining_bt]))
    as [Hn [Hmain _]].
  destruct (Hmain eq_refl) as (Hl & _ & Hd).
  split; [exact Hn|]. split; [exact Hl|].
  split.
  - exact (proj1 (Hd 0%nat ltac:(simpl; lia))).
  - exact (proj1 (Hd 1%nat ltac:(simpl; lia))).
Defined.

(** A batch with no positive anchor. *)
Definition empty_ct : list (list Z) := [[0; 0; 0; 0; 0]%Z].
Definition empty_Y : YOLACTMultiBoxLoss.t :=
  YOLACTMultiBoxLoss.__init__ 3 1 (3 # 2) 1 (5 # 4) 0.

Lemma empty_batch_returns_zero_losses_witness :
  Forall zero_scalar
    (snd (SSDMultiBoxLoss.forward (fun x => x) mining_L (One mining_cp)
            (One mining_bp) (One empty_ct) (One mining_bt))) /\
  Forall zero_scalar
    (snd (YOLACTMultiBoxLoss.forward (fun x => x) (fun x => x) abs_error empty_Y
            (One mining_cp) (One mining_bp) [proj_mask_pred] [proj_mask_eoc]
            (One empty_ct) (One mining_bt) [proj_mask_target] [proj_matches]
            [proj_bt_target])).
Proof.
  assert (Hn : SSDMultiBoxLoss.num_pos_all
                 (zip4 (_as_list (One mining_cp)) (_as_list (One mining_bp))
                    (_as_list (One empty_ct)) (_as_list (One mining_bt))) < 1)
    by reflexivity.
  destruct (empty_batch_returns_zero_losses (fun x => x) mining_L empty_Y
              (fun x => x) abs_error (One mining_cp) (One mining_bp)
              (One empty_ct) (One mining_bt) [proj_mask_pred] [proj_mask_eoc]
              [proj_mask_target] [proj_matches] [proj_bt_target] Hn)
    as [S Y].
  split.
  - apply S. reflexivity.
  - apply Y. reflexivity.
Defined.

(** ** The IoU loss, box pair by box pair *)

(** The IoU value of a predicted and a ground-truth box, each
    [x1; y1; x2; y2]. *)
Definition iou_pair (p g : list Q) : Q :=
  let px1 := nth 0 p 0 in
  let py1 := nth 1 p 0 in
  let px2 := nth 2 p 0 in
  let py2 := nth 3 p 0 in
  let gx1 := nth 0 g 0 in
  let gy1 := nth 1 g 0 in
  let gx2 := nth 2 g 0 in
  let gy2 := nth 3 g 0 in
  let ain :=
    nd.maximum (nd.minimum px2 gx2 - nd.maximum px1 gx1 + 1) 0
    * nd.maximum (nd.minimum py2 gy2 - nd.maximum py1 gy1 + 1) 0 + 1 in
  let union :=
    Qabs (px2 - px1 + 1) * Qabs (py2 - py1 + 1)
    + Qabs (gx2 - gx1 + 1) * Qabs (gy2 - gy1 + 1) - ain + 1 in
  nd.maximum (ain / union) 0.

(** The box pairs with their labels, over every (b, n). *)
Definition box_entries (pred gt : cube) (label : mat)
  : list (list Q * list Q * Q) :=
  concat (nd.map2 (fun pg rl => combine (combine (fst pg) (snd pg)) rl)
            (combine pred gt) label).

Definition foreground (e : list Q * list Q * Q) : bool := Qgtb (snd e) 0.

Section IOUFacts.

Import IOULoss.

Lemma ious_of_rows (pred gt : cube) :
  ious_of pred gt = nd.map2 (nd.map2 iou_pair) pred gt.
Proof.
  unfold ious_of, ew1, ew2, split4.
  revert gt. induction pred as [|rp pred IH]; intros [|rg gt]; simpl;
    try reflexivity.
  f_equal; [|apply IH].
  clear. revert rg. induction rp as [|p rp IHr]; intros [|g rg]; simpl;
    try reflexivity.
  f_equal. apply IHr.
Qed.

Variable log : Q -> Q.

(** The loss of one entry: [-log(min(iou + eps, 1))]. *)
Definition iou_term (eps : Q) (e : list Q * list Q * Q) : Q :=
  - log (nd.minimum (iou_pair (fst (fst e)) (snd (fst e)) + eps) 1).

Definition fg_value (l : Q) : Q := nd.where_ (b2q (Qgtb l 0)) 1 0.

Lemma fg_value_cases (l : Q) :
  fg_value l = if Qgtb l 0 then 1 else 0.
Proof. unfold fg_value. now destruct (Qgtb l 0). Qed.

Lemma row_loss_sum (eps : Q) (rp rg : list (list Q)) (rl : list Q) :
  length rp = length rg -> length rp = length rl ->
  nd.sum (nd.map2 Qmult
            (map (fun x => - log (nd.minimum (x + eps) 1))
               (nd.map2 iou_pair rp rg))
            (map fg_value rl))
  == nd.sum (map (iou_term eps)
               (filter foreground (combine (combine rp rg) rl))).
Proof.
  revert rg rl. induction rp as [|p rp IH]; intros [|g rg] [|l rl] H1 H2;
    simpl in *; try discriminate; try reflexivity.
  rewrite IH by congruence.
  unfold foreground at 2. simpl. rewrite fg_value_cases.
  destruct (Qgtb l 0); simpl; unfold iou_term; simpl; lra.
Qed.

Lemma row_mask_sum (rp rg : list (list Q)) (rl : list Q) :
  length rp = length rg -> length rp = length rl ->
  nd.sum (map fg_value rl)
  == n2q (length (filter foreground (combine (combine rp rg) rl))).
Proof.
  revert rg rl. induction rp as [|p rp IH]; intros [|g rg] [|l rl] H1 H2;
    simpl in *; try discriminate; try reflexivity.
  rewrite (IH rg rl) by congruence.
  unfold foreground at 2. simpl. rewrite fg_value_cases.
  destruct (Qgtb l 0); simpl.
  - change (S ?n) with (1 + n)%nat. rewrite n2q_plus. reflexivity.
  - lra.
Qed.

Definition same_rows {A B : Type} (a : list (list A)) (b : list (list B)) : Prop :=
  Forall2 (fun ra rb => length ra = length rb) a b.

Lemma tensor_loss_sum (eps : Q) (pred gt : cube) (label : mat) :
  same_rows pred gt -> same_rows pred label ->
  nd.sum2 (ew2 Qmult
             (ew1 (fun x => - log (nd.minimum (x + eps) 1))
                (nd.map2 (nd.map2 iou_pair) pred gt))
             (fg_mask_of label))
  == nd.sum (map (iou_term eps) (filter foreground (box_entries pred gt label))).
Proof.
  unfold nd.sum2, ew2, ew1, fg_mask_of, box_entries, same_rows.
  intros Hg. revert label.
  induction Hg as [|rp rg pred gt Hr Hg IH]; intros label Hl;
    inversion Hl as [|? rl ? label' Hrl Hl']; subst; simpl; [reflexivity|].
  rewrite filter_app, map_app, sum_app, <- IH by assumption.
  fold fg_value. rewrite (row_loss_sum eps rp rg rl) by assumption.
  reflexivity.
Qed.

Lemma tensor_mask_sum (pred gt : cube) (label : mat) :
  same_rows pred gt -> same_rows pred label ->
  nd.sum2 (fg_mask_of label)
  == n2q (length (filter foreground (box_entries pred gt label))).
Proof.
  unfold nd.sum2, ew1, fg_mask_of, box_entries, same_rows.
  intros Hg. revert label.
  induction Hg as [|rp rg pred gt Hr Hg IH]; intros label Hl;
    inversion Hl as [|? rl ? label' Hrl Hl']; subst; simpl; [reflexivity|].
  rewrite filter_app, length_app, n2q_plus, <- IH by assumption.
  fold fg_value. rewrite (row_mask_sum rp rg rl) by assumption.
  reflexivity.
Qed.

Lemma maximum_comp_l (a a' b : Q) : a == a' -> nd.maximum a b == nd.maximum a' b.
Proof.
  intro E. unfold nd.maximum.
  destruct (Qle_bool a b) eqn:E1; destruct (Qle_bool a' b) eqn:E2;
    try (apply Qle_bool_iff in E1); try (apply Qle_bool_iff in E2);
    try (apply Qle_bool_gt in E1); try (apply Qle_bool_gt in E2); lra.
Qed.

(** C3.  [IOULoss.hybrid_forward].  The IoU tensor holds [iou_pair] of
    every box pair ([max(ain/union, 0)] with [ain] and [union] as in the
    source); for [pred], [gt] of shape (B, N, 4) and [label] of shape
    (B, N), the loss is the sum of [-log(min(iou + eps, 1))] over the
    foreground entries ([label > 0]) divided by the maximum of their number
    and 1; the IoU tensor is returned with the loss exactly when
    [return_iou] is set. *)
Theorem iou_loss_over_foreground (L : t) (pred gt : cube) (label : mat) :
  same_rows pred gt -> same_rows pred label ->
  let fg := filter foreground (box_entries pred gt label) in
  let r := hybrid_forward log L pred gt label in
  loss_of r ==
    nd.sum (map (fun e => - log (nd.minimum (iou_pair (fst (fst e)) (snd (fst e))
                                             + _eps L) 1)) fg)
    / nd.maximum (n2q (length fg)) 1 /\
  (_return_iou L = true ->
   r = LossAndIous (loss_of r) (nd.map2 (nd.map2 iou_pair) pred gt)) /\
  (_return_iou L = false -> r = Loss (loss_of r)).
Proof.
  intros Hg Hl fg r. subst r. unfold hybrid_forward.
  rewrite ious_of_rows.
  assert (E : nd.sum2 (ew2 Qmult
                         (ew1 (fun x => - log (nd.minimum (x + _eps L) 1))
                            (nd.map2 (nd.map2 iou_pair) pred gt))
                         (fg_mask_of label))
                / nd.maximum (nd.sum2 (fg_mask_of label)) 1
              == nd.sum (map (iou_term (_eps L)) fg)
                 / nd.maximum (n2q (length fg)) 1).
  { rewrite (tensor_loss_sum (_eps L) pred gt label Hg Hl).
    rewrite (maximum_comp_l _ _ 1 (tensor_mask_sum pred gt label Hg Hl)).
    reflexivity. }
  destruct (_return_iou L); simpl; (split; [exact E|]);
    split; intro H; try discriminate; reflexivity.
Qed.

End IOUFacts.

(** A stand-in for the logarithm in the examples: zero at 1, negative
    below. *)
Definition log_standin (x : Q) : Q := x - 1.

Definition iou_pred : cube := [[[0; 0; 1; 1]; [0; 0; 3; 3]]].
Definition iou_gt : cube := [[[0; 0; 1; 1]; [0; 0; 1; 1]]].
Definition iou_label : mat := [[1; 2]].

Example iou_example :
  IOULoss.ious_of iou_pred iou_gt = [[5 # 4; 5 # 16]].
Proof. vm_compute. reflexivity. Qed.

Lemma iou_loss_over_foreground_witness :
  IOULoss.loss_of
    (IOULoss.hybrid_forward log_standin (IOULoss.__init__ false 0 None 0)
       iou_pred iou_gt iou_label) == 11 # 32.
Proof.
  refine (Qeq_trans _ _ _
            (proj1 (iou_loss_over_foreground log_standin
                      (IOULoss.__init__ false 0 None 0)
                      iou_pred iou_gt iou_label _ _)) _).
  - repeat constructor.
  - repeat constructor.
  - vm_compute. reflexivity.
Defined.

(** ** The constructors' check of [num_class] *)

(** "[sparse_label] is true and [num_class] is not an int or is less
    than 1". *)
Definition num_class_rejected (sparse_label : bool) (num_class : py_value) : Prop :=
  sparse_label = true /\
  (isinstance_int num_class = false \/ (int_value num_class < 1)%Z).

Lemma bad_num_class_iff (sparse_label : bool) (num_class : py_value) :
  bad_num_class sparse_label num_class = true <->
  num_class_rejected sparse_label num_class.
Proof.
  unfold bad_num_class, num_class_rejected.
  rewrite andb_true_iff, orb_true_iff, negb_true_iff, Z.ltb_lt. reflexivity.
Qed.

Lemma bad_num_class_not (sparse_label : bool) (num_class : py_value) :
  ~ num_class_rejected sparse_label num_class ->
  bad_num_class sparse_label num_class = false.
Proof.
  intro N. destruct (bad_num_class sparse_label num_class) eqn:E; [|reflexivity].
  apply bad_num_class_iff in E. contradiction.
Qed.

(** C9, as amended.  [FocalLoss.__init__] and [SigmoidFocalLoss.__init__]
    raise [ValueError] exactly when [sparse_label] is true and [num_class]
    is not an int or is less than 1.  [MaskFCOSLoss.__init__] raises
    [ValueError] exactly when that holds or [img_shape] does not have
    exactly two entries (it is unpacked after the check).  Whenever a
    constructor does not raise, it returns the object that stores the
    arguments as they are. *)
Theorem constructors_check_num_class
    (axis batch_axis : Z) (alpha gamma eps : Q)
    (sparse_label from_logits size_average return_iou : bool)
    (weight : option Q) (num_class : py_value)
    (cls_lambd box_lambd ctr_lambd mask_lambd : Q) (img_shape : list Q) :
  let focal := FocalLoss.__init__ axis alpha gamma sparse_label from_logits
                 batch_axis weight num_class eps size_average in
  let sigmoid_focal := SigmoidFocalLoss.__init__ alpha gamma sparse_label
                         from_logits batch_axis weight num_class eps in
  let mask_fcos := MaskFCOSLoss.__init__ return_iou alpha gamma cls_lambd
                     box_lambd ctr_lambd mask_lambd img_shape sparse_label
                     from_logits num_class eps in
  let rejected := num_class_rejected sparse_label num_class in
  (focal = Raises ValueError <-> rejected) /\
  (sigmoid_focal = Raises ValueError <-> rejected) /\
  (mask_fcos = Raises ValueError <-> rejected \/ length img_shape <> 2%nat) /\
  (~ rejected ->
   focal = Ok {| FocalLoss._weight := weight;
                 FocalLoss._batch_axis := batch_axis;
                 FocalLoss._axis := axis;
                 FocalLoss._alpha := alpha;
                 FocalLoss._gamma := gamma;
                 FocalLoss._sparse_label := sparse_label;
                 FocalLoss._num_class := num_class;
                 FocalLoss._from_logits := from_logits;
                 FocalLoss._eps := eps;
                 FocalLoss._size_average := size_average |} /\
   sigmoid_focal = Ok {| SigmoidFocalLoss._weight := weight;
                         SigmoidFocalLoss._batch_axis := batch_axis;
                         SigmoidFocalLoss._alpha := alpha;
                         SigmoidFocalLoss._gamma := gamma;
                         SigmoidFocalLoss._sparse_label := sparse_label;
                         SigmoidFocalLoss._num_class := num_class;
                         SigmoidFocalLoss._from_logits := from_logits;
                         SigmoidFocalLoss._eps := eps |} /\
   forall weidth height, img_shape = [weidth; height] ->
   mask_fcos = Ok {| MaskFCOSLoss._return_iou := return_iou;
                     MaskFCOSLoss._eps := eps;
                     MaskFCOSLoss._alpha := alpha;
                     MaskFCOSLoss._gamma := gamma;
                     MaskFCOSLoss._cls_lambd := cls_lambd;
                     MaskFCOSLoss._box_lambd := box_lambd;
                     MaskFCOSLoss._ctr_lambd := ctr_lambd;
                     MaskFCOSLoss._mask_lambd := mask_lambd;
                     MaskFCOSLoss._sparse_label := sparse_label;
                     MaskFCOSLoss._num_class := num_class;
                     MaskFCOSLoss._from_logits := from_logits;
                     MaskFCOSLoss.gt_weidth := weidth;
                     MaskFCOSLoss.gt_height := height;
                     MaskFCOSLoss.max := 0 |}).
Proof.
  intros focal sigmoid_focal mask_fcos rejected.
  subst focal sigmoid_focal mask_fcos rejected.
  unfold FocalLoss.__init__, SigmoidFocalLoss.__init__, MaskFCOSLoss.__init__.
  destruct (bad_num_class sparse_label num_class) eqn:E.
  - apply bad_num_class_iff in E.
    split; [tauto|]. split; [tauto|]. split; [tauto|]. intro N. contradiction.
  - assert (N : ~ num_class_rejected sparse_label num_class).
    { intro R. apply bad_num_class_iff in R. congruence. }
    split; [split; [discriminate|tauto]|].
    split; [split; [discriminate|tauto]|].
    split.
    + destruct img_shape as [|a [|b [|c l]]]; simpl; split;
        try discriminate; try (intros _; right; lia); try reflexivity.
      intros [R|R]; [contradiction|lia].
    + intros _. split; [reflexivity|]. split; [reflexivity|].
      now intros weidth height ->.
Qed.

Example constructor_examples :
  FocalLoss.__init__ (-1) (1 # 4) 2 true false 0 None PyNone (1 # 1000) true
    = Raises ValueError
  /\ SigmoidFocalLoss.__init__ (1 # 4) 2 true false 0 None (PyInt 0) (1 # 1000)
    = Raises ValueError
  /\ MaskFCOSLoss.__init__ false (1 # 4) 2 1 1 1 (49 # 8) [740; 740] true false
       (PyFloat 3) (1 # 100000) = Raises ValueError
  /\ (exists L, FocalLoss.__init__ (-1) (1 # 4) 2 true false 0 None (PyBool true)
                  (1 # 1000) true = Ok L)
  /\ (exists L, SigmoidFocalLoss.__init__ (1 # 4) 2 false false 0 None PyNone
                  (1 # 1000) = Ok L)
  /\ (exists L, MaskFCOSLoss.__init__ false (1 # 4) 2 1 1 1 (49 # 8) [740; 740]
                  true false (PyInt 80) (1 # 100000) = Ok L
                /\ MaskFCOSLoss.gt_weidth L = 740).
Proof. repeat split; try reflexivity; eexists; try split; reflexivity. Qed.

Lemma constructors_check_num_class_witness :
  FocalLoss.__init__ (-1) (1 # 4) 2 true false 0 None (PyInt 0) (1 # 1000) true
  = Raises ValueError
  /\ MaskFCOSLoss.__init__ false (1 # 4) 2 1 1 1 1 [740] true false (PyInt 0)
       (1 # 1000) = Raises ValueError.
Proof.
  destruct (constructors_check_num_class (-1) 0 (1 # 4) 2 (1 # 1000)
              true false true false None (PyInt 0) 1 1 1 1 [740])
    as (Hf & _ & Hm & _).
  split.
  - apply Hf. split; [reflexivity|right; simpl; lia].
  - apply Hm. right. simpl. lia.
Defined.

(** C9 as stated fails for [MaskFCOSLoss.__init__]: with a valid
    [num_class] and an [img_shape] of three entries the constructor raises
    [ValueError], although [sparse_label] is true and [num_class] is an int
    that is not less than 1. *)
Lemma mask_fcos_constructor_counterexample :
  MaskFCOSLoss.__init__ false (1 # 4) 2 1 1 1 (49 # 8) [740; 740; 3] true false
    (PyInt 80) (1 # 100000) = Raises ValueError
  /\ ~ num_class_rejected true (PyInt 80).
Proof.
  split; [reflexivity|].
  intros [_ [H|H]]; [discriminate|simpl in H; lia].
Qed.

(** ** Tensors up to [==] *)

Definition veq : list Q -> list Q -> Prop := Forall2 Qeq.
Definition meq : mat -> mat -> Prop := Forall2 veq.
Definition teq : cube -> cube -> Prop := Forall2 meq.

Section TensorEq.

Lemma Forall2_length_eq {A B : Type} (R : A -> B -> Prop) (l1 : list A) (l2 : list B) :
  Forall2 R l1 l2 -> length l1 = length l2.
Proof. induction 1; simpl; congruence. Qed.

Lemma Forall2_nth_def {A B : Type} (R : A -> B -> Prop) (l1 : list A) (l2 : list B)
      (d1 : A) (d2 : B) (i : nat) :
  Forall2 R l1 l2 -> R d1 d2 -> R (nth i l1 d1) (nth i l2 d2).
Proof.
  intros H Hd. revert i. induction H; intros [|i]; simpl; auto.
Qed.

Lemma Forall2_bnth {A B : Type} (R : A -> B -> Prop) (l1 : list A) (l2 : list B)
      (d1 : A) (d2 : B) (i : nat) :
  Forall2 R l1 l2 -> R d1 d2 -> R (Loss.bnth l1 i d1) (Loss.bnth l2 i d2).
Proof.
  intros H Hd. unfold Loss.bnth.
  destruct H as [|a b l1 l2 Hab H]; [destruct i; exact Hd|].
  destruct H as [|a' b' l1 l2 Hab' H]; [exact Hab|].
  apply Forall2_nth_def; [|exact Hd]. repeat constructor; assumption.
Qed.

Lemma Forall2_map_seq {A B : Type} (R : A -> B -> Prop) (f : nat -> A)
      (g : nat -> B) (l : list nat) :
  (forall i, R (f i) (g i)) -> Forall2 R (map f l) (map g l).
Proof. intro H. induction l; simpl; constructor; auto. Qed.

Lemma Forall2_map_both {A B C D : Type} (R : C -> D -> Prop) (S : A -> B -> Prop)
      (f : A -> C) (g : B -> D) (l1 : list A) (l2 : list B) :
  (forall a b, S a b -> R (f a) (g b)) ->
  Forall2 S l1 l2 -> Forall2 R (map f l1) (map g l2).
Proof. intros H F. induction F; simpl; constructor; auto. Qed.

Lemma veq_refl (v : list Q) : veq v v.
Proof. induction v; constructor; [reflexivity|assumption]. Qed.

Lemma meq_refl (m : mat) : meq m m.
Proof. induction m; constructor; [apply veq_refl|assumption]. Qed.

Lemma teq_refl (x : cube) : teq x x.
Proof. induction x; constructor; [apply meq_refl|assumption]. Qed.

Lemma sum_veq (a b : list Q) : veq a b -> nd.sum a == nd.sum b.
Proof.
  induction 1 as [|x y a b Hxy H IH]; simpl; [reflexivity|].
  now rewrite Hxy, IH.
Qed.

Lemma mean_veq (a b : list Q) : veq a b -> nd.mean a == nd.mean b.
Proof.
  intro H. unfold nd.mean.
  rewrite (sum_veq a b H), (Forall2_length_eq _ _ _ H). reflexivity.
Qed.

Lemma concat_meq (a b : mat) : meq a b -> veq (concat a) (concat b).
Proof.
  induction 1 as [|x y a b Hxy H IH]; simpl; [constructor|].
  apply Forall2_app; assumption.
Qed.

Lemma teq_shape (x y : cube) : teq x y -> Loss.shape x = Loss.shape y.
Proof.
  unfold Loss.shape. induction 1 as [|mx my x y Hm H IH]; simpl; [reflexivity|].
  f_equal; [|exact IH].
  clear -Hm. induction Hm as [|vx vy mx my Hv Hm IH]; simpl; [reflexivity|].
  f_equal; [|exact IH]. apply (Forall2_length_eq _ _ _ Hv).
Qed.

Lemma ew1_teq (f : Q -> Q) (x y : cube) :
  (forall a b, a == b -> f a == f b) ->
  teq x y -> teq (Loss.ew1 f x) (Loss.ew1 f y).
Proof.
  intros Hf H. unfold Loss.ew1.
  apply (Forall2_map_both _ meq); [|exact H]. intros mx my Hm.
  apply (Forall2_map_both _ veq); [|exact Hm]. intros vx vy Hv.
  apply (Forall2_map_both _ Qeq); [|exact Hv]. exact Hf.
Qed.

Lemma bmap2_congr {A B C : Type} (RA : A -> A -> Prop) (RC : C -> C -> Prop)
      (f : A -> B -> C) (da : A) (db : B) (x x' : list A) (y : list B) :
  (forall a a' b, RA a a' -> RC (f a b) (f a' b)) ->
  RA da da -> Forall2 RA x x' ->
  Forall2 RC (Loss.bmap2 f da db x y) (Loss.bmap2 f da db x' y).
Proof.
  intros Hf Hd H. unfold Loss.bmap2.
  rewrite (Forall2_length_eq _ _ _ H).
  apply Forall2_map_seq. intro i. apply Hf. now apply Forall2_bnth.
Qed.

Lemma broadcast_mul_teq (x y s : cube) :
  teq x y -> teq (Loss.broadcast_mul x s) (Loss.broadcast_mul y s).
Proof.
  intro H. unfold Loss.broadcast_mul.
  apply (bmap2_congr meq meq); [|constructor|exact H].
  intros mx my ms Hm.
  apply (bmap2_congr veq veq); [|constructor|exact Hm].
  intros vx vy vs Hv.
  apply (bmap2_congr Qeq Qeq); [|reflexivity|exact Hv].
  intros a a' b E. now rewrite E.
Qed.

Lemma slices_teq (k : nat) (x y : cube) :
  teq x y -> Forall2 meq (Loss.slices k x) (Loss.slices k y).
Proof.
  intro H. unfold Loss.slices.
  destruct k as [|[|k]]; [exact H| |].
  - assert (E : length (nth 0 x []) = length (nth 0 y [])).
    { apply (Forall2_length_eq veq). apply Forall2_nth_def; [exact H|constructor]. }
    rewrite E. apply Forall2_map_seq. intro n.
    apply (Forall2_map_both _ meq); [|exact H]. intros mx my Hm.
    apply Forall2_nth_def; [exact Hm|constructor].
  - assert (E : length (nth 0 (nth 0 x []) []) = length (nth 0 (nth 0 y []) [])).
    { apply (Forall2_length_eq Qeq). apply Forall2_nth_def; [|constructor].
      apply Forall2_nth_def; [exact H|constructor]. }
    rewrite E. apply Forall2_map_seq. intro c.
    apply (Forall2_map_both _ meq); [|exact H]. intros mx my Hm.
    apply (Forall2_map_both _ veq); [|exact Hm]. intros vx vy Hv.
    apply Forall2_nth_def; [exact Hv|reflexivity].
Qed.

(** The weighting and the reduction of the base class respect [==]. *)
Lemma apply_weighting_teq (x y : cube) (w : option Q) (sw : option cube) (ty : cube) :
  teq x y -> Loss._apply_weighting y w sw = Ok ty ->
  exists tx, Loss._apply_weighting x w sw = Ok tx /\ teq tx ty.
Proof.
  intros H. unfold Loss._apply_weighting, Loss.broadcastable.
  rewrite (teq_shape x y H).
  assert (W : forall a b, teq a b ->
                teq match w with Some w0 => Loss.ew1 (fun v => v * w0) a | None => a end
                    match w with Some w0 => Loss.ew1 (fun v => v * w0) b | None => b end).
  { intros a b Hab. destruct w as [w0|]; [|exact Hab].
    apply ew1_teq; [|exact Hab]. intros u v E. now rewrite E. }
  destruct sw as [s|].
  - destruct (Loss.broadcastable_shapes (Loss.shape y) (Loss.shape s));
      [|discriminate].
    intro E. injection E as <-. eexists. split; [reflexivity|].
    apply W. now apply broadcast_mul_teq.
  - intro E. injection E as <-. eexists. split; [reflexivity|]. now apply W.
Qed.

Lemma reduce_exclude_teq (average : bool) (a : Z) (x y : cube) (ry : list Q) :
  teq x y -> Loss.reduce_exclude average a y = Ok ry ->
  exists rx, Loss.reduce_exclude average a x = Ok rx /\ veq rx ry.
Proof.
  intro H. unfold Loss.reduce_exclude.
  destruct (Loss.axis_of a) as [k|]; [|discriminate].
  intro E. injection E as <-. eexists. split; [reflexivity|].
  apply (Forall2_map_both _ meq); [|now apply slices_teq].
  intros mx my Hm. destruct average; unfold Loss.mean_of, Loss.sum_of.
  - apply mean_veq. now apply concat_meq.
  - apply sum_veq. now apply concat_meq.
Qed.

End TensorEq.

(** *** The weighting, entry by entry *)

(** The index read on an axis of length [len] for the index [i] of the
    loss: an axis of length one is read at 0, whatever the index. *)
Definition broadcast_index (len i : nat) : nat :=
  if Nat.eqb len 1 then 0%nat else i.

(** The factor [s] of the entry (b, n, c) of the loss: the entry of
    [sample_weight] that is broadcast there, 1 without a sample weight. *)
Definition sample_factor (sw : option cube) (b n c : nat) : Q :=
  match sw with
  | None => 1
  | Some s =>
      let m := nth (broadcast_index (length s) b) s [] in
      let r := nth (broadcast_index (length m) n) m [] in
      nth (broadcast_index (length r) c) r 0
  end.

(** The factor [w]: the global weight, 1 without one. *)
Definition weight_factor (w : option Q) : Q :=
  match w with
  | Some w => w
  | None => 1
  end.

(** An axis of the sample weight fits an axis of the loss when it has its
    length, or the length one. *)
Definition fits_axis (ls lx : nat) : bool :=
  Nat.eqb ls lx || (Nat.eqb ls 1 && Nat.ltb 0 lx).

(** [s] broadcasts to the shape of [x]. *)
Definition fits (s x : cube) : bool :=
  fits_axis (length s) (length x) &&
  forallb (fun b =>
             let sb := nth (broadcast_index (length s) b) s [] in
             let xb := nth b x [] in
             fits_axis (length sb) (length xb) &&
             forallb (fun n =>
                        fits_axis
                          (length (nth (broadcast_index (length sb) n) sb []))
                          (length (nth n xb [])))
                     (seq 0 (length xb)))
          (seq 0 (length x)).

(** The tensor of the shape of [x] whose entry (b, n, c) is [g b n c] of
    the entry of [x]. *)
Definition by_index (x : cube) (g : nat -> nat -> nat -> Q -> Q) : cube :=
  map (fun b =>
         map (fun n =>
                map (fun c => g b n c (nth c (nth n (nth b x []) []) 0))
                    (seq 0 (length (nth n (nth b x []) []))))
             (seq 0 (length (nth b x []))))
      (seq 0 (length x)).

Section ByIndex.

Lemma bnth_lt {A : Type} (l : list A) (i : nat) (d : A) :
  (i < length l)%nat -> Loss.bnth l i d = nth i l d.
Proof.
  intro H. unfold Loss.bnth.
  destruct l as [|v [|w l]]; try reflexivity.
  simpl in H. now replace i with 0%nat by lia.
Qed.

Lemma Forall2_map_in {A B C : Type} (R : B -> C -> Prop) (f : A -> B) (g : A -> C)
      (l : list A) :
  (forall i, In i l -> R (f i) (g i)) -> Forall2 R (map f l) (map g l).
Proof.
  intro H. induction l as [|a l IH]; simpl; constructor.
  - apply H. now left.
  - apply IH. intros i Hi. apply H. now right.
Qed.

Lemma Forall2_trans {A : Type} (R : A -> A -> Prop) :
  (forall x y z, R x y -> R y z -> R x z) ->
  forall a b c, Forall2 R a b -> Forall2 R b c -> Forall2 R a c.
Proof.
  intros T a b c H. revert c. induction H as [|x y a b Hxy H IH]; intros c Hc;
    inversion Hc; subst; constructor.
  - eapply T; eassumption.
  - now apply IH.
Qed.

Lemma veq_trans (a b c : list Q) : veq a b -> veq b c -> veq a c.
Proof. apply Forall2_trans. intros x y z. apply Qeq_trans. Qed.

Lemma meq_trans (a b c : mat) : meq a b -> meq b c -> meq a c.
Proof. apply Forall2_trans. exact veq_trans. Qed.

Lemma teq_trans (a b c : cube) : teq a b -> teq b c -> teq a c.
Proof. apply Forall2_trans. exact meq_trans. Qed.

Lemma map_seq_nth {A B : Type} (f : A -> B) (l : list A) (d : A) :
  map (fun i => f (nth i l d)) (seq 0 (length l)) = map f l.
Proof. now rewrite <- (map_map (fun i => nth i l d) f), map_nth_seq. Qed.

Lemma by_index_plain (x : cube) (f : Q -> Q) :
  by_index x (fun _ _ _ v => f v) = Loss.ew1 f x.
Proof.
  unfold by_index, Loss.ew1.
  rewrite <- (map_seq_nth (map (map f)) x []).
  apply map_ext. intro b.
  rewrite <- (map_seq_nth (map f) (nth b x []) []).
  apply map_ext. intro n.
  apply (map_seq_nth f).
Qed.

Lemma length_by_index (x : cube) g : length (by_index x g) = length x.
Proof. unfold by_index. now rewrite length_map, length_seq. Qed.

Lemma by_index_row (x : cube) g (b : nat) :
  (b < length x)%nat ->
  nth b (by_index x g) []
  = map (fun n =>
           map (fun c => g b n c (nth c (nth n (nth b x []) []) 0))
               (seq 0 (length (nth n (nth b x []) []))))
        (seq 0 (length (nth b x []))).
Proof.
  intro H. unfold by_index.
  rewrite (nth_map_lt _ _ _ 0%nat) by (now rewrite length_seq).
  now rewrite seq_nth.
Qed.

Lemma by_index_col (x : cube) g (b n : nat) :
  (b < length x)%nat -> (n < length (nth b x []))%nat ->
  nth n (nth b (by_index x g) []) []
  = map (fun c => g b n c (nth c (nth n (nth b x []) []) 0))
        (seq 0 (length (nth n (nth b x []) []))).
Proof.
  intros Hb Hn. rewrite by_index_row by exact Hb.
  rewrite (nth_map_lt _ _ _ 0%nat) by (now rewrite length_seq).
  now rewrite seq_nth.
Qed.

Lemma by_index_entry (x : cube) g (b n c : nat) :
  (b < length x)%nat -> (n < length (nth b x []))%nat ->
  (c < length (nth n (nth b x []) []))%nat ->
  nth c (nth n (nth b (by_index x g) []) []) 0
  = g b n c (nth c (nth n (nth b x []) []) 0).
Proof.
  intros Hb Hn Hc. rewrite by_index_col by assumption.
  rewrite (nth_map_lt _ _ _ 0%nat) by (now rewrite length_seq).
  now rewrite seq_nth.
Qed.

Lemma by_index_shape (x : cube) g : Loss.shape (by_index x g) = Loss.shape x.
Proof.
  unfold Loss.shape, by_index. rewrite map_map.
  rewrite <- (map_seq_nth (map (@length Q)) x []).
  apply map_ext. intro b. rewrite map_map.
  rewrite <- (map_seq_nth (@length Q) (nth b x []) []).
  apply map_ext. intro n. now rewrite length_map, length_seq.
Qed.

Lemma by_index_teq (x : cube) g g' :
  (forall b n c, (b < length x)%nat -> (n < length (nth b x []))%nat ->
                 (c < length (nth n (nth b x []) []))%nat ->
                 g b n c (nth c (nth n (nth b x []) []) 0)
                 == g' b n c (nth c (nth n (nth b x []) []) 0)) ->
  teq (by_index x g) (by_index x g').
Proof.
  intro H. unfold by_index, teq, meq, veq.
  apply Forall2_map_in. intros b Hb. apply in_seq in Hb.
  apply Forall2_map_in. intros n Hn. apply in_seq in Hn.
  apply Forall2_map_in. intros c Hc. apply in_seq in Hc.
  apply H; lia.
Qed.

(** Entries of a tensor given by index, changed by index again. *)
Lemma by_index_twice (x : cube) g g' :
  by_index (by_index x g) g'
  = by_index x (fun b n c v => g' b n c (g b n c v)).
Proof.
  remember (by_index x g) as y eqn:Ey. unfold by_index.
  assert (L0 : length y = length x) by (subst y; apply length_by_index).
  rewrite L0. apply map_ext_in. intros b Hb. apply in_seq in Hb.
  assert (L1 : length (nth b y []) = length (nth b x [])).
  { subst y. rewrite by_index_row by lia. now rewrite length_map, length_seq. }
  rewrite L1. apply map_ext_in. intros n Hn. apply in_seq in Hn.
  assert (L2 : length (nth n (nth b y []) []) = length (nth n (nth b x []) [])).
  { subst y. rewrite by_index_col by lia. now rewrite length_map, length_seq. }
  rewrite L2. apply map_ext_in. intros c Hc. apply in_seq in Hc.
  subst y. rewrite by_index_entry by lia. reflexivity.
Qed.

(** Broadcasting, for a sample weight that fits. *)

Lemma bnth_index {A : Type} (l : list A) (i : nat) (d : A) :
  Loss.bnth l i d = nth (broadcast_index (length l) i) l d.
Proof. destruct l as [|v [|u l]]; reflexivity. Qed.

Lemma broadcast_index_lt (len i : nat) :
  (i < len)%nat -> broadcast_index len i = i.
Proof. intro H. unfold broadcast_index. destruct (Nat.eqb_spec len 1); lia. Qed.

Lemma fits_axis_max (ls lx : nat) :
  fits_axis ls lx = true -> Nat.max lx ls = lx.
Proof.
  unfold fits_axis. rewrite orb_true_iff, andb_true_iff, !Nat.eqb_eq, Nat.ltb_lt.
  lia.
Qed.

Lemma fits_axis_blen (ls lx : nat) :
  fits_axis ls lx = true -> Loss.blen lx ls = true.
Proof.
  unfold fits_axis, Loss.blen.
  rewrite !orb_true_iff, andb_true_iff, !Nat.eqb_eq. intros [H|[H _]]; auto.
Qed.

Lemma bmap2_fits {A B C : Type} (f : A -> B -> C) (da : A) (db : B)
      (x : list A) (y : list B) :
  fits_axis (length y) (length x) = true ->
  Loss.bmap2 f da db x y
  = map (fun i => f (nth i x da) (nth (broadcast_index (length y) i) y db))
        (seq 0 (length x)).
Proof.
  intro H. unfold Loss.bmap2. rewrite (fits_axis_max _ _ H).
  apply map_ext_in. intros i Hi. apply in_seq in Hi.
  rewrite bnth_lt by lia. now rewrite bnth_index.
Qed.

Lemma fits_rows (s x : cube) (b : nat) :
  fits s x = true -> (b < length x)%nat ->
  fits_axis (length (nth (broadcast_index (length s) b) s []))
            (length (nth b x [])) = true.
Proof.
  unfold fits. rewrite andb_true_iff, forallb_forall. intros [_ H] Hb.
  specialize (H b ltac:(apply in_seq; lia)). cbv zeta in H.
  now apply andb_true_iff in H.
Qed.

Lemma fits_cols (s x : cube) (b n : nat) :
  fits s x = true -> (b < length x)%nat -> (n < length (nth b x []))%nat ->
  let sb := nth (broadcast_index (length s) b) s [] in
  fits_axis (length (nth (broadcast_index (length sb) n) sb []))
            (length (nth n (nth b x []) [])) = true.
Proof.
  unfold fits. rewrite andb_true_iff, forallb_forall. intros [_ H] Hb Hn.
  specialize (H b ltac:(apply in_seq; lia)). cbv zeta in H.
  apply andb_true_iff in H. destruct H as [_ H].
  rewrite forallb_forall in H. apply H. apply in_seq. lia.
Qed.

Lemma broadcast_mul_fits (x s : cube) :
  fits s x = true ->
  Loss.broadcast_mul x s
  = by_index x (fun b n c v => v * sample_factor (Some s) b n c).
Proof.
  intro H. unfold Loss.broadcast_mul, by_index.
  rewrite bmap2_fits by (unfold fits in H; now apply andb_true_iff in H).
  apply map_ext_in. intros b Hb. apply in_seq in Hb.
  rewrite bmap2_fits by (apply fits_rows; [exact H|lia]).
  apply map_ext_in. intros n Hn. apply in_seq in Hn.
  rewrite bmap2_fits by (apply (fits_cols s x b n); [exact H|lia|lia]).
  reflexivity.
Qed.

Lemma broadcastable_fits (x s : cube) :
  fits s x = true -> Loss.broadcastable x s = true.
Proof.
  intro H. pose proof H as H0. unfold fits in H0.
  apply andb_true_iff in H0. destruct H0 as [H0 _].
  unfold Loss.broadcastable, Loss.broadcastable_shapes, Loss.shape.
  rewrite !length_map. apply andb_true_iff. split; [now apply fits_axis_blen|].
  rewrite (fits_axis_max _ _ H0).
  apply forallb_forall. intros b Hb. apply in_seq in Hb. cbv zeta.
  pose proof (fits_rows s x b H ltac:(lia)) as Hr.
  rewrite !bnth_index, !length_map.
  rewrite (broadcast_index_lt (length x) b) by lia.
  rewrite (nth_map_lt (map (@length Q)) x b [] []) by lia.
  assert (Es : nth (broadcast_index (length s) b) (map (map (@length Q)) s) []
               = map (@length Q) (nth (broadcast_index (length s) b) s [])).
  { change (@nil nat) with (map (@length Q) []). apply map_nth. }
  rewrite Es, !length_map.
  apply andb_true_iff. split; [now apply fits_axis_blen|].
  rewrite (fits_axis_max _ _ Hr).
  apply forallb_forall. intros n Hn. apply in_seq in Hn.
  pose proof (fits_cols s x b n H ltac:(lia) ltac:(lia)) as Hc. cbv zeta in Hc.
  rewrite !bnth_index, !length_map.
  rewrite (broadcast_index_lt (length (nth b x [])) n) by lia.
  rewrite (nth_map_lt (@length Q) (nth b x []) n [] 0%nat) by lia.
  apply fits_axis_blen. rewrite <- (map_nth (@length Q)) in Hc. exact Hc.
Qed.

Lemma forallb_same {A : Type} (f g : A -> bool) (l : list A) :
  (forall a, In a l -> f a = g a) -> forallb f l = forallb g l.
Proof.
  intro H. induction l as [|a l IH]; simpl; [reflexivity|].
  rewrite (H a) by now left. f_equal. apply IH. intros x Hx. apply H. now right.
Qed.

Lemma fits_shape (s x x' : cube) :
  Loss.shape x = Loss.shape x' -> fits s x = fits s x'.
Proof.
  intro E.
  assert (L0 : length x = length x').
  { apply (f_equal (@length _)) in E. unfold Loss.shape in E.
    now rewrite !length_map in E. }
  assert (L1 : forall b, (b < length x)%nat ->
                 map (@length Q) (nth b x []) = map (@length Q) (nth b x' [])).
  { intros b Hb. apply (f_equal (fun l => nth b l [])) in E.
    unfold Loss.shape in E.
    rewrite !(nth_map_lt _ _ _ []) in E by lia. exact E. }
  unfold fits. rewrite <- L0. f_equal.
  apply forallb_same. intros b Hb. apply in_seq in Hb. cbv zeta.
  pose proof (L1 b ltac:(lia)) as Eb.
  assert (Lb : length (nth b x []) = length (nth b x' [])).
  { apply (f_equal (@length _)) in Eb. now rewrite !length_map in Eb. }
  rewrite <- Lb. f_equal.
  apply forallb_same. intros n Hn. apply in_seq in Hn.
  apply (f_equal (fun l => nth n l 0%nat)) in Eb.
  rewrite !(nth_map_lt _ _ _ []) in Eb by lia. now rewrite Eb.
Qed.

End ByIndex.

(** ** The focal loss, entry by entry *)

Section FocalFacts.

Import FocalLoss.

Variable sigmoid : Q -> Q.
Variable log : Q -> Q.
Variable power : Q -> Q -> Q.

(** The focal term of one score [x], at a one-hot position or not:
    [-alpha_t * (1 - p_t)^gamma * log(min(p_t + eps, 1))]. *)
Definition focal_elem (L : t) (hot : bool) (x : Q) : Q :=
  let p := if _from_logits L then x else sigmoid x in
  let p_t := if hot then p else 1 - p in
  let alpha_t := if hot then _alpha L else 1 - _alpha L in
  - alpha_t * power (1 - p_t) (_gamma L) * log (nd.minimum (p_t + _eps L) 1).

(** The focal terms of the scores of one anchor with label [l]: position
    [c] is the one-hot position when [c = l]. *)
Definition focal_row_from (L : t) (s : nat) (scores : list Q) (l : Z) : list Q :=
  map (fun cx => focal_elem L (Z.of_nat (fst cx) =? l)%Z (snd cx))
      (combine (seq s (length scores)) scores).

Definition focal_row (L : t) (scores : list Q) (l : Z) : list Q :=
  focal_row_from L 0 scores l.

Definition focal_terms (L : t) (pred : cube) (label : list (list Z)) : cube :=
  nd.map2 (nd.map2 (focal_row L)) pred label.

(** The same entries as [focal_tensor] computes them, for one anchor. *)
Definition code_row (L : t) (oh scores : list Q) : list Q :=
  let pt := nd.map2 (fun o p => nd.where_ o p (1 - p)) oh scores in
  let t := map (fun _ => 1) oh in
  let alpha :=
    nd.map2 (fun o t => nd.where_ o (_alpha L * t) ((1 - _alpha L) * t)) oh t in
  nd.map2 Qmult
    (nd.map2 (fun a p => - a * power (1 - p) (_gamma L)) alpha pt)
    (map (fun p => log (nd.minimum (p + _eps L) 1)) pt).

Lemma focal_tensor_rows (L : t) (pred one_hot : cube) :
  focal_tensor log power L pred one_hot =
  nd.map2 (nd.map2 (code_row L)) one_hot pred.
Proof.
  unfold focal_tensor, Loss.ew1, Loss.ew2.
  revert pred. induction one_hot as [|mo one_hot IH]; intros [|mp pred]; simpl;
    try reflexivity.
  f_equal; [|apply IH].
  clear. revert mp. induction mo as [|vo mo IHm]; intros [|vp mp]; simpl;
    try reflexivity.
  f_equal. apply IHm.
Qed.

Definition scores_of (L : t) (scores : list Q) : list Q :=
  if _from_logits L then scores else map sigmoid scores.

Lemma code_row_focal_row (L : t) (s : nat) (scores : list Q) (l : Z) :
  veq (code_row L (map (fun c => b2q (Z.of_nat c =? l)%Z) (seq s (length scores)))
         (scores_of L scores))
      (focal_row_from L s scores l).
Proof.
  revert s. induction scores as [|x scores IH]; intro s.
  - unfold scores_of. destruct (_from_logits L); constructor.
  - specialize (IH (S s)).
    unfold focal_row_from, scores_of, code_row in *.
    unfold focal_elem in *.
    destruct (_from_logits L); simpl; (constructor; [|exact IH]);
      destruct (Z.of_nat s =? l)%Z; simpl; unfold nd.where_; simpl; ring.
Qed.

Lemma focal_tensor_terms (L : t) (pred : cube) (label : list (list Z)) :
  let depth := Z.to_nat (int_value (_num_class L)) in
  same_rows pred label ->
  Forall (Forall (fun s => length s = depth)) pred ->
  teq (focal_tensor log power L
         (if _from_logits L then pred else Loss.ew1 sigmoid pred)
         (map (map (fun c => nd.one_hot c depth)) label))
      (focal_terms L pred label).
Proof.
  intros depth Hr Hd. rewrite focal_tensor_rows. unfold focal_terms.
  assert (E : (if _from_logits L then pred else Loss.ew1 sigmoid pred)
              = map (map (scores_of L)) pred).
  { unfold scores_of, Loss.ew1. destruct (_from_logits L); [|reflexivity].
    rewrite <- (map_id pred) at 1. apply map_ext. intro m.
    rewrite <- (map_id m) at 1. reflexivity. }
  rewrite E. clear E. unfold same_rows in Hr.
  induction Hr as [|mp ml pred label Hlen Hr IH]; simpl; [constructor|].
  inversion Hd as [|? ? Hm Hd']; subst. constructor; [|now apply IH].
  clear -Hlen Hm. revert ml Hlen.
  induction mp as [|scores mp IHm]; intros [|l ml] Hlen; simpl in *;
    try discriminate; [constructor|].
  inversion Hm as [|? ? Hs Hm']; subst. constructor.
  - unfold nd.one_hot. rewrite <- Hs. apply code_row_focal_row.
  - apply IHm; [exact Hm'|congruence].
Qed.

Lemma one_hot_shape (L : t) (pred : cube) (label : list (list Z)) :
  let depth := Z.to_nat (int_value (_num_class L)) in
  same_rows pred label ->
  Forall (Forall (fun s => length s = depth)) pred ->
  Loss.same_shape (map (map (fun c => nd.one_hot c depth)) label)
    (if _from_logits L then pred else Loss.ew1 sigmoid pred) = true.
Proof.
  intros depth Hr Hd. unfold Loss.same_shape.
  match goal with |- (if ?d then _ else _) = _ => destruct d as [_|N] end;
    [reflexivity|exfalso; apply N; clear N].
  assert (E : Loss.shape (if _from_logits L then pred else Loss.ew1 sigmoid pred)
              = Loss.shape pred).
  { destruct (_from_logits L); [reflexivity|].
    unfold Loss.shape, Loss.ew1. rewrite map_map. apply map_ext. intro m.
    rewrite map_map. apply map_ext. intro v. apply length_map. }
  rewrite E. clear E. unfold Loss.shape, same_rows in *.
  induction Hr as [|mp ml pred label Hlen Hr IH]; simpl; [reflexivity|].
  inversion Hd as [|? ? Hm Hd']; subst. f_equal; [|now apply IH].
  clear -Hlen Hm. revert ml Hlen.
  induction mp as [|scores mp IHm]; intros [|l ml] Hlen; simpl in *;
    try discriminate; [reflexivity|].
  inversion Hm as [|? ? Hs Hm']; subst. f_equal.
  - unfold nd.one_hot. now rewrite length_map, length_seq.
  - apply IHm; [exact Hm'|congruence].
Qed.

End FocalFacts.

Section FocalTheorems.

Import FocalLoss.

Variable sigmoid : Q -> Q.
Variable log : Q -> Q.
Variable power : Q -> Q -> Q.

Local Abbreviation hybrid_forward := (hybrid_forward sigmoid log power).

(** [hybrid_forward] weights and reduces the focal terms. *)
Lemma focal_forward_value (L : t) (pred : cube) (label : list (list Z))
      (sw : option cube) (weighted : cube) (r : list Q) :
  _sparse_label L = true ->
  same_rows pred label ->
  Forall (Forall (fun s => length s = Z.to_nat (int_value (_num_class L)))) pred ->
  Loss._apply_weighting (focal_terms sigmoid log power L pred label) (_weight L) sw = Ok weighted ->
  Loss.reduce_exclude (_size_average L) (_batch_axis L) weighted = Ok r ->
  exists out, hybrid_forward L pred (SparseLabels label) sw = Ok out /\ veq out r.
Proof.
  intros Hs Hr Hd Hw Hred. unfold FocalLoss.hybrid_forward, one_hot_of.
  rewrite Hs. rewrite (one_hot_shape sigmoid L pred label Hr Hd). simpl negb. cbv iota.
  destruct (apply_weighting_teq _ _ _ _ _
              (focal_tensor_terms sigmoid log power L pred label Hr Hd) Hw)
    as [tx [Etx Htx]].
  rewrite Etx.
  destruct (reduce_exclude_teq _ _ _ _ _ Htx Hred) as [rx [Erx Hrx]].
  exists rx. split; assumption.
Qed.

(** The weighted focal terms: the entry (b, n, c) is [w * s * term], with
    the focal term of the score [pred[b][n][c]], the class [c] being the
    one-hot position when it is the label of the anchor. *)
Definition weighted_terms (L : t) (pred : cube) (label : list (list Z))
  (sw : option cube) : cube :=
  by_index pred
    (fun b n c x =>
       weight_factor (_weight L) * sample_factor sw b n c
       * focal_elem sigmoid log power L (Z.of_nat c =? nth n (nth b label []) 0%Z)%Z x).

Lemma combine_seq {A : Type} (l : list A) (d : A) (a : nat) :
  combine (seq a (length l)) l
  = map (fun c => (c, nth (c - a) l d)) (seq a (length l)).
Proof.
  revert a. induction l as [|x l IH]; intro a; simpl; [reflexivity|].
  rewrite Nat.sub_diag. f_equal. rewrite IH.
  apply map_ext_in. intros c Hc. apply in_seq in Hc.
  replace (c - a)%nat with (S (c - S a)) by lia. reflexivity.
Qed.

Lemma focal_row_by_index (L : t) (scores : list Q) (l : Z) :
  focal_row sigmoid log power L scores l
  = map (fun c => focal_elem sigmoid log power L (Z.of_nat c =? l)%Z (nth c scores 0))
        (seq 0 (length scores)).
Proof.
  unfold focal_row, focal_row_from. rewrite (combine_seq scores 0), map_map.
  apply map_ext. intro c. simpl. now rewrite Nat.sub_0_r.
Qed.

Lemma same_rows_row {A B : Type} (x : list (list A)) (y : list (list B)) (b : nat) :
  same_rows x y -> length (nth b x []) = length (nth b y []).
Proof. intro H. now apply (Forall2_nth_def _ x y [] [] b H). Qed.

Lemma focal_terms_by_index (L : t) (pred : cube) (label : list (list Z)) :
  same_rows pred label ->
  focal_terms sigmoid log power L pred label
  = by_index pred
      (fun b n c x => focal_elem sigmoid log power L (Z.of_nat c =? nth n (nth b label []) 0%Z)%Z x).
Proof.
  intro H. pose proof (Forall2_length_eq _ _ _ H) as L0.
  unfold focal_terms, by_index.
  rewrite (map2_by_index _ pred label [] []) by exact L0.
  rewrite <- L0. apply map_ext. intro b.
  pose proof (same_rows_row pred label b H) as L1.
  rewrite (map2_by_index _ (nth b pred []) (nth b label []) [] 0%Z) by exact L1.
  rewrite <- L1. apply map_ext. intro n.
  apply focal_row_by_index.
Qed.

(** What [_apply_weighting] makes of the focal terms. *)
Lemma focal_weighting (L : t) (pred : cube) (label : list (list Z))
      (sw : option cube) :
  same_rows pred label ->
  (forall s, sw = Some s -> fits s pred = true) ->
  exists W,
    Loss._apply_weighting (focal_terms sigmoid log power L pred label) (_weight L) sw = Ok W /\
    teq W (weighted_terms L pred label sw).
Proof.
  intros Hr Hf. rewrite (focal_terms_by_index L pred label Hr).
  set (g := fun (b n c : nat) (x : Q) =>
              focal_elem sigmoid log power L (Z.of_nat c =? nth n (nth b label []) 0%Z)%Z x).
  assert (W : forall h,
            exists W,
              Ok match _weight L with
                 | Some w0 => Loss.ew1 (fun v => v * w0) (by_index pred h)
                 | None => by_index pred h
                 end = Ok W /\
              teq W (by_index pred
                       (fun b n c x => h b n c x * weight_factor (_weight L)))).
  { intro h. eexists. split; [reflexivity|].
    destruct (_weight L) as [w0|]; simpl.
    - rewrite <- (by_index_plain (by_index pred h)), by_index_twice.
      apply teq_refl.
    - apply by_index_teq. intros. ring. }
  unfold Loss._apply_weighting. destruct sw as [s|].
  - specialize (Hf s eq_refl).
    assert (Hf' : fits s (by_index pred g) = true).
    { rewrite (fits_shape s _ pred); [exact Hf|apply by_index_shape]. }
    rewrite (broadcastable_fits _ _ Hf'), (broadcast_mul_fits _ _ Hf').
    rewrite by_index_twice.
    destruct (W (fun b n c v => g b n c v * sample_factor (Some s) b n c))
      as [X [EX HX]].
    exists X. split; [exact EX|].
    eapply teq_trans; [exact HX|].
    apply by_index_teq. intros. unfold g. ring.
  - destruct (W g) as [X [EX HX]].
    exists X. split; [exact EX|].
    eapply teq_trans; [exact HX|].
    apply by_index_teq. intros. unfold g. simpl. ring.
Qed.

(** C6, as amended.  With [sparse_label] set and a valid [num_class], for
    a sample weight that broadcasts to the shape of [pred] (each of its
    axes has the length of the axis of [pred], or the length one),
    [FocalLoss.hybrid_forward] returns one number per index of the batch
    axis: the mean ([size_average]) or the sum, over the other axes, of
    [w * s * term].  Here [term] is the focal term of a score,
    [-alpha_t * (1 - p_t)^gamma * log(min(p_t + eps, 1))], with [p_t] the
    score (after [sigmoid] unless [from_logits]) at the one-hot position and
    one minus it elsewhere, and [alpha_t] being [alpha] at the one-hot
    position and [1 - alpha] elsewhere; [s] is the entry of [sample_weight]
    broadcast to the entry, 1 without a sample weight; [w] is the global
    [weight], 1 without one.  With the batch on axis 0 the result has one
    entry per sample. *)
Theorem focal_loss_weighted_formula (L : t) (pred : cube) (label : list (list Z))
    (sw : option cube) (k : nat) :
  _sparse_label L = true ->
  isinstance_int (_num_class L) = true ->
  (1 <= int_value (_num_class L))%Z ->
  same_rows pred label ->
  Forall (Forall (fun s => length s = Z.to_nat (int_value (_num_class L)))) pred ->
  Loss.axis_of (_batch_axis L) = Some k ->
  (forall s, sw = Some s -> fits s pred = true) ->
  let weighted := weighted_terms L pred label sw in
  let reduce := fun entries : mat =>
                  if _size_average L then nd.mean (concat entries)
                  else nd.sum (concat entries) in
  exists out,
    hybrid_forward L pred (SparseLabels label) sw = Ok out /\
    veq out (map reduce (Loss.slices k weighted)) /\
    length out = length (Loss.slices k weighted) /\
    Loss.shape weighted = Loss.shape pred /\
    (forall b n c,
       (b < length pred)%nat -> (n < length (nth b pred []))%nat ->
       (c < length (nth n (nth b pred []) []))%nat ->
       nth c (nth n (nth b weighted []) []) 0
       = weight_factor (_weight L) * sample_factor sw b n c
         * focal_elem sigmoid log power L
             (Z.of_nat c =? nth n (nth b label []) 0%Z)%Z
             (nth c (nth n (nth b pred []) []) 0)) /\
    (_weight L = None -> sw = None ->
     teq weighted (focal_terms sigmoid log power L pred label)) /\
    (k = 0%nat ->
     length out = length pred /\
     forall b, (b < length pred)%nat ->
               nth b out 0 == reduce (nth b weighted [])).
Proof.
  intros Hs _ _ Hr Hd Hk Hf weighted reduce.
  destruct (focal_weighting L pred label sw Hr Hf) as [W [EW HW]].
  assert (Hred : Loss.reduce_exclude (_size_average L) (_batch_axis L) W
                 = Ok (map reduce (Loss.slices k W))).
  { unfold Loss.reduce_exclude. rewrite Hk. f_equal.
    apply map_ext. intro m. unfold reduce. now destruct (_size_average L). }
  destruct (focal_forward_value L pred label sw W _ Hs Hr Hd EW Hred)
    as [out [Eo Ho]].
  assert (Hv : veq out (map reduce (Loss.slices k weighted))).
  { eapply veq_trans; [exact Ho|].
    apply (Forall2_map_both _ meq); [|now apply slices_teq].
    intros mx my Hm. unfold reduce. destruct (_size_average L).
    - apply mean_veq. now apply concat_meq.
    - apply sum_veq. now apply concat_meq. }
  assert (Lo : length out = length (Loss.slices k weighted)).
  { rewrite (Forall2_length_eq _ _ _ Hv). apply length_map. }
  exists out. split; [exact Eo|]. split; [exact Hv|]. split; [exact Lo|].
  split; [apply by_index_shape|].
  split; [intros b n c Hb Hn Hc; unfold weighted, weighted_terms;
          now rewrite by_index_entry|].
  split.
  - intros Hw0 Hsw. unfold weighted, weighted_terms.
    rewrite (focal_terms_by_index L pred label Hr), Hw0, Hsw.
    apply by_index_teq. intros. simpl. ring.
  - intros ->. split.
    + rewrite Lo. apply length_by_index.
    + intros b Hb.
      assert (E : nth b (map reduce weighted) 0 = reduce (nth b weighted [])).
      { apply nth_map_lt. unfold weighted, weighted_terms.
        now rewrite length_by_index. }
      rewrite <- E. apply Forall2_nth_def; [exact Hv|reflexivity].
Qed.

End FocalTheorems.

(** A loss with a global weight of 2, one sample, one anchor, one class. *)
Definition weighted_focal : FocalLoss.t :=
  {| FocalLoss._weight := Some 2;
     FocalLoss._batch_axis := 0;
     FocalLoss._axis := -1;
     FocalLoss._alpha := 1 # 4;
     FocalLoss._gamma := 2;
     FocalLoss._sparse_label := true;
     FocalLoss._num_class := PyInt 1;
     FocalLoss._from_logits := true;
     FocalLoss._eps := 0;
     FocalLoss._size_average := true |}.

Definition focal_pred : cube := [[[1 # 2]]].
Definition focal_label : list (list Z) := [[0%Z]].

(** C6 as stated fails: with a global weight the result is not the mean
    of the focal terms.  For [weighted_focal] the result is twice that
    mean, whatever [sigmoid], [log] and [power] are, as long as the focal
    term of the score 1/2 is not zero. *)
Lemma focal_loss_unweighted_counterexample :
  FocalLoss._sparse_label weighted_focal = true /\
  isinstance_int (FocalLoss._num_class weighted_focal) = true /\
  (1 <= int_value (FocalLoss._num_class weighted_focal))%Z /\
  same_rows focal_pred focal_label /\
  Forall (Forall (fun s => length s = 1%nat)) focal_pred /\
  forall (sigmoid log : Q -> Q) (power : Q -> Q -> Q),
    ~ log (1 # 2) * power (1 # 2) 2 == 0 ->
    ~ exists out,
        FocalLoss.hybrid_forward sigmoid log power weighted_focal focal_pred
          (SparseLabels focal_label) None = Ok out /\
        veq out
          (map (fun entries => nd.mean (concat entries))
             (focal_terms sigmoid log power weighted_focal focal_pred focal_label)).
Proof.
  split; [reflexivity|]. split; [reflexivity|]. split; [simpl; lia|].
  split; [repeat constructor|]. split; [repeat constructor|].
  intros sigmoid log power Hne [out [Eo Ho]].
  set (x := focal_elem sigmoid log power weighted_focal true (1 # 2)).
  assert (Hr : same_rows focal_pred focal_label) by repeat constructor.
  assert (Hd : Forall (Forall (fun s => length s =
                  Z.to_nat (int_value (FocalLoss._num_class weighted_focal))))
                 focal_pred) by repeat constructor.
  destruct (focal_forward_value sigmoid log power weighted_focal focal_pred
              focal_label None [[[x * 2]]] [nd.mean [x * 2]] eq_refl Hr Hd
              eq_refl eq_refl) as [out' [Eo' Ho']].
  rewrite Eo in Eo'. injection Eo' as <-.
  inversion Ho as [|o c out0 l0 Hoc _]; subst.
  inversion Ho' as [|o' c' out1 l1 Hoc' _]; subst.
  change (nd.mean (concat [[focal_elem sigmoid log power weighted_focal true (1 # 2)]]))
    with (nd.mean [x]) in Hoc.
  unfold nd.mean, nd.sum in Hoc, Hoc'. simpl in Hoc, Hoc'.
  change (n2q 1) with 1 in Hoc, Hoc'. fold x in Hoc.
  assert (X0 : x == 0).
  { assert (E1 : o == x) by (rewrite Hoc; field).
    assert (E2 : o == x * 2) by (rewrite Hoc'; field).
    rewrite E1 in E2. lra. }
  apply Hne.
  assert (Ex : log (1 # 2) * power (1 # 2) 2 == - (4) * x).
  { unfold x, focal_elem. simpl.
    change (1 - (1 # 2)) with (1 # 2).
    change (nd.minimum ((1 # 2) + 0) 1) with (1 # 2). ring. }
  rewrite Ex, X0. reflexivity.
Qed.

(** A stand-in for [x ** 2]. *)
Definition square_standin (x gamma : Q) : Q := x * x.

(** The focal term of the score 1/2 is (1/4)(1/2)^2(1/2) = 1/32 with the
    stand-ins; the global weight doubles it. *)
Example focal_example :
  exists o,
    FocalLoss.hybrid_forward (fun x => x) log_standin square_standin
      weighted_focal focal_pred (SparseLabels focal_label) None = Ok [o]
    /\ o == 1 # 16.
Proof. eexists. split; [vm_compute; reflexivity|reflexivity]. Qed.

(** A global weight of 2 and a sample weight of 3 on the one entry: the
    focal term 1/32 of the score 1/2 comes out as 2 * 3 / 32. *)
Lemma focal_loss_weighted_formula_witness :
  exists out,
    FocalLoss.hybrid_forward (fun x => x) log_standin square_standin
      weighted_focal focal_pred (SparseLabels focal_label) (Some [[[3]]]) = Ok out
    /\ length out = 1%nat
    /\ nth 0 out 0 == 3 # 16.
Proof.
  destruct (focal_loss_weighted_formula (fun x => x) log_standin square_standin
              weighted_focal focal_pred focal_label (Some [[[3]]]) 0)
    as (out & E & _ & _ & _ & _ & _ & H0).
  - reflexivity.
  - reflexivity.
  - simpl. lia.
  - repeat constructor.
  - repeat constructor.
  - reflexivity.
  - intros s Es. injection Es as <-. reflexivity.
  - destruct (H0 eq_refl) as [Lo Hb].
    exists out. split; [exact E|]. split; [exact Lo|].
    rewrite (Hb 0%nat) by (simpl; lia). reflexivity.
Defined.

(** ** The loop in closed form *)

(** The number of leading entries of [l] that the epochs up to [e] consume:
    each consumed entry is an epoch in [lo, e], larger than the entry
    before it; the first entry that is not ends the count. *)
Fixpoint prefix_hit (lo e : Z) (l : list Z) : nat :=
  match l with
  | [] => 0
  | x :: l' =>
      if ((lo <=? x) && (x <=? e))%Z then S (prefix_hit (x + 1) e l') else 0
  end.

Section PrefixHit.

Lemma prefix_hit_none (lo e : Z) (l : list Z) :
  (e < lo)%Z -> prefix_hit lo e l = 0%nat.
Proof.
  intro H. destruct l as [|x l]; simpl; [reflexivity|].
  destruct (lo <=? x)%Z eqn:E1; destruct (x <=? e)%Z eqn:E2; simpl;
    try reflexivity.
  apply Z.leb_le in E1, E2. lia.
Qed.

Lemma prefix_hit_step (lo e : Z) (l : list Z) :
  (lo <= e + 1)%Z ->
  prefix_hit lo (e + 1) l =
  match nth_error l (prefix_hit lo e l) with
  | Some x => if (x =? e + 1)%Z then S (prefix_hit lo e l) else prefix_hit lo e l
  | None => prefix_hit lo e l
  end.
Proof.
  revert lo. induction l as [|x l IH]; intros lo H; simpl; [reflexivity|].
  destruct (lo <=? x)%Z eqn:E1; destruct (x <=? e)%Z eqn:E2;
    destruct (x <=? e + 1)%Z eqn:E3; simpl;
    try (apply Z.leb_le in E1); try (apply Z.leb_le in E2);
    try (apply Z.leb_le in E3); try (apply Z.leb_gt in E1);
    try (apply Z.leb_gt in E2); try (apply Z.leb_gt in E3); try lia.
  - rewrite IH by lia.
    destruct (nth_error l (prefix_hit (x + 1) e l)) as [y|]; [|reflexivity].
    now destruct (y =? e + 1)%Z.
  - replace (x =? e + 1)%Z with true by (symmetry; apply Z.eqb_eq; lia).
    rewrite prefix_hit_none by lia. reflexivity.
  - replace (x =? e + 1)%Z with false by (symmetry; apply Z.eqb_neq; lia).
    reflexivity.
  - replace (x =? e + 1)%Z with false by (symmetry; apply Z.eqb_neq; lia).
    reflexivity.
Qed.

Lemma prefix_hit_le (lo e : Z) (l : list Z) : (prefix_hit lo e l <= length l)%nat.
Proof.
  revert lo. induction l as [|x l IH]; intro lo; simpl; [lia|].
  destruct ((lo <=? x) && (x <=? e))%Z; [|lia]. specialize (IH (x + 1)%Z). lia.
Qed.


End PrefixHit.

Section TrainFacts.

Import TrainPointnet.

Variable opt : options.
Variable num_batch : nat.
Variable val_acc : nat -> Q.

(** The entries of [lr_decay_epoch] consumed by the epochs before [n]. *)
Definition matched (n : nat) : nat :=
  prefix_hit 0 (Z.of_nat n - 1) (lr_decay_epoch opt).

(** The learning rate after [k] decays. *)
Definition decayed (k : nat) : Q := Nat.iter k (fun x => x * lr_decay opt) (lr opt).

(** The best validation accuracy before epoch [n], from 0. *)
Fixpoint best_before (n : nat) : Q :=
  match n with
  | O => 0
  | S n' =>
      if Qgtb (val_acc n') (best_before n') then val_acc n' else best_before n'
  end.

(** Epoch [e] is the next unconsumed entry of [lr_decay_epoch]. *)
Definition hit (e : nat) : bool :=
  match nth_error (lr_decay_epoch opt) (matched e) with
  | Some x => Z.eqb (Z.of_nat e) x
  | None => false
  end.

Definition improves (e : nat) : bool := Qgtb (val_acc e) (best_before e).

Definition periodic_save (e : nat) : bool :=
  saving opt && Z.eqb ((Z.of_nat e + 1) mod save_period opt) 0.

(** What epoch [e] does, in order. *)
Definition epoch_events (e : nat) : list event :=
  (if hit e then [SetLearningRate e (decayed (matched (S e)))] else [])
  ++ map (fun i => TrainerStep e i (decayed (matched (S e)))) (seq 0 num_batch)
  ++ (if improves e then [SaveBest e (val_acc e)] else [])
  ++ [LogEpoch e]
  ++ (if periodic_save e then [SaveParams (Z.of_nat e)] else []).

Lemma matched_succ (n : nat) :
  matched (S n) = if hit n then S (matched n) else matched n.
Proof.
  unfold matched, hit.
  replace (Z.of_nat (S n) - 1)%Z with (Z.of_nat n - 1 + 1)%Z by lia.
  rewrite prefix_hit_step by lia.
  fold (matched n).
  destruct (nth_error (lr_decay_epoch opt) (matched n)) as [x|]; [|reflexivity].
  replace (Z.of_nat n - 1 + 1)%Z with (Z.of_nat n) by lia.
  rewrite (Z.eqb_sym x). reflexivity.
Qed.

Lemma matched_le (n : nat) : (matched n <= length (lr_decay_epoch opt))%nat.
Proof. apply prefix_hit_le. Qed.

Lemma matched_zero : matched 0 = 0%nat.
Proof. unfold matched. apply prefix_hit_none. lia. Qed.

(** The lookup [lr_decay_epoch[lr_decay_count]] never fails, and tells
    whether the epoch is the next unconsumed entry. *)
Lemma marks_lookup (n : nat) :
  exists m, nth_error (marks opt) (matched n) = Some m /\ mark_eqb n m = hit n.
Proof.
  unfold marks, hit. pose proof (matched_le n) as Hle.
  destruct (nth_error (lr_decay_epoch opt) (matched n)) as [x|] eqn:E.
  - exists (At x). split; [|reflexivity].
    rewrite nth_error_app1 by (rewrite length_map; apply nth_error_Some; congruence).
    now rewrite nth_error_map, E.
  - exists Inf. split; [|reflexivity].
    apply nth_error_None in E.
    rewrite nth_error_app2 by (rewrite length_map; lia).
    rewrite length_map. replace (matched n - length (lr_decay_epoch opt))%nat
      with 0%nat by lia. reflexivity.
Qed.

Lemma batches_state (epoch : nat) (s : state) :
  batches num_batch epoch s =
  {| learning_rate := learning_rate s;
     lr_decay_count := lr_decay_count s;
     iteration := iteration s + num_batch;
     best_val_score := best_val_score s;
     trace := trace s
              ++ map (fun i => TrainerStep epoch i (learning_rate s))
                   (seq 0 num_batch) |}.
Proof.
  unfold batches. generalize 0%nat. revert s.
  induction num_batch as [|k IH]; intros s a; simpl.
  - destruct s; simpl. now rewrite Nat.add_0_r, app_nil_r.
  - rewrite IH. unfold batch; simpl. f_equal; [lia|].
    now rewrite <- app_assoc.
Qed.

(** The state after [n] epochs, in closed form. *)
Definition state_after (n : nat) : state :=
  {| learning_rate := decayed (matched n);
     lr_decay_count := matched n;
     iteration := n * num_batch;
     best_val_score := best_before n;
     trace := flat_map epoch_events (seq 0 n) |}.

(** With a mini-batch and a batch size that is not 0, the divisor of
    [train_loss] is not 0. *)
Lemma divisor_not_zero :
  (0 < num_batch)%nat -> per_device_batch_size opt <> 0%Z ->
  divisor opt num_batch <> 0%Z.
Proof.
  intros Hn Hb H. unfold divisor, batch_size in H.
  apply Z.mul_eq_0 in H. destruct H as [H|H]; [|lia].
  apply Z.mul_eq_0 in H. destruct H as [H|H]; lia.
Qed.

Lemma divisor_without_batches : num_batch = 0%nat -> divisor opt num_batch = 0%Z.
Proof. intros ->. unfold divisor. simpl. lia. Qed.

Lemma epoch_body_state (n : nat) :
  epoch_body opt num_batch val_acc (state_after n) n
  = if Z.eqb (divisor opt num_batch) 0 then inr ZeroDivisionError
    else inl (state_after (S n)).
Proof.
  unfold epoch_body, decay, divide_train_loss. simpl lr_decay_count.
  destruct (marks_lookup n) as [m [Em Hm]]. rewrite Em, Hm.
  destruct (Z.eqb (divisor opt num_batch) 0); [now destruct (hit n)|].
  assert (Ef : flat_map epoch_events (seq 0 (S n))
               = flat_map epoch_events (seq 0 n) ++ epoch_events n).
  { rewrite seq_S, flat_map_app. simpl. now rewrite app_nil_r. }
  transitivity
    (@inl state error
       {| learning_rate := decayed (matched (S n));
          lr_decay_count := matched (S n);
          iteration := S n * num_batch;
          best_val_score := best_before (S n);
          trace := flat_map epoch_events (seq 0 n) ++ epoch_events n |});
    [|unfold state_after; now rewrite Ef].
  unfold epoch_events. rewrite (matched_succ n).
  assert (Ep : forall s, periodic opt n s
                         = if periodic_save n then emit s (SaveParams (Z.of_nat n))
                           else s) by reflexivity.
  destruct (hit n); simpl; rewrite batches_state, Ep; simpl;
    unfold validate, emit; simpl; unfold improves;
    destruct (Qgtb (val_acc n) (best_before n));
    destruct (periodic_save n); simpl;
    f_equal; f_equal; try lia;
    rewrite <- ?app_assoc; simpl; rewrite <- ?app_assoc; reflexivity.
Qed.

Lemma run_succ (n : nat) :
  run opt num_batch val_acc (S n) =
  bind (run opt num_batch val_acc n)
       (fun s => epoch_body opt num_batch val_acc s n).
Proof. unfold run. rewrite seq_S, fold_left_app. reflexivity. Qed.

(** The loop fails in its first epoch or not at all. *)
Lemma run_cases (n : nat) :
  run opt num_batch val_acc n
  = if Z.eqb (divisor opt num_batch) 0 && negb (Nat.eqb n 0)
    then inr ZeroDivisionError
    else inl (state_after n).
Proof.
  induction n as [|n IH].
  - rewrite andb_false_r.
    unfold run, state_after, initial. simpl. now rewrite matched_zero.
  - rewrite run_succ, IH. simpl negb. rewrite andb_true_r.
    destruct (Z.eqb (divisor opt num_batch) 0) eqn:D.
    + destruct n as [|n]; simpl; [|reflexivity].
      now rewrite epoch_body_state, D.
    + simpl. now rewrite epoch_body_state, D.
Qed.

Lemma run_state (n : nat) :
  divisor opt num_batch <> 0%Z -> run opt num_batch val_acc n = inl (state_after n).
Proof.
  intro H. rewrite run_cases.
  now replace (Z.eqb (divisor opt num_batch) 0) with false
    by (symmetry; now apply Z.eqb_neq).
Qed.

Lemma run_returns (n : nat) (s : state) :
  run opt num_batch val_acc n = inl s -> s = state_after n.
Proof.
  rewrite run_cases.
  destruct (Z.eqb (divisor opt num_batch) 0 && negb (Nat.eqb n 0));
    [discriminate|congruence].
Qed.

(** ** Reading the trace *)




Lemma filter_flat_map {A B : Type} (f : B -> bool) (g : A -> list B) (l : list A) :
  filter f (flat_map g l) = flat_map (fun x => filter f (g x)) l.
Proof.
  induction l as [|x l IH]; simpl; [reflexivity|]. now rewrite filter_app, IH.
Qed.

Lemma filter_map_none {A B : Type} (f : B -> bool) (g : A -> B) (l : list A) :
  (forall x, f (g x) = false) -> filter f (map g l) = [].
Proof.
  intro H. induction l as [|x l IH]; simpl; [reflexivity|]. now rewrite H.
Qed.







Lemma flat_map_filter_map {A B : Type} (p : A -> bool) (g : A -> B) (l : list A) :
  flat_map (fun x => if p x then [g x] else []) l = map g (filter p l).
Proof.
  induction l as [|x l IH]; simpl; [reflexivity|].
  destruct (p x); simpl; now rewrite IH.
Qed.

Lemma save_best_in_epoch (e e' : nat) (q : Q) :
  In (SaveBest e q) (epoch_events e') <->
  e' = e /\ improves e = true /\ q = val_acc e.
Proof.
  unfold epoch_events. rewrite !in_app_iff, in_map_iff. split.
  - intros [H|[[i [H _]]|[H|[H|H]]]].
    + destruct (hit e'); [destruct H as [H|[]]; discriminate|destruct H].
    + discriminate.
    + destruct (improves e') eqn:Ei; [|destruct H].
      destruct H as [H|[]]. injection H as -> ->. auto.
    + destruct H as [H|[]]. discriminate.
    + destruct (periodic_save e'); [destruct H as [H|[]]; discriminate|destruct H].
  - intros [-> [Hi ->]]. right. right. left. rewrite Hi. now left.
Qed.

Lemma save_best_in_trace (n e : nat) (q : Q) :
  In (SaveBest e q) (flat_map epoch_events (seq 0 n)) <->
  (e < n)%nat /\ improves e = true /\ q = val_acc e.
Proof.
  rewrite in_flat_map. split.
  - intros [e' [He' H]]. apply save_best_in_epoch in H.
    destruct H as [-> H]. apply in_seq in He'. split; [lia|exact H].
  - intros [He H]. exists e. split; [apply in_seq; lia|].
    apply save_best_in_epoch. auto.
Qed.


(** The running best is the maximum of 0 and the accuracies seen. *)
Lemma best_before_bounds (n : nat) :
  0 <= best_before n /\ forall e, (e < n)%nat -> val_acc e <= best_before n.
Proof.
  induction n as [|n [IH0 IH]]; simpl.
  - split; [lra|]. intros e He. lia.
  - unfold Qgtb. destruct (Qltb (best_before n) (val_acc n)) eqn:E.
    + apply Qltb_lt in E. split; [lra|]. intros e He.
      destruct (Nat.eq_dec e n) as [->|Hne]; [lra|].
      specialize (IH e ltac:(lia)). lra.
    + apply Qltb_ge in E. split; [exact IH0|]. intros e He.
      destruct (Nat.eq_dec e n) as [->|Hne]; [exact E|]. apply IH. lia.
Qed.

Lemma best_before_attained (n : nat) :
  best_before n = 0 \/ exists e, (e < n)%nat /\ best_before n = val_acc e.
Proof.
  induction n as [|n IH]; simpl; [now left|].
  destruct (Qgtb (val_acc n) (best_before n)).
  - right. exists n. split; [lia|reflexivity].
  - destruct IH as [IH|[e [He IH]]]; [now left|].
    right. exists e. split; [lia|exact IH].
Qed.

Lemma best_before_step (n : nat) : best_before n <= best_before (S n).
Proof.
  simpl. unfold Qgtb. destruct (Qltb (best_before n) (val_acc n)) eqn:E.
  - apply Qltb_lt in E. lra.
  - lra.
Qed.

Lemma improves_iff (e : nat) :
  improves e = true <->
  0 < val_acc e /\ forall e', (e' < e)%nat -> val_acc e' < val_acc e.
Proof.
  unfold improves, Qgtb. rewrite Qltb_lt.
  destruct (best_before_bounds e) as [B0 B]. split.
  - intro H. split; [lra|]. intros e' He'. specialize (B e' He'). lra.
  - intros [H0 H]. destruct (best_before_attained e) as [E|[e' [He' E]]].
    + rewrite E. exact H0.
    + rewrite E. now apply H.
Qed.

Lemma train_state (epochs : nat) :
  divisor opt num_batch <> 0%Z ->
  train opt num_batch val_acc epochs =
  inl (if saving opt
       then emit (state_after epochs) (SaveParams (Z.of_nat epochs - 1))
       else state_after epochs).
Proof. intro H. unfold train. now rewrite run_state. Qed.

Lemma train_returns (epochs : nat) (s : state) :
  train opt num_batch val_acc epochs = inl s ->
  s = if saving opt
      then emit (state_after epochs) (SaveParams (Z.of_nat epochs - 1))
      else state_after epochs.
Proof.
  unfold train.
  destruct (run opt num_batch val_acc epochs) as [s'|e] eqn:E; [|discriminate].
  apply run_returns in E. subst s'. simpl. congruence.
Qed.

Lemma train_trace (epochs : nat) (s : state) :
  train opt num_batch val_acc epochs = inl s ->
  trace s = flat_map epoch_events (seq 0 epochs)
            ++ (if saving opt then [SaveParams (Z.of_nat epochs - 1)] else [])
  /\ iteration s = (epochs * num_batch)%nat
  /\ learning_rate s = decayed (matched epochs)
  /\ lr_decay_count s = matched epochs
  /\ best_val_score s = best_before epochs.
Proof.
  intro E. apply train_returns in E. subst s.
  destruct (saving opt); simpl; rewrite ?app_nil_r; repeat split; reflexivity.
Qed.



(** C10, as amended.  When the training loader yields at least one
    mini-batch and the batch size is not 0, [train(epochs, ctx)] completes;
    after every epoch [best_val_score] is the maximum of 0 and the
    validation accuracies seen so far, so it never decreases; a
    [-best.params] checkpoint is saved in exactly the epochs whose
    validation accuracy is above 0 and above the accuracy of every earlier
    epoch. *)
Theorem best_checkpoint_invariant (epochs : nat) :
  (0 < num_batch)%nat -> per_device_batch_size opt <> 0%Z ->
  exists s,
    train opt num_batch val_acc epochs = inl s /\
    best_val_score s = best_before epochs /\
    (forall n, exists s_n,
       run opt num_batch val_acc n = inl s_n /\
       best_val_score s_n = best_before n /\
       best_before n <= best_before (S n) /\
       0 <= best_before n /\
       (forall e, (e < n)%nat -> val_acc e <= best_before n) /\
       (best_before n = 0 \/ exists e, (e < n)%nat /\ best_before n = val_acc e)) /\
    (forall e,
       (exists q, In (SaveBest e q) (trace s)) <->
       (e < epochs)%nat /\ 0 < val_acc e /\
       forall e', (e' < e)%nat -> val_acc e' < val_acc e) /\
    (forall e q, In (SaveBest e q) (trace s) -> q = val_acc e).
Proof.
  intros Hn Hbs. pose proof (divisor_not_zero Hn Hbs) as Hd.
  destruct (train opt num_batch val_acc epochs) as [s|err] eqn:E;
    [|rewrite train_state in E by exact Hd; discriminate].
  destruct (train_trace epochs s E) as [Ht [_ [_ [_ Hb]]]].
  exists s. split; [reflexivity|]. split; [exact Hb|].
  assert (I : forall e q, In (SaveBest e q) (trace s) <->
                In (SaveBest e q) (flat_map epoch_events (seq 0 epochs))).
  { intros e q. rewrite Ht, in_app_iff. split; [|now left].
    intros [H|H]; [exact H|].
    destruct (saving opt); [destruct H as [H|[]]; discriminate|destruct H]. }
  split; [|split].
  - intro n. exists (state_after n). split; [now apply run_state|].
    split; [reflexivity|]. split; [apply best_before_step|].
    destruct (best_before_bounds n) as [B0 B].
    split; [exact B0|]. split; [exact B|]. apply best_before_attained.
  - intro e. split.
    + intros [q H]. apply I, save_best_in_trace in H.
      destruct H as [He [Hi _]]. apply improves_iff in Hi. tauto.
    + intros [He Hi]. exists (val_acc e). apply I, save_best_in_trace.
      split; [exact He|]. split; [now apply improves_iff|reflexivity].
  - intros e q H. apply I, save_best_in_trace in H. tauto.
Qed.

End TrainFacts.

(** ** The loop on small runs *)

Definition ascending_opt : TrainPointnet.options :=
  {| TrainPointnet.lr := 1;
     TrainPointnet.lr_decay := 1 # 2;
     TrainPointnet.lr_decay_epoch := [2; 4]%Z;
     TrainPointnet.save_period := 10;
     TrainPointnet.save_dir := true;
     TrainPointnet.per_device_batch_size := 32;
     TrainPointnet.num_gpus := 0 |}.

(** A repeated entry is never hit, and blocks the entry after it. *)
Definition repeated_opt : TrainPointnet.options :=
  {| TrainPointnet.lr := 1;
     TrainPointnet.lr_decay := 1 # 2;
     TrainPointnet.lr_decay_epoch := [2; 2; 5]%Z;
     TrainPointnet.save_period := 0;
     TrainPointnet.save_dir := true;
     TrainPointnet.per_device_batch_size := 32;
     TrainPointnet.num_gpus := 2 |}.

Definition rising_then_flat (e : nat) : Q :=
  match e with
  | 0%nat => 1 # 2
  | 1%nat => 1 # 4
  | 2%nat => 3 # 4
  | _ => 3 # 4
  end.

Example train_examples :
  match TrainPointnet.train ascending_opt 2 rising_then_flat 6,
        TrainPointnet.train repeated_opt 2 rising_then_flat 8 with
  | inl a, inl r =>
      TrainPointnet.learning_rate a == 1 # 4
      /\ TrainPointnet.lr_decay_count a = 2%nat
      /\ TrainPointnet.iteration a = 12%nat
      /\ TrainPointnet.best_val_score a = 3 # 4
      /\ filter (fun ev => match ev with
                           | TrainPointnet.SaveBest _ _ => true
                           | _ => false
                           end) (TrainPointnet.trace a)
         = [TrainPointnet.SaveBest 0 (1 # 2); TrainPointnet.SaveBest 2 (3 # 4)]
      /\ TrainPointnet.learning_rate r == 1 # 2
      /\ TrainPointnet.lr_decay_count r = 1%nat
  | _, _ => False
  end.
Proof. vm_compute. repeat split. Qed.

(** With a loader that yields no mini-batch the first epoch raises, after
    its learning-rate decay; without an epoch nothing is divided. *)
Example empty_loader_examples :
  TrainPointnet.train ascending_opt 0 rising_then_flat 6
  = inr TrainPointnet.ZeroDivisionError
  /\ TrainPointnet.train repeated_opt 0 rising_then_flat 0
     = inl (TrainPointnet.initial repeated_opt).
Proof. split; reflexivity. Qed.


Lemma best_checkpoint_invariant_witness :
  exists s,
    TrainPointnet.train ascending_opt 2 rising_then_flat 6 = inl s /\
    TrainPointnet.best_val_score s = best_before rising_then_flat 6.
Proof.
  destruct (best_checkpoint_invariant ascending_opt 2 rising_then_flat 6)
    as (s & E & Hb & _); [lia | simpl; lia |].
  exists s. split; [exact E | exact Hb].
Defined.

(** C10 as stated fails: with a validation accuracy of 0 in the first
    epoch, that epoch exceeds every previous epoch (there is none), and
    no [-best.params] checkpoint is saved, [best_val_score] starting
    at 0. *)
Lemma best_checkpoint_counterexample :
  exists s,
    TrainPointnet.train ascending_opt 1 (fun _ => 0) 1 = inl s /\
    ~ ((exists q, In (TrainPointnet.SaveBest 0 q) (TrainPointnet.trace s)) <->
       (0 < 1)%nat /\
       forall e', (e' < 0)%nat -> (fun _ : nat => 0) e' < (fun _ : nat => 0) 0%nat).
Proof.
  eexists. split; [reflexivity|].
  intros [_ H]. destruct H as [q Hq].
  - split; [lia|]. intros e' He'. lia.
  - simpl in Hq. destruct Hq as [Hq|[Hq|[Hq|[]]]]; discriminate.
Qed.

(** * Part III.  Further properties

    Properties of the code beside those of Part II: of the functions met
    there, and of the functions of the two files that Part II leaves out. *)

(** ** How many hard negatives the mining keeps *)

Section MiningCount.

Import SSDMultiBoxLoss.

Variable log_softmax : list Q -> list Q.

(** An index is below a number exactly when it is below its ceiling. *)
Lemma n2q_lt_ceiling (r : nat) (x : Q) :
  n2q r < x <-> (r < Z.to_nat (Qceiling x))%nat.
Proof.
  unfold n2q. split; intro H.
  - assert (Hc : inject_Z (Z.of_nat r) < inject_Z (Qceiling x)).
    { eapply Qlt_le_trans; [exact H | apply Qle_ceiling]. }
    rewrite <- Zlt_Qlt in Hc. lia.
  - assert (Hz : (Z.of_nat r <= Qceiling x - 1)%Z) by lia.
    rewrite Zle_Qle in Hz.
    eapply Qle_lt_trans; [exact Hz | apply Qceiling_lt].
Qed.

Lemma count_below (x : Q) (n : nat) :
  length (filter (fun r => Qltb (n2q r) x) (seq 0 n))
  = Nat.min n (Z.to_nat (Qceiling x)).
Proof.
  induction n as [|n IH]; [reflexivity|].
  rewrite seq_S, filter_app_length, IH. cbn [filter].
  change (0 + n)%nat with n.
  destruct (Qltb (n2q n) x) eqn:E; cbn [length].
  - apply Qltb_lt, n2q_lt_ceiling in E. lia.
  - assert (~ (n < Z.to_nat (Qceiling x))%nat).
    { intro H. apply n2q_lt_ceiling, Qltb_lt in H. congruence. }
    lia.
Qed.

Definition nonzero (x : Q) : bool := negb (Qeq_bool x 0).

Lemma count_flags {A : Type} (P : A -> bool) (l : list A) :
  length (filter nonzero (map (fun r => b2q (P r)) l)) = length (filter P l).
Proof.
  induction l as [|a l IH]; [reflexivity|].
  simpl. destruct (P a); simpl; now rewrite IH.
Qed.

Lemma rank_of_perm (v : list Q) : Permutation (nd.rank_of v) (seq 0 (length v)).
Proof.
  unfold nd.rank_of.
  pose proof (argsort_perm (map n2q (nd.argsort v))) as H.
  now rewrite length_map, argsort_length in H.
Qed.

(** The flags of a row: as many as there are ranks below the threshold. *)
Lemma count_hard_negatives (thr : Q) (v : list Q) :
  length (filter nonzero (map (fun r => b2q (Qltb (n2q r) thr)) (nd.rank_of v)))
  = Nat.min (length v) (Z.to_nat (Qceiling thr)).
Proof.
  rewrite count_flags.
  rewrite (Permutation_filter_length _ _ _ (rank_of_perm v)).
  apply count_below.
Qed.

(** An anchor that is not positive is kept only where it is flagged. *)
Lemma count_kept_negatives (cts : list Z) (hn : list Q) :
  (length (filter (fun ck => (fst ck <=? 0)%Z && nonzero (snd ck))
             (combine cts
                (nd.map2 (fun p h => b2q (Qgtb (p + h) 0))
                   (map (fun c => b2q (0 <? c)%Z) cts) hn)))
   <= length (filter nonzero hn))%nat.
Proof.
  revert hn. induction cts as [|c cts IH]; intros [|h hn]; simpl; try lia.
  specialize (IH hn).
  destruct (c <=? 0)%Z eqn:Ec; simpl.
  - replace (0 <? c)%Z with false by (symmetry; apply Z.ltb_ge; lia).
    simpl. destruct (Qgtb (0 + h) 0) eqn:Eg; simpl.
    + assert (Hh : nonzero h = true).
      { unfold nonzero. apply negb_true_iff.
        destruct (Qeq_bool h 0) eqn:Eh; [|reflexivity].
        apply Qeq_bool_iff in Eh. apply Qltb_lt in Eg. lra. }
      rewrite Hh. simpl. lia.
    + destruct (nonzero h); simpl; lia.
  - destruct (nonzero h); simpl; lia.
Qed.

Lemma keep_mask_row (L : t) (cp : cube) (ct : list (list Z)) (b : nat) :
  (b < length cp)%nat -> (b < length ct)%nat ->
  nth b (keep_mask L (cross_entropy log_softmax cp ct) (pos_of ct)) [] =
  nd.map2 (fun p h => b2q (Qgtb (p + h) 0))
    (map (fun c => b2q (0 <? c)%Z) (nth b ct []))
    (nth b (hard_negative_of L (cross_entropy log_softmax cp ct) (pos_of ct)) []).
Proof.
  intros H1 H2. unfold keep_mask.
  rewrite (nth_map2 _ _ _ _ [] []).
  - now rewrite pos_of_row.
  - unfold pos_of. now rewrite length_map.
  - unfold hard_negative_of, mining_rank, mining_threshold, pos_of.
    rewrite length_map2, !length_map, length_mining_key. lia.
Qed.

(** X1.  The budget of the hard-negative mining of [SSDMultiBoxLoss.forward]
    (and of [YOLACTMultiBoxLoss.forward]).  In row [b], with [n_pos]
    positive anchors and [limit = maximum(min_hard_negatives, n_pos *
    negative_mining_ratio)], the tensor [hard_negative] flags exactly
    [min(N, ceil(limit))] of the [N] anchors, so no more than [ceil(limit)]
    anchors that are not positive are kept by
    [(pos + hard_negative) > 0]. *)
Theorem mining_keeps_at_most_limit (L : t) (cp : cube) (ct : list (list Z))
    (b : nat) :
  (b < length cp)%nat -> (b < length ct)%nat ->
  length (nth b cp []) = length (nth b ct []) ->
  let cts := nth b ct [] in
  let cls_loss := cross_entropy log_softmax cp ct in
  let hard_negative := nth b (hard_negative_of L cls_loss (pos_of ct)) [] in
  let keep := nth b (keep_mask L cls_loss (pos_of ct)) [] in
  let n_pos := length (filter (fun c => (0 <? c)%Z) cts) in
  let limit := nd.maximum (inject_Z (_min_hard_negatives L))
                 (n2q n_pos * _negative_mining_ratio L) in
  let cap := Z.to_nat (Qceiling limit) in
  length (filter nonzero hard_negative) = Nat.min (length cts) cap /\
  (length (filter (fun ck => (fst ck <=? 0)%Z && nonzero (snd ck))
             (combine cts keep)) <= cap)%nat.
Proof.
  intros Hb1 Hb2 Hlen cts cls_loss hard_negative keep n_pos limit cap.
  assert (Ehn : length (filter nonzero hard_negative) = Nat.min (length cts) cap).
  { unfold hard_negative, cls_loss. rewrite hard_negative_row by assumption.
    rewrite count_hard_negatives.
    rewrite length_row_key
      by (rewrite length_row_loss, length_row_pos; auto).
    rewrite length_row_pos. fold cts.
    f_equal. unfold cap. f_equal. apply Qceiling_comp.
    unfold row_threshold, limit. apply maximum_comp.
    rewrite row_pos_sum. reflexivity. }
  split; [exact Ehn|].
  unfold keep, cls_loss. rewrite keep_mask_row by assumption.
  fold cts. fold cls_loss. fold hard_negative.
  etransitivity; [apply count_kept_negatives|].
  rewrite Ehn. lia.
Qed.

End MiningCount.

(** Five anchors, one of them positive, a ratio of 3: three flags, three
    negatives kept. *)
Lemma mining_keeps_at_most_limit_witness :
  length (filter nonzero
            (nth 0 (SSDMultiBoxLoss.hard_negative_of mining_L
                      (SSDMultiBoxLoss.cross_entropy (fun x => x) mining_cp mining_ct)
                      (SSDMultiBoxLoss.pos_of mining_ct)) []))
  = 3%nat.
Proof.
  destruct (mining_keeps_at_most_limit (fun x => x) mining_L mining_cp mining_ct 0)
    as [H _]; [simpl; lia | simpl; lia | reflexivity |].
  exact H.
Defined.

(** ** The smooth L1 loss of the boxes *)

Section BoxLoss.

Import SSDMultiBoxLoss.

Lemma smooth_l1_cases (L : t) (p b : Q) :
  smooth_l1 L p b =
  if Qgtb (Qabs (p - b)) (_rho L)
  then Qabs (p - b) - (1 # 2) * _rho L
  else ((1 # 2) / _rho L) * (Qabs (p - b) * Qabs (p - b)).
Proof.
  unfold smooth_l1. destruct (Qgtb (Qabs (p - b)) (_rho L)); reflexivity.
Qed.

Lemma Qabs_zero (d : Q) : Qabs d == 0 -> d == 0.
Proof.
  intro H. pose proof (Qle_Qabs d) as H1. pose proof (Qle_Qabs (- d)) as H2.
  rewrite Qabs_opp in H2. lra.
Qed.

Lemma quadratic_branch (rho x : Q) :
  0 < rho -> ((1 # 2) / rho) * (x * x) == (x * x) / (2 * rho).
Proof. intro H. field. lra. Qed.

(** X2.  The smooth L1 loss of a box coordinate, for [rho > 0]: it is the
    same for (p, b) and (b, p), it is 0 exactly when the prediction equals
    the target, and it lies between [|p - b| - rho / 2] and [|p - b|], so it
    is never negative. *)
Theorem smooth_l1_between (L : t) (p b : Q) :
  0 < _rho L ->
  smooth_l1 L p b == smooth_l1 L b p /\
  (smooth_l1 L p b == 0 <-> p == b) /\
  0 <= smooth_l1 L p b /\
  Qabs (p - b) - (1 # 2) * _rho L <= smooth_l1 L p b /\
  smooth_l1 L p b <= Qabs (p - b).
Proof.
  intro Hrho.
  assert (Hsym : Qabs (b - p) = Qabs (p - b)) by apply Qabs_Qminus.
  pose proof (Qabs_nonneg (p - b)) as Hx.
  assert (Hsq : 0 <= Qabs (p - b) * Qabs (p - b)) by (apply Qmult_le_0_compat; assumption).
  assert (Hd : 0 < 2 * _rho L) by lra.
  split; [|split; [|split; [|split]]].
  - rewrite !smooth_l1_cases, Hsym. reflexivity.
  - rewrite smooth_l1_cases.
    destruct (Qgtb (Qabs (p - b)) (_rho L)) eqn:E.
    + apply Qltb_lt in E. split; intro H.
      * lra.
      * assert (Hz : Qabs (p - b) == 0).
        { assert (Hpb : p - b == 0) by lra. rewrite Hpb. reflexivity. }
        lra.
    + split; intro H.
      * rewrite quadratic_branch in H by assumption.
        assert (Hz : Qabs (p - b) * Qabs (p - b) == 0).
        { setoid_replace (Qabs (p - b) * Qabs (p - b))
            with ((Qabs (p - b) * Qabs (p - b)) / (2 * _rho L) * (2 * _rho L))
            by (field; lra).
          rewrite H. ring. }
        apply Qmult_integral in Hz.
        assert (Hz' : Qabs (p - b) == 0) by tauto.
        apply Qabs_zero in Hz'. lra.
      * assert (Hpb : p - b == 0) by lra. rewrite Hpb. simpl. field. lra.
  - rewrite smooth_l1_cases.
    destruct (Qgtb (Qabs (p - b)) (_rho L)) eqn:E.
    + apply Qltb_lt in E. lra.
    + rewrite quadratic_branch by assumption.
      apply Qle_shift_div_l; [assumption|]. lra.
  - rewrite smooth_l1_cases.
    destruct (Qgtb (Qabs (p - b)) (_rho L)) eqn:E.
    + lra.
    + rewrite quadratic_branch by assumption.
      apply Qle_shift_div_l; [assumption|].
      assert (Hs : 0 <= (Qabs (p - b) - _rho L) * (Qabs (p - b) - _rho L)).
      { destruct (Qlt_le_dec (Qabs (p - b) - _rho L) 0) as [Hn|Hp].
        - setoid_replace ((Qabs (p - b) - _rho L) * (Qabs (p - b) - _rho L))
            with ((- (Qabs (p - b) - _rho L)) * (- (Qabs (p - b) - _rho L)))
            by ring.
          apply Qmult_le_0_compat; lra.
        - apply Qmult_le_0_compat; lra. }
      lra.
  - rewrite smooth_l1_cases.
    destruct (Qgtb (Qabs (p - b)) (_rho L)) eqn:E.
    + lra.
    + apply Qltb_ge in E.
      rewrite quadratic_branch by assumption.
      apply Qle_shift_div_r; [assumption|].
      assert (Hs : 0 <= Qabs (p - b) * (_rho L - Qabs (p - b)))
        by (apply Qmult_le_0_compat; lra).
      lra.
Qed.

(** [_reshape_like] of a tensor that has the shape already. *)
Lemma fill2_same (tpl m : mat) (rest : list Q) :
  map (@length Q) m = map (@length Q) tpl ->
  fill2 tpl (concat m ++ rest) = (m, rest).
Proof.
  revert m. induction tpl as [|r tpl IH]; intros [|r' m] H; try discriminate.
  - reflexivity.
  - simpl in H. injection H as Hr Hm. simpl.
    rewrite <- Hr, <- app_assoc.
    rewrite skipn_app, skipn_all, Nat.sub_diag. simpl.
    rewrite (IH m Hm).
    rewrite firstn_app, firstn_all, Nat.sub_diag. simpl.
    now rewrite app_nil_r.
Qed.

Lemma fill3_same (tpl x : cube) (rest : list Q) :
  Loss.shape x = Loss.shape tpl ->
  fill3 tpl (concat (concat x) ++ rest) = (x, rest).
Proof.
  revert x. induction tpl as [|m tpl IH]; intros [|m' x] H; try discriminate.
  - reflexivity.
  - unfold Loss.shape in H. simpl in H. injection H as Hm Hx.
    simpl. rewrite concat_app, <- app_assoc.
    rewrite (fill2_same m m' _ Hm).
    now rewrite (IH x Hx).
Qed.

Lemma reshape_like_same (x y : cube) :
  Loss.shape x = Loss.shape y -> _reshape_like x y = x.
Proof.
  intro H. unfold _reshape_like.
  rewrite <- (app_nil_r (concat (concat x))).
  now rewrite (fill3_same y x [] H).
Qed.

(** The smooth L1 losses of the positive anchors of a row, one number per
    anchor. *)
Definition box_terms (L : t) (prow trow : mat) (cts : list Z) : list Q :=
  map (fun e => nd.sum (nd.map2 (smooth_l1 L) (fst (fst e)) (snd (fst e))))
      (filter (fun e => (0 <? snd e)%Z) (combine (combine prow trow) cts)).

Lemma sum_scaled (p : Q) (v : list Q) :
  nd.sum (map (fun x => x * p) v) == nd.sum v * p.
Proof.
  induction v as [|a v IH]; simpl; [ring|]. rewrite IH. ring.
Qed.

Lemma masked_row_sum (L : t) (prow trow : mat) (cts : list Z) :
  nd.sum2 (nd.map2 (fun coords p => map (fun x => x * p) coords)
             (nd.map2 (nd.map2 (smooth_l1 L)) prow trow)
             (map (fun c => b2q (0 <? c)%Z) cts))
  == nd.sum (box_terms L prow trow cts).
Proof.
  unfold box_terms, nd.sum2.
  revert trow cts. induction prow as [|pr prow IH]; intros [|tr trow] [|c cts];
    simpl; try reflexivity.
  specialize (IH trow cts). simpl in IH.
  rewrite sum_scaled, IH.
  destruct (0 <? c)%Z; simpl; ring.
Qed.

(** X3.  "box loss only apply to positive samples": when the box
    predictions of a device have the shape of the box targets, row [b] of
    the masked box loss of [SSDMultiBoxLoss.forward] adds up to the smooth
    L1 losses of the positive anchors of the row, and every entry at an
    anchor that is not positive is 0. *)
Theorem box_loss_over_positives (L : t) (bp : cube) (ct : list (list Z))
    (bt : cube) (b : nat) :
  Loss.shape bp = Loss.shape bt ->
  (b < length bt)%nat -> (b < length ct)%nat ->
  let row := nth b (masked_box_loss L bp ct bt) [] in
  nd.sum2 row == nd.sum (box_terms L (nth b bp []) (nth b bt []) (nth b ct [])) /\
  forall i j, (nth i (nth b ct []) 1 <= 0)%Z -> nth j (nth i row []) 0 == 0.
Proof.
  intros Hs Hb Hc row.
  assert (Hlen : length bp = length bt).
  { apply (f_equal (@length _)) in Hs. unfold Loss.shape in Hs.
    now rewrite !length_map in Hs. }
  assert (Hrow : row =
                 nd.map2 (fun coords p => map (fun x => x * p) coords)
                   (nd.map2 (nd.map2 (smooth_l1 L)) (nth b bp []) (nth b bt []))
                   (map (fun c => b2q (0 <? c)%Z) (nth b ct []))).
  { unfold row, masked_box_loss. rewrite (reshape_like_same _ _ Hs).
    rewrite (nth_map2 _ _ _ _ [] []).
    - rewrite (nth_map2 _ _ _ _ [] []) by lia.
      now rewrite pos_of_row.
    - rewrite length_map2. lia.
    - unfold pos_of. now rewrite length_map. }
  split.
  - rewrite Hrow. apply masked_row_sum.
  - intros i j Hi. rewrite Hrow.
    set (box := nd.map2 (nd.map2 (smooth_l1 L)) (nth b bp []) (nth b bt [])).
    set (cts := nth b ct []) in *.
    destruct (Nat.lt_ge_cases i (Nat.min (length box) (length cts))) as [Hlt|Hge].
    + rewrite (nth_map2 _ _ _ _ [] 0) by (rewrite ?length_map; lia).
      rewrite (nth_map_lt _ _ _ 1%Z) by lia.
      replace (0 <? nth i cts 1%Z)%Z with false by (symmetry; apply Z.ltb_ge; lia).
      simpl.
      destruct (Nat.lt_ge_cases j (length (nth i box []))) as [Hj|Hj].
      * rewrite (nth_map_lt _ _ _ 0) by assumption. ring.
      * rewrite nth_overflow by (now rewrite length_map). reflexivity.
    + rewrite (nth_overflow _ []) by (rewrite length_map2, length_map; lia).
      destruct j; reflexivity.
Qed.

End BoxLoss.

(** The row of [mining_example]: its one positive anchor has the box loss
    1/2 + 3/2. *)
Lemma smooth_l1_between_witness :
  0 <= SSDMultiBoxLoss.smooth_l1 mining_L 2 4.
Proof.
  destruct (smooth_l1_between mining_L 2 4) as (_ & _ & H & _); [reflexivity|].
  exact H.
Defined.

Lemma box_loss_over_positives_witness :
  nd.sum2 (nth 0 (SSDMultiBoxLoss.masked_box_loss mining_L mining_bp mining_ct
                    mining_bt) [])
  == nd.sum (box_terms mining_L (nth 0 mining_bp []) (nth 0 mining_bt [])
               (nth 0 mining_ct [])).
Proof.
  destruct (box_loss_over_positives mining_L mining_bp mining_ct mining_bt 0)
    as [H _]; [reflexivity | simpl; lia | simpl; lia |].
  exact H.
Defined.

(** ** YOLACTMultiBoxLoss against SSDMultiBoxLoss *)

Section YolactAgainstSSD.

Variable log_softmax : list Q -> list Q.
Variable sigmoid : Q -> Q.
Variable SBCELoss : cube -> cube -> list Q.

Lemma Forall2_combine_fst {A B C D : Type} (R : C -> D -> Prop)
      (f : A * B -> C) (g : A -> D) (l : list A) (ms : list B) :
  (length l <= length ms)%nat ->
  (forall a b, R (f (a, b)) (g a)) ->
  Forall2 R (map f (combine l ms)) (map g l).
Proof.
  intros Hlen Hfg. revert ms Hlen.
  induction l as [|a l IH]; intros ms Hlen; [constructor|].
  destruct ms as [|m ms]; simpl in *; [lia|].
  constructor; [apply Hfg|]. apply IH. lia.
Qed.

Lemma zero_scalars_scaled (c : Q) (l : list cube) :
  Forall2 veq (map SSDMultiBoxLoss.sum_times_zero l)
    (map (map (Qmult c)) (map SSDMultiBoxLoss.sum_times_zero l)).
Proof.
  induction l as [|x l IH]; simpl; constructor; [|exact IH].
  pose proof (sum_times_zero_is_zero x) as H.
  unfold SSDMultiBoxLoss.sum_times_zero in *. simpl.
  constructor; [|constructor]. rewrite H. ring.
Qed.

(** X4.  The class and box losses of [YOLACTMultiBoxLoss.forward] are
    those of [SSDMultiBoxLoss.forward] on the same predictions and targets,
    with the same mining ratio, [rho] and [min_hard_negatives], times
    [conf_lambd] and [box_lambd]: on both paths, as long as the mask
    arguments hold an entry for every device. *)
Theorem yolact_losses_scale_ssd_losses (Y : YOLACTMultiBoxLoss.t)
    (cls_pred box_pred : arg cube)
    (mask_pred : list (list cube)) (mask_eoc : list cube)
    (cls_target : arg (list (list Z))) (box_target : arg cube)
    (mask_target : list (list cube)) (matches : list (list (list Z)))
    (bts : list cube) :
  (length (zip4 (_as_list cls_pred) (_as_list box_pred)
             (_as_list cls_target) (_as_list box_target))
   <= length (YOLACTMultiBoxLoss.zip5 mask_pred mask_eoc mask_target matches bts))%nat ->
  let ssd := SSDMultiBoxLoss.forward log_softmax (YOLACTMultiBoxLoss.mining_params Y)
               cls_pred box_pred cls_target box_target in
  let yolact := YOLACTMultiBoxLoss.forward log_softmax sigmoid SBCELoss Y
                  cls_pred box_pred mask_pred mask_eoc cls_target box_target
                  mask_target matches bts in
  Forall2 veq (snd (fst (fst yolact)))
    (map (map (Qmult (YOLACTMultiBoxLoss.conf_lambd Y))) (snd (fst ssd))) /\
  Forall2 veq (snd (fst yolact))
    (map (map (Qmult (YOLACTMultiBoxLoss.box_lambd Y))) (snd ssd)).
Proof.
  intros Hlen ssd yolact. subst ssd yolact.
  unfold YOLACTMultiBoxLoss.forward, SSDMultiBoxLoss.forward.
  set (devs := zip4 (_as_list cls_pred) (_as_list box_pred)
                 (_as_list cls_target) (_as_list box_target)) in *.
  change (YOLACTMultiBoxLoss.no_samples Y devs)
    with (SSDMultiBoxLoss.no_samples (YOLACTMultiBoxLoss.mining_params Y) devs).
  destruct (SSDMultiBoxLoss.no_samples (YOLACTMultiBoxLoss.mining_params Y) devs).
  - simpl. split; apply zero_scalars_scaled.
  - simpl. rewrite !map_map. split.
    + apply Forall2_combine_fst; [exact Hlen|].
      intros [[[cp bp] ct] bt] [[[[mp me] mt] ma] btt]. simpl.
      rewrite map_map. apply Forall2_Qeq_map. intro row.
      unfold Qdiv. ring.
    + apply Forall2_combine_fst; [exact Hlen|].
      intros [[[cp bp] ct] bt] [[[[mp me] mt] ma] btt]. simpl.
      rewrite map_map. apply Forall2_Qeq_map. intro rows.
      unfold Qdiv. ring.
Qed.

End YolactAgainstSSD.

(** ** Samples without a matched anchor *)

Section Unmatched.

Variable sigmoid : Q -> Q.
Variable SBCELoss : cube -> cube -> list Q.

Lemma pos_num_unmatched (matches : list Z) :
  Forall (fun m => (m < 0)%Z) matches -> MaskOps.pos_num_of matches = 0%nat.
Proof.
  intro H. unfold MaskOps.pos_num_of. rewrite filter_none; [reflexivity|].
  intros m Hm. rewrite Forall_forall in H. specialize (H m Hm).
  apply Z.leb_gt. exact H.
Qed.

Lemma mask_loss_entry (gw gh : Q) (mask_pred : list cube) (mask_eoc : cube)
      (mask_target : list cube) (matches : list (list Z)) (bt_target : cube)
      (i : nat) (d : Q) :
  (i < length mask_pred)%nat ->
  nth i (MaskOps.mask_loss sigmoid SBCELoss gw gh mask_pred mask_eoc mask_target
           matches bt_target) d
  = if Nat.eqb (MaskOps.pos_num_of (nth i matches [])) 0 then 0
    else MaskOps.sample_loss sigmoid SBCELoss gw gh (nth i mask_pred [])
           (nth i mask_eoc []) (nth i mask_target []) (nth i matches [])
           (nth i bt_target []).
Proof.
  intro Hi. unfold MaskOps.mask_loss. cbv zeta.
  rewrite (map_ext _
    (fun k => [if Nat.eqb (MaskOps.pos_num_of (nth k matches [])) 0 then 0
               else MaskOps.sample_loss sigmoid SBCELoss gw gh (nth k mask_pred [])
                      (nth k mask_eoc []) (nth k mask_target [])
                      (nth k matches []) (nth k bt_target [])])).
  - now rewrite nth_concat_singletons.
  - intro k. destruct (Nat.eqb _ 0); reflexivity.
Qed.

Lemma length_concat_singletons {A : Type} (f : nat -> list A) (l : list nat) :
  (forall k, length (f k) = 1%nat) -> length (concat (map f l)) = length l.
Proof.
  intro H. induction l as [|k l IH]; [reflexivity|].
  simpl. now rewrite length_app, IH, H.
Qed.

Lemma length_mask_loss (gw gh : Q) (mask_pred : list cube) (mask_eoc : cube)
      (mask_target : list cube) (matches : list (list Z)) (bt_target : cube) :
  length (MaskOps.mask_loss sigmoid SBCELoss gw gh mask_pred mask_eoc mask_target
            matches bt_target) = length mask_pred.
Proof.
  unfold MaskOps.mask_loss. cbv zeta.
  rewrite length_concat_singletons; [apply length_seq|].
  intro k. destruct (Nat.eqb _ 0); reflexivity.
Qed.

(** X5.  A sample none of whose anchors is matched ([matches < 0]
    throughout its row) has the mask loss 0 in [mask_loss] (of [MaskLoss]
    and of [YOLACTMultiBoxLoss]), whatever the predictions are; and when no
    sample of a batch has a match, [MaskLoss.forward] returns 0. *)
Theorem unmatched_samples_have_no_mask_loss (L : MaskLoss.t) (gw gh : Q)
    (box_target : cube) (gt_masks : list cube) (matches : list (list Z))
    (masks : list cube) (maskeoc_pred : cube) :
  (forall i, (i < length masks)%nat ->
     Forall (fun m => (m < 0)%Z) (nth i matches []) ->
     nth i (MaskOps.mask_loss sigmoid SBCELoss gw gh masks maskeoc_pred gt_masks
              matches box_target) 1 = 0) /\
  ((forall i, (i < length masks)%nat ->
      Forall (fun m => (m < 0)%Z) (nth i matches [])) ->
   masks <> [] ->
   MaskLoss.forward sigmoid SBCELoss L box_target gt_masks matches masks
     maskeoc_pred == 0).
Proof.
  assert (E : forall g h i, (i < length masks)%nat ->
     Forall (fun m => (m < 0)%Z) (nth i matches []) ->
     nth i (MaskOps.mask_loss sigmoid SBCELoss g h masks maskeoc_pred gt_masks
              matches box_target) 1 = 0).
  { intros g h i Hi Hm. rewrite mask_loss_entry by assumption.
    now rewrite pos_num_unmatched. }
  split; [apply E|].
  intros Hall Hne. unfold MaskLoss.forward, MaskLoss.mask_loss, nd.mean.
  set (l := MaskOps.mask_loss sigmoid SBCELoss (MaskLoss.gt_weidth L)
              (MaskLoss.gt_height L) masks maskeoc_pred gt_masks matches
              box_target).
  assert (Hz : Forall (fun x => x == 0) (map (Qmult (MaskLoss.mask_lambd L)) l)).
  { apply Forall_forall. intros x Hx. apply in_map_iff in Hx.
    destruct Hx as [y [<- Hy]].
    destruct (In_nth _ _ 1 Hy) as [i [Hi Ei]].
    unfold l in Hi. rewrite length_mask_loss in Hi.
    unfold l in Ei. rewrite (E _ _ i Hi (Hall i Hi)) in Ei. subst y. ring. }
  rewrite (sum_all_zero _ Hz). unfold Qdiv. ring.
Qed.

End Unmatched.

(** ** More on [crop] *)

Section CropMore.

Definition is01 (x : Q) : Prop := x == 0 \/ x == 1.

Lemma is01_b2q (b : bool) : is01 (b2q b).
Proof. destruct b; [right|left]; reflexivity. Qed.

Lemma is01_mult (x y : Q) : is01 x -> is01 y -> is01 (x * y).
Proof.
  unfold is01. intros [Hx|Hx] [Hy|Hy]; rewrite Hx, Hy; [left|left|left|right]; ring.
Qed.

Lemma flags_01 (f : Q -> Q -> bool) (rows : mat) (xs : list Q) :
  Forall (Forall is01)
    (nd.map2 (fun row x => map (fun v => b2q (f v x)) row) rows xs).
Proof.
  revert xs. induction rows as [|r rows IH]; intros [|x xs]; simpl; constructor.
  - apply Forall_forall. intros y Hy. apply in_map_iff in Hy.
    destruct Hy as [v [<- _]]. apply is01_b2q.
  - apply IH.
Qed.

Lemma mult_rows_01 (a b : mat) :
  Forall (Forall is01) a -> Forall (Forall is01) b ->
  Forall (Forall is01) (nd.map2 (nd.map2 Qmult) a b).
Proof.
  intro Ha. revert b. induction Ha as [|ra a Hra Ha IH]; intros b Hb; simpl;
    [constructor|].
  destruct Hb as [|rb b Hrb Hb]; constructor; [|now apply IH].
  clear - Hra Hrb. revert rb Hrb.
  induction Hra as [|x ra Hx Hra IH]; intros rb Hrb; simpl; [constructor|].
  destruct Hrb as [|y rb Hy Hrb]; constructor; [now apply is01_mult|now apply IH].
Qed.

Lemma outer_01 (a b : mat) :
  Forall (Forall is01) a -> Forall (Forall is01) b ->
  Forall (Forall (Forall is01))
    (nd.map2 (fun hrow wrow => map (fun hv => map (fun wv => hv * wv) wrow) hrow)
       a b).
Proof.
  intro Ha. revert b. induction Ha as [|ra a Hra Ha IH]; intros b Hb; simpl;
    [constructor|].
  destruct Hb as [|rb b Hrb Hb]; constructor; [|now apply IH].
  apply Forall_forall. intros r Hr. apply in_map_iff in Hr.
  destruct Hr as [hv [<- Hhv]].
  apply Forall_forall. intros x Hx. apply in_map_iff in Hx.
  destruct Hx as [wv [<- Hwv]].
  rewrite Forall_forall in Hra, Hrb. apply is01_mult; auto.
Qed.

Lemma mask_twice (M x : cube) :
  Forall (Forall (Forall is01)) M ->
  teq (nd.map2 (nd.map2 (nd.map2 Qmult)) M (nd.map2 (nd.map2 (nd.map2 Qmult)) M x))
      (nd.map2 (nd.map2 (nd.map2 Qmult)) M x).
Proof.
  intro HM. revert x. induction HM as [|m M Hm HM IH]; intros [|mx x]; simpl;
    constructor; [|apply IH].
  clear - Hm. revert mx. induction Hm as [|r m Hr Hm IH]; intros [|rx mx]; simpl;
    constructor; [|apply IH].
  clear - Hr. revert rx. induction Hr as [|v r Hv Hr IH]; intros [|vx rx]; simpl;
    constructor; [|apply IH].
  destruct Hv as [Hv|Hv]; rewrite Hv; ring.
Qed.

(** X6.  [crop] is idempotent: cropping masks that were cropped to the
    same boxes changes nothing. *)
Theorem crop_twice (bboxes : mat) (h w : nat) (masks : cube) :
  teq (MaskOps.crop bboxes h w (MaskOps.crop bboxes h w masks))
      (MaskOps.crop bboxes h w masks).
Proof.
  unfold MaskOps.crop. cbv zeta. apply mask_twice.
  apply outer_01; apply mult_rows_01; apply flags_01.
Qed.

Lemma window_empty (n : nat) (lo hi : Q) :
  hi < lo -> Forall (fun v => v == 0) (window n lo hi).
Proof.
  intro H. apply Forall_forall. intros v Hv.
  destruct (In_nth _ _ 0 Hv) as [i [Hi <-]].
  rewrite length_window in Hi.
  apply window_outside; [assumption|]. intros [H1 H2]. lra.
Qed.

(** X7.  A box whose rounded right edge lies left of its rounded left
    edge, or whose rounded bottom edge lies above its rounded top edge,
    leaves nothing of its mask: [crop] returns zeros for it. *)
Theorem crop_of_an_empty_box (bboxes : mat) (h w : nat) (masks : cube) (k : nat) :
  (k < length bboxes)%nat -> (k < length masks)%nat ->
  let bb := nth k bboxes [] in
  nd.round (nth 2 bb 0 / 4) < nd.round (nth 0 bb 0 / 4) \/
  nd.round (nth 3 bb 0 / 4) < nd.round (nth 1 bb 0 / 4) ->
  Forall (Forall (fun v => v == 0)) (nth k (MaskOps.crop bboxes h w masks) []).
Proof.
  intros Hk Hm bb Hbox. rewrite crop_row by assumption. cbv zeta. fold bb.
  set (wh := window h _ _). set (ww := window w _ _).
  assert (Hz : Forall (Forall (fun v => v == 0))
                 (map (fun hv => map (fun wv => hv * wv) ww) wh)).
  { apply Forall_forall. intros r Hr. apply in_map_iff in Hr.
    destruct Hr as [hv [<- Hhv]].
    apply Forall_forall. intros x Hx. apply in_map_iff in Hx.
    destruct Hx as [wv [<- Hwv]].
    destruct Hbox as [Hx|Hy].
    - pose proof (window_empty w _ _ Hx) as Hw. rewrite Forall_forall in Hw.
      rewrite (Hw wv Hwv). ring.
    - pose proof (window_empty h _ _ Hy) as Hh. rewrite Forall_forall in Hh.
      rewrite (Hh hv Hhv). ring. }
  revert Hz. generalize (map (fun hv => map (fun wv => hv * wv) ww) wh) as M.
  generalize (nth k masks []) as m.
  intros m M HM. revert m. induction HM as [|r M Hr HM IH]; intros [|rm m]; simpl;
    constructor; [|apply IH].
  clear - Hr. revert rm. induction Hr as [|v r Hv Hr IH]; intros [|x rm]; simpl;
    constructor; [|apply IH].
  rewrite Hv. ring.
Qed.

End CropMore.

(** The box of [crop_example], with its left and right edges exchanged. *)
Lemma crop_of_an_empty_box_witness :
  Forall (Forall (fun v => v == 0))
    (nth 0 (MaskOps.crop [[16; 4; 8; 12]] 4 5 crop_masks) []).
Proof.
  apply (crop_of_an_empty_box [[16; 4; 8; 12]] 4 5 crop_masks 0);
    [simpl; lia | simpl; lia | left; reflexivity].
Defined.

(** ** The IoU of well-formed boxes *)

(** A box [x1; y1; x2; y2] whose corners are in order, and the area the
    source gives it. *)
Definition well_formed (p : list Q) : Prop :=
  nth 0 p 0 <= nth 2 p 0 /\ nth 1 p 0 <= nth 3 p 0.

Definition box_area (p : list Q) : Q :=
  (nth 2 p 0 - nth 0 p 0 + 1) * (nth 3 p 0 - nth 1 p 0 + 1).

Section IOUBounds.

Import IOULoss.

Lemma maximum_cases (a b : Q) :
  (a <= b /\ nd.maximum a b = b) \/ (b < a /\ nd.maximum a b = a).
Proof.
  unfold nd.maximum. destruct (Qle_bool a b) eqn:E.
  - left. split; [now apply Qle_bool_iff|reflexivity].
  - right. split; [now apply Qle_bool_gt|reflexivity].
Qed.

Lemma minimum_cases (a b : Q) :
  (a <= b /\ nd.minimum a b = a) \/ (b < a /\ nd.minimum a b = b).
Proof.
  unfold nd.minimum. destruct (Qle_bool a b) eqn:E.
  - left. split; [now apply Qle_bool_iff|reflexivity].
  - right. split; [now apply Qle_bool_gt|reflexivity].
Qed.

(** The width of the intersection is between 0 and either width. *)
Lemma overlap_bounds (p1 p2 g1 g2 : Q) :
  p1 <= p2 -> g1 <= g2 ->
  let i := nd.maximum (nd.minimum p2 g2 - nd.maximum p1 g1 + 1) 0 in
  0 <= i /\ i <= p2 - p1 + 1 /\ i <= g2 - g1 + 1.
Proof.
  intros Hp Hg i. subst i.
  destruct (minimum_cases p2 g2) as [[H1 ->]|[H1 ->]];
    destruct (maximum_cases p1 g1) as [[H2 ->]|[H2 ->]];
    match goal with
    | |- context [nd.maximum ?x 0] =>
        destruct (maximum_cases x 0) as [[H3 ->]|[H3 ->]]
    end; repeat split; lra.
Qed.

(** The numbers [iou_pair] is made of, for two well-formed boxes. *)
Lemma iou_pair_parts (p g : list Q) :
  well_formed p -> well_formed g ->
  exists i : Q,
    0 <= i /\ i <= box_area p /\ i <= box_area g /\
    1 <= box_area p /\ 1 <= box_area g /\
    iou_pair p g == (i + 1) / (box_area p + box_area g - i).
Proof.
  intros [Hpx Hpy] [Hgx Hgy].
  pose proof (overlap_bounds _ _ _ _ Hpx Hgx) as (Hw0 & Hwp & Hwg).
  pose proof (overlap_bounds _ _ _ _ Hpy Hgy) as (Hh0 & Hhp & Hhg).
  cbv zeta in *.
  set (iw := nd.maximum (nd.minimum (nth 2 p 0) (nth 2 g 0)
                         - nd.maximum (nth 0 p 0) (nth 0 g 0) + 1) 0) in *.
  set (ih := nd.maximum (nd.minimum (nth 3 p 0) (nth 3 g 0)
                         - nd.maximum (nth 1 p 0) (nth 1 g 0) + 1) 0) in *.
  exists (iw * ih).
  assert (Hi0 : 0 <= iw * ih) by (apply Qmult_le_0_compat; assumption).
  assert (Hip : iw * ih <= box_area p)
    by (unfold box_area; apply Qmult_le_compat_nonneg; split; assumption).
  assert (Hig : iw * ih <= box_area g)
    by (unfold box_area; apply Qmult_le_compat_nonneg; split; assumption).
  assert (Hap : 1 <= box_area p).
  { unfold box_area.
    setoid_replace 1 with (1 * 1) at 1 by ring.
    apply Qmult_le_compat_nonneg; split; lra. }
  assert (Hag : 1 <= box_area g).
  { unfold box_area.
    setoid_replace 1 with (1 * 1) at 1 by ring.
    apply Qmult_le_compat_nonneg; split; lra. }
  repeat (split; [assumption|]).
  unfold iou_pair. cbv zeta. fold iw ih.
  transitivity
    (nd.maximum ((iw * ih + 1) / (box_area p + box_area g - (iw * ih + 1) + 1)) 0).
  { apply maximum_comp_l. rewrite !Qabs_pos by lra. reflexivity. }
  assert (Hu : 0 < box_area p + box_area g - (iw * ih + 1) + 1) by lra.
  assert (Hq : 0 < (iw * ih + 1) / (box_area p + box_area g - (iw * ih + 1) + 1)).
  { apply Qlt_shift_div_l; [assumption|]. lra. }
  destruct (maximum_cases
              ((iw * ih + 1) / (box_area p + box_area g - (iw * ih + 1) + 1)) 0)
    as [[H _]|[_ ->]]; [lra|].
  apply Qeq_sym.
  setoid_replace (box_area p + box_area g - iw * ih)
    with (box_area p + box_area g - (iw * ih + 1) + 1) by ring.
  reflexivity.
Qed.

Lemma iou_entry (pred gt : cube) (b n : nat) :
  (b < length pred)%nat -> (b < length gt)%nat ->
  (n < length (nth b pred []))%nat -> (n < length (nth b gt []))%nat ->
  nth n (nth b (ious_of pred gt) []) 0
  = iou_pair (nth n (nth b pred []) []) (nth n (nth b gt []) []).
Proof.
  intros H1 H2 H3 H4. rewrite ious_of_rows.
  rewrite (nth_map2 _ _ _ _ [] []) by assumption.
  now rewrite (nth_map2 _ _ _ _ [] []).
Qed.

(** X8.  The IoU tensor of [IOULoss.hybrid_forward] at a pair of
    well-formed boxes: the value is above 0, also when the boxes do not
    meet, and at most 2; so for [eps >= 0] the logarithm of the loss is taken
    of a number in (0, 1]. *)
Theorem iou_of_well_formed_boxes (L : t) (pred gt : cube) (b n : nat) :
  (b < length pred)%nat -> (b < length gt)%nat ->
  (n < length (nth b pred []))%nat -> (n < length (nth b gt []))%nat ->
  well_formed (nth n (nth b pred []) []) ->
  well_formed (nth n (nth b gt []) []) ->
  0 <= _eps L ->
  let iou := nth n (nth b (ious_of pred gt) []) 0 in
  0 < iou /\ iou <= 2 /\
  0 < nd.minimum (iou + _eps L) 1 /\ nd.minimum (iou + _eps L) 1 <= 1.
Proof.
  intros H1 H2 H3 H4 Hp Hg He iou. subst iou.
  rewrite iou_entry by assumption.
  destruct (iou_pair_parts _ _ Hp Hg) as (i & Hi0 & Hip & Hig & Hap & Hag & E).
  set (p := nth n (nth b pred []) []) in *.
  set (g := nth n (nth b gt []) []) in *.
  assert (Hu : 0 < box_area p + box_area g - i) by lra.
  assert (Hpos : 0 < iou_pair p g).
  { rewrite E. apply Qlt_shift_div_l; [assumption|]. lra. }
  assert (Hle : iou_pair p g <= 2).
  { rewrite E. apply Qle_shift_div_r; [assumption|]. lra. }
  repeat split; try assumption.
  - destruct (minimum_cases (iou_pair p g + _eps L) 1) as [[_ ->]|[_ ->]]; lra.
  - destruct (minimum_cases (iou_pair p g + _eps L) 1) as [[H ->]|[_ ->]]; lra.
Qed.

Lemma perfect_pair (eps : Q) (p : list Q) :
  well_formed p -> 0 <= eps ->
  iou_pair p p == 1 + 1 / box_area p /\ nd.minimum (iou_pair p p + eps) 1 = 1.
Proof.
  intros [Hx Hy] He.
  assert (Hw : forall a1 a2, a1 <= a2 ->
            nd.maximum (nd.minimum a2 a2 - nd.maximum a1 a1 + 1) 0 = a2 - a1 + 1).
  { intros a1 a2 H.
    replace (nd.minimum a2 a2) with a2
      by (unfold nd.minimum; now destruct (Qle_bool a2 a2)).
    replace (nd.maximum a1 a1) with a1
      by (unfold nd.maximum; now destruct (Qle_bool a1 a1)).
    destruct (maximum_cases (a2 - a1 + 1) 0) as [[H0 _]|[_ ->]]; [lra|reflexivity]. }
  assert (Hap : 1 <= box_area p).
  { unfold box_area.
    setoid_replace 1 with (1 * 1) at 1 by ring.
    apply Qmult_le_compat_nonneg; split; lra. }
  assert (E : iou_pair p p == 1 + 1 / box_area p).
  { unfold iou_pair. cbv zeta. rewrite (Hw _ _ Hx), (Hw _ _ Hy).
    fold (box_area p).
    transitivity
      (nd.maximum ((box_area p + 1)
                   / (box_area p + box_area p - (box_area p + 1) + 1)) 0).
    { apply maximum_comp_l. rewrite !Qabs_pos by lra. reflexivity. }
    assert (Hq : 0 < (box_area p + 1)
                     / (box_area p + box_area p - (box_area p + 1) + 1)).
    { apply Qlt_shift_div_l; lra. }
    destruct (maximum_cases
                ((box_area p + 1)
                 / (box_area p + box_area p - (box_area p + 1) + 1)) 0)
      as [[H _]|[_ ->]]; [lra|].
    field. lra. }
  split; [exact E|].
  assert (Hinv : 0 < 1 / box_area p) by (apply Qlt_shift_div_l; lra).
  destruct (minimum_cases (iou_pair p p + eps) 1) as [[H _]|[_ ->]];
    [lra|reflexivity].
Qed.

Variable log : Q -> Q.

Lemma perfect_rows (eps : Q) (pred : cube) :
  Forall (Forall well_formed) pred -> 0 <= eps ->
  ew1 (fun x => - log (nd.minimum (x + eps) 1))
    (nd.map2 (nd.map2 iou_pair) pred pred)
  = map (map (fun _ => - log 1)) pred.
Proof.
  unfold ew1. intros H He. revert H.
  induction pred as [|row pred IH]; intro H; [reflexivity|].
  inversion H as [|? ? Hrow Hrest]; subst. simpl. f_equal; [|now apply IH].
  clear - Hrow He. induction Hrow as [|p row Hp Hrow IH]; [reflexivity|].
  simpl. f_equal; [|exact IH].
  now rewrite (proj2 (perfect_pair eps p Hp He)).
Qed.

Lemma constant_times_mask (c : Q) (pred : cube) (mask : mat) :
  same_rows pred mask ->
  nd.sum2 (ew2 Qmult (map (map (fun _ => c)) pred) mask) == c * nd.sum2 mask.
Proof.
  unfold nd.sum2, ew2. intro H. induction H as [|row mrow pred mask Hr H IH].
  - simpl. ring.
  - simpl. rewrite IH.
    assert (E : nd.sum (nd.map2 Qmult (map (fun _ => c) row) mrow)
                == c * nd.sum mrow).
    { clear - Hr. revert mrow Hr.
      induction row as [|x row IHr]; intros [|m mrow] Hr; try discriminate;
        simpl; [ring|].
      rewrite IHr by (simpl in Hr; lia). ring. }
    rewrite E. ring.
Qed.

(** X9.  A perfect prediction under [IOULoss.hybrid_forward].  The IoU of
    a well-formed box with itself is [1 + 1 / area], above 1, so the loss
    clips it: for [eps >= 0] every box contributes [-log(1)], and the loss of
    predictions equal to their targets is [-log(1)] times
    [n / maximum(n, 1)], [n] being the sum of the foreground mask. *)
Theorem iou_of_a_perfect_prediction (L : t) (pred : cube) (label : mat) :
  Forall (Forall well_formed) pred -> same_rows pred label -> 0 <= _eps L ->
  let n := nd.sum2 (fg_mask_of label) in
  Forall (Forall (fun p => iou_pair p p == 1 + 1 / box_area p /\
                           nd.minimum (iou_pair p p + _eps L) 1 = 1)) pred /\
  loss_of (hybrid_forward log L pred pred label)
  == - log 1 * (n / nd.maximum n 1).
Proof.
  intros Hw Hs He n. split.
  - eapply Forall_impl; [|exact Hw]. intros row Hrow.
    eapply Forall_impl; [|exact Hrow]. intros p Hp.
    now apply perfect_pair.
  - assert (E : loss_of (hybrid_forward log L pred pred label)
                = nd.sum2 (ew2 Qmult
                             (ew1 (fun x => - log (nd.minimum (x + _eps L) 1))
                                (ious_of pred pred))
                             (fg_mask_of label))
                  / nd.maximum n 1).
    { unfold hybrid_forward. destruct (_return_iou L); reflexivity. }
    rewrite E, ious_of_rows, perfect_rows by assumption.
    assert (Hm : same_rows pred (fg_mask_of label)).
    { clear - Hs. unfold fg_mask_of, ew1.
      induction Hs as [|row lrow pred label Hr Hs IH]; constructor;
        [now rewrite length_map|exact IH]. }
    rewrite (constant_times_mask _ _ _ Hm).
    fold n. unfold Qdiv. ring.
Qed.

Lemma masked_out (A : mat) (label : mat) :
  Forall (Forall (fun l => l <= 0)) label ->
  Forall (Forall (fun x => x == 0)) (ew2 Qmult A (fg_mask_of label)).
Proof.
  unfold ew2, fg_mask_of, ew1. intro H. revert A.
  induction H as [|row label Hrow H IH]; intros [|a A]; simpl; constructor;
    [|apply IH].
  clear - Hrow. revert a. induction Hrow as [|l row Hl Hrow IH]; intros [|x a];
    simpl; constructor; [|apply IH].
  replace (Qgtb l 0) with false
    by (symmetry; unfold Qgtb; now apply Qltb_ge).
  change (nd.where_ (b2q false) 1 0) with 0. ring.
Qed.

(** X10.  [IOULoss.hybrid_forward] on a batch without foreground: when no
    label is above 0, the loss is 0 whatever the boxes are, with the IoU
    tensor returned beside it or not. *)
Theorem iou_loss_without_foreground (L : t) (pred gt : cube) (label : mat) :
  Forall (Forall (fun l => l <= 0)) label ->
  loss_of (hybrid_forward log L pred gt label) == 0.
Proof.
  intro H.
  assert (E : loss_of (hybrid_forward log L pred gt label)
              = nd.sum2 (ew2 Qmult
                           (ew1 (fun x => - log (nd.minimum (x + _eps L) 1))
                              (ious_of pred gt))
                           (fg_mask_of label))
                / nd.maximum (nd.sum2 (fg_mask_of label)) 1).
  { unfold hybrid_forward. destruct (_return_iou L); reflexivity. }
  rewrite E, (sum2_all_zero _ (masked_out _ label H)).
  unfold Qdiv. ring.
Qed.

End IOUBounds.

(** The boxes of [iou_example]: equal in the first pair, one inside the
    other in the second. *)
Lemma iou_of_well_formed_boxes_witness :
  0 < nth 1 (nth 0 (IOULoss.ious_of iou_pred iou_gt) []) 0 <= 2.
Proof.
  destruct (iou_of_well_formed_boxes (IOULoss.__init__ false 0 None 0)
              iou_pred iou_gt 0 1) as (H1 & H2 & _);
    try (simpl; lia); try (split; simpl; lra); [simpl; lra|].
  split; assumption.
Defined.

Lemma iou_of_a_perfect_prediction_witness :
  IOULoss.loss_of
    (IOULoss.hybrid_forward log_standin (IOULoss.__init__ false 0 None 0)
       iou_pred iou_pred iou_label) == 0.
Proof.
  destruct (iou_of_a_perfect_prediction log_standin
              (IOULoss.__init__ false 0 None 0) iou_pred iou_label) as [_ H].
  - repeat constructor; simpl; lra.
  - repeat constructor.
  - simpl. lra.
  - rewrite H. reflexivity.
Defined.

Lemma iou_loss_without_foreground_witness :
  IOULoss.loss_of
    (IOULoss.hybrid_forward log_standin (IOULoss.__init__ true 0 None 0)
       iou_pred iou_gt [[0; -1]]) == 0.
Proof.
  apply (iou_loss_without_foreground log_standin).
  repeat constructor; simpl; lra.
Defined.

(** ** The centre-ness loss *)

(** The entries (score, centre-ness target, class target) over every
    (b, n). *)
Definition ctr_entries (pred ctr_gt cls_gt : mat) : list (Q * Q * Q) :=
  concat (nd.map2 (fun pc rl => combine (combine (fst pc) (snd pc)) rl)
            (combine pred ctr_gt) cls_gt).

Definition positive (e : Q * Q * Q) : bool := Qgtb (snd e) 0.

Section CtrNessFacts.

Import CtrNessLoss.

Variable log : Q -> Q.
Variable exp : Q -> Q.

(** The binary cross-entropy of a score [x] against a target [t], in the
    form that does not overflow. *)
Definition ctr_term (e : Q * Q * Q) : Q :=
  let x := fst (fst e) in
  let t := snd (fst e) in
  nd.maximum x 0 - x * t + log (1 + exp (- Qabs x)).

Lemma relu_as_mask (x : Q) : x * b2q (Qgeb x 0) == nd.maximum x 0.
Proof.
  unfold Qgeb, nd.maximum.
  destruct (Qle_bool 0 x) eqn:E1; destruct (Qle_bool x 0) eqn:E2; simpl;
    try (apply Qle_bool_iff in E1); try (apply Qle_bool_iff in E2);
    try (apply Qle_bool_gt in E1); try (apply Qle_bool_gt in E2); lra.
Qed.

Lemma ctr_row_sum (xs ts cs : list Q) :
  length xs = length ts -> length xs = length cs ->
  nd.sum (nd.map2 Qmult
            (nd.map2 Qplus
               (nd.map2 Qminus
                  (nd.map2 Qmult xs (map (fun p => b2q (Qgeb p 0)) xs))
                  (nd.map2 Qmult xs ts))
               (map (fun p => log (1 + exp (- Qabs p))) xs))
            (map (fun c => b2q (Qgtb c 0)) cs))
  == nd.sum (map ctr_term (filter positive (combine (combine xs ts) cs))).
Proof.
  revert ts cs. induction xs as [|x xs IH]; intros [|t ts] [|c cs] H1 H2;
    simpl in *; try discriminate; try reflexivity.
  rewrite IH by congruence.
  unfold positive at 2. simpl.
  destruct (Qgtb c 0); simpl; unfold ctr_term; simpl;
    pose proof (relu_as_mask x) as Hr; lra.
Qed.

Lemma ctr_row_mask (xs ts cs : list Q) :
  length xs = length ts -> length xs = length cs ->
  nd.sum (map (fun c => b2q (Qgtb c 0)) cs)
  == n2q (length (filter positive (combine (combine xs ts) cs))).
Proof.
  revert ts cs. induction xs as [|x xs IH]; intros [|t ts] [|c cs] H1 H2;
    simpl in *; try discriminate; try reflexivity.
  rewrite (IH ts cs) by congruence.
  unfold positive at 2. simpl.
  destruct (Qgtb c 0); simpl.
  - change (S ?n) with (1 + n)%nat. rewrite n2q_plus. reflexivity.
  - lra.
Qed.

Lemma ctr_tensor_sums (pred ctr_gt cls_gt : mat) :
  same_rows pred ctr_gt -> same_rows pred cls_gt ->
  nd.sum2 (fst (loss_and_mask log exp pred ctr_gt cls_gt))
  == nd.sum (map ctr_term (filter positive (ctr_entries pred ctr_gt cls_gt))) /\
  nd.sum2 (snd (loss_and_mask log exp pred ctr_gt cls_gt))
  == n2q (length (filter positive (ctr_entries pred ctr_gt cls_gt))).
Proof.
  unfold loss_and_mask, nd.sum2, IOULoss.ew2, IOULoss.ew1, ctr_entries, same_rows.
  cbn [fst snd].
  intros Hg. revert cls_gt.
  induction Hg as [|rp rg pred ctr_gt Hr Hg IH]; intros cls_gt Hl;
    inversion Hl as [|? rl ? cls_gt' Hrl Hl']; subst; simpl;
    [split; reflexivity|].
  destruct (IH cls_gt' Hl') as [IH1 IH2].
  rewrite filter_app, map_app, sum_app, length_app, n2q_plus, <- IH1, <- IH2.
  rewrite (ctr_row_sum rp rg rl) by assumption.
  rewrite (ctr_row_mask rp rg rl) by assumption.
  split; reflexivity.
Qed.

Lemma squeeze_ok (pred : cube) :
  Forall (Forall (fun x => length x = 1%nat)) pred ->
  squeeze pred = Ok (map (map (fun x => nth 0 x 0)) pred).
Proof.
  intro H. unfold squeeze.
  replace (forallb (forallb (fun x => Nat.eqb (length x) 1)) pred) with true;
    [reflexivity|].
  symmetry. apply forallb_forall. intros m Hm. apply forallb_forall. intros x Hx.
  rewrite Forall_forall in H. specialize (H m Hm).
  rewrite Forall_forall in H. apply Nat.eqb_eq. now apply H.
Qed.

(** X11.  [CtrNessLoss.hybrid_forward], for scores of shape (B, N, 1) and
    targets of shape (B, N): the result is the sum, over the entries with a
    class target above 0, of [max(x, 0) - x * t + log(1 + exp(-|x|))], over
    the maximum of the number of these entries and 1.  A score tensor whose
    last axis is not of length 1 is refused. *)
Theorem ctrness_loss_over_positives (L : t) (pred : cube) (ctr_gt cls_gt : mat) :
  let squeezed := map (map (fun x => nth 0 x 0)) pred in
  let pos := filter positive (ctr_entries squeezed ctr_gt cls_gt) in
  (Forall (Forall (fun x => length x = 1%nat)) pred ->
   same_rows pred ctr_gt -> same_rows pred cls_gt ->
   exists r,
     hybrid_forward log exp L pred ctr_gt cls_gt = Ok r /\
     r == nd.sum (map ctr_term pos) / nd.maximum (n2q (length pos)) 1) /\
  (~ Forall (Forall (fun x => length x = 1%nat)) pred ->
   hybrid_forward log exp L pred ctr_gt cls_gt = Raises MXNetError).
Proof.
  intros squeezed pos. split.
  - intros Hp Hc Hl. unfold hybrid_forward. rewrite (squeeze_ok pred Hp).
    fold squeezed.
    assert (Hs : forall (B : Type) (y : list (list B)),
               same_rows pred y -> same_rows squeezed y).
    { intros B y Hy. unfold squeezed. clear - Hy.
      induction Hy as [|r ry pred y Hr Hy IH]; constructor;
        [now rewrite length_map|exact IH]. }
    destruct (ctr_tensor_sums squeezed ctr_gt cls_gt (Hs _ _ Hc) (Hs _ _ Hl))
      as [E1 E2].
    destruct (loss_and_mask log exp squeezed ctr_gt cls_gt) as [loss mask].
    eexists. split; [reflexivity|].
    simpl in E1, E2. fold pos in E1, E2.
    rewrite E1, (maximum_comp_l _ _ 1 E2). reflexivity.
  - intro Hn. unfold hybrid_forward, squeeze.
    destruct (forallb (forallb (fun x => Nat.eqb (length x) 1)) pred) eqn:E;
      [|reflexivity].
    exfalso. apply Hn. apply Forall_forall. intros m Hm.
    apply Forall_forall. intros x Hx.
    rewrite forallb_forall in E. specialize (E m Hm).
    rewrite forallb_forall in E. now apply Nat.eqb_eq, E.
Qed.

End CtrNessFacts.

(** ** The sigmoid focal loss *)

(** The fields of a [SigmoidFocalLoss] the focal term reads. *)
Definition as_focal (L : SigmoidFocalLoss.t) : FocalLoss.t :=
  {| FocalLoss._weight := SigmoidFocalLoss._weight L;
     FocalLoss._batch_axis := SigmoidFocalLoss._batch_axis L;
     FocalLoss._axis := -1;
     FocalLoss._alpha := SigmoidFocalLoss._alpha L;
     FocalLoss._gamma := SigmoidFocalLoss._gamma L;
     FocalLoss._sparse_label := SigmoidFocalLoss._sparse_label L;
     FocalLoss._num_class := SigmoidFocalLoss._num_class L;
     FocalLoss._from_logits := SigmoidFocalLoss._from_logits L;
     FocalLoss._eps := SigmoidFocalLoss._eps L;
     FocalLoss._size_average := false |}.

Section SigmoidFocalFacts.

Import SigmoidFocalLoss.

Variable sigmoid : Q -> Q.
Variable log : Q -> Q.
Variable power : Q -> Q -> Q.

(** The focal terms with the classes counted from 1: entry [j] of an
    anchor is the term of class [j + 1]. *)
Definition sigmoid_focal_terms (L : t) (pred : cube) (label : list (list Z))
  : cube :=
  nd.map2 (nd.map2 (focal_row_from sigmoid log power (as_focal L) 1)) pred label.

Lemma sum3_teq (x y : cube) : teq x y -> nd.sum3 x == nd.sum3 y.
Proof.
  intro H. unfold nd.sum3. apply sum_veq.
  induction H as [|mx my x y Hm H IH]; constructor; [|exact IH].
  unfold nd.sum2. apply sum_veq.
  clear - Hm. induction Hm as [|rx ry mx my Hr Hm IH]; constructor; [|exact IH].
  now apply sum_veq.
Qed.

Lemma sliced_tensor_terms (L : t) (k : nat) (pred : cube) (label : list (list Z)) :
  same_rows pred label ->
  Forall (Forall (fun s => length s = k)) pred ->
  teq (focal_tensor log power L
         (if _from_logits L then pred else Loss.ew1 sigmoid pred)
         (map (map (fun c => skipn 1 (nd.one_hot c (S k)))) label))
      (sigmoid_focal_terms L pred label).
Proof.
  intros Hr Hd.
  change (focal_tensor log power L) with (FocalLoss.focal_tensor log power (as_focal L)).
  rewrite focal_tensor_rows. unfold sigmoid_focal_terms.
  assert (E : (if _from_logits L then pred else Loss.ew1 sigmoid pred)
              = map (map (scores_of sigmoid (as_focal L))) pred).
  { unfold scores_of, Loss.ew1. simpl. destruct (_from_logits L); [|reflexivity].
    rewrite <- (map_id pred) at 1. apply map_ext. intro m.
    rewrite <- (map_id m) at 1. reflexivity. }
  rewrite E. clear E. unfold same_rows in Hr.
  induction Hr as [|mp ml pred label Hlen Hr IH]; simpl; [constructor|].
  inversion Hd as [|? ? Hm Hd']; subst. constructor; [|now apply IH].
  clear - Hlen Hm. revert ml Hlen.
  induction mp as [|scores mp IHm]; intros [|l ml] Hlen; simpl in *;
    try discriminate; [constructor|].
  inversion Hm as [|? ? Hs Hm']; subst. constructor.
  - apply code_row_focal_row.
  - apply IHm; [exact Hm'|congruence].
Qed.

Lemma sliced_shape (L : t) (k : nat) (pred : cube) (label : list (list Z)) :
  same_rows pred label ->
  Forall (Forall (fun s => length s = k)) pred ->
  Loss.same_shape (map (map (fun c => skipn 1 (nd.one_hot c (S k)))) label)
    (if _from_logits L then pred else Loss.ew1 sigmoid pred) = true.
Proof.
  intros Hr Hd. unfold Loss.same_shape.
  match goal with |- (if ?d then _ else _) = _ => destruct d as [_|N] end;
    [reflexivity|exfalso; apply N; clear N].
  assert (E : Loss.shape (if _from_logits L then pred else Loss.ew1 sigmoid pred)
              = Loss.shape pred).
  { destruct (_from_logits L); [reflexivity|].
    unfold Loss.shape, Loss.ew1. rewrite map_map. apply map_ext. intro m.
    rewrite map_map. apply map_ext. intro v. apply length_map. }
  rewrite E. clear E. unfold Loss.shape, same_rows in *.
  induction Hr as [|mp ml pred label Hlen Hr IH]; simpl; [reflexivity|].
  inversion Hd as [|? ? Hm Hd']; subst. f_equal; [|now apply IH].
  clear - Hlen Hm. revert ml Hlen.
  induction mp as [|scores mp IHm]; intros [|l ml] Hlen; simpl in *;
    try discriminate; [reflexivity|].
  inversion Hm as [|? ? Hs Hm']; subst. f_equal.
  - now rewrite length_map, length_seq.
  - apply IHm; [exact Hm'|congruence].
Qed.

(** X12.  [SigmoidFocalLoss.hybrid_forward] with [num_class = K >= 2], on
    scores of shape (B, N, K - 1) and class indices of shape (B, N).
    Channel [j] of an anchor is the channel of class [j + 1]: it is the one
    hot channel when the label is [j + 1], and a label 0 (background) has no
    hot channel.  The result is the sum of the focal terms, weighted as
    [_apply_weighting] does, over the maximum of the number of labels above
    0 and 1. *)
Theorem sigmoid_focal_loss_formula (L : t) (pred : cube) (label : list (list Z))
    (sw : option cube) (weighted : cube) :
  isinstance_int (_num_class L) = true ->
  (2 <= int_value (_num_class L))%Z ->
  same_rows pred label ->
  Forall (Forall (fun s => length s
                           = (Z.to_nat (int_value (_num_class L)) - 1)%nat)) pred ->
  Loss._apply_weighting (sigmoid_focal_terms L pred label) (_weight L) sw
  = Ok weighted ->
  exists r,
    hybrid_forward sigmoid log power L pred label sw = Ok r /\
    r == nd.sum3 weighted
         / nd.maximum
             (n2q (length (filter (fun c => (0 <? c)%Z) (concat label)))) 1.
Proof.
  intros Hint Hk Hr Hd Hw.
  destruct (Z.to_nat (int_value (_num_class L))) as [|k] eqn:Ek; [lia|].
  replace (S k - 1)%nat with k in Hd by lia.
  unfold hybrid_forward, one_hot_of. rewrite Hint, Ek.
  replace (2 <=? int_value (_num_class L))%Z with true
    by (symmetry; apply Z.leb_le; exact Hk).
  cbn [andb].
  rewrite (sliced_shape L k pred label Hr Hd). cbn [negb].
  destruct (apply_weighting_teq _ _ _ _ _
              (sliced_tensor_terms L k pred label Hr Hd) Hw) as [tx [Etx Htx]].
  rewrite Etx. eexists. split; [reflexivity|].
  rewrite (sum3_teq _ _ Htx).
  change (pos_mask_of label) with (SSDMultiBoxLoss.pos_of label).
  rewrite (maximum_comp_l _ _ 1 (sum2_pos_of label)). reflexivity.
Qed.

End SigmoidFocalFacts.

(** ** The class and centre-ness blocks of MaskFCOSLoss.forward *)

(** The [SigmoidFocalLoss] with the fields of a [MaskFCOSLoss], and no
    weight. *)
Definition focal_of_fcos (M : MaskFCOSLoss.t) : SigmoidFocalLoss.t :=
  {| SigmoidFocalLoss._weight := None;
     SigmoidFocalLoss._batch_axis := 0;
     SigmoidFocalLoss._alpha := MaskFCOSLoss._alpha M;
     SigmoidFocalLoss._gamma := MaskFCOSLoss._gamma M;
     SigmoidFocalLoss._sparse_label := MaskFCOSLoss._sparse_label M;
     SigmoidFocalLoss._num_class := MaskFCOSLoss._num_class M;
     SigmoidFocalLoss._from_logits := MaskFCOSLoss._from_logits M;
     SigmoidFocalLoss._eps := MaskFCOSLoss._eps M |}.

Section MaskFCOSBlocks.

Variable sigmoid : Q -> Q.
Variable log : Q -> Q.
Variable exp : Q -> Q.
Variable power : Q -> Q -> Q.

Lemma positive_class (c : Z) : Qgtb (inject_Z c) 0 = (0 <? c)%Z.
Proof.
  unfold Qgtb, Qltb, Qle_bool, inject_Z. simpl.
  rewrite Z.mul_1_r. destruct (Z.leb_spec c 0); destruct (Z.ltb_spec 0 c);
    simpl; try reflexivity; lia.
Qed.

(** X13.  The first two blocks of the loop of [MaskFCOSLoss.forward]
    compute, for a device, what the per-card losses compute: the class loss
    is [SigmoidFocalLoss.hybrid_forward] with the same [alpha], [gamma],
    [num_class], [from_logits] and [eps], no weight and no sample weight;
    the centre-ness loss is [CtrNessLoss.hybrid_forward]. *)
Theorem mask_fcos_blocks_are_the_card_losses (M : MaskFCOSLoss.t)
    (C : CtrNessLoss.t) (clst : list (list Z)) (ctrt : mat) (clsp ctrp : cube) :
  MaskFCOSLoss.cls_loss sigmoid log power M clst clsp
  = SigmoidFocalLoss.hybrid_forward sigmoid log power (focal_of_fcos M)
      clsp clst None /\
  MaskFCOSLoss.ctr_loss log exp clst ctrt ctrp
  = CtrNessLoss.hybrid_forward log exp C ctrp ctrt (map (map inject_Z) clst).
Proof.
  split.
  - unfold MaskFCOSLoss.cls_loss, SigmoidFocalLoss.hybrid_forward,
      SigmoidFocalLoss.one_hot_of. cbn [focal_of_fcos
      SigmoidFocalLoss._num_class SigmoidFocalLoss._from_logits
      SigmoidFocalLoss._weight].
    destruct (isinstance_int (MaskFCOSLoss._num_class M)
              && (2 <=? int_value (MaskFCOSLoss._num_class M))%Z);
      [|reflexivity].
    destruct (negb (Loss.same_shape _ _)); reflexivity.
  - unfold MaskFCOSLoss.ctr_loss, CtrNessLoss.hybrid_forward.
    destruct (CtrNessLoss.squeeze ctrp) as [p|e]; [|reflexivity].
    unfold CtrNessLoss.loss_and_mask.
    assert (E : IOULoss.ew1 (fun c => b2q (Qgtb c 0)) (map (map inject_Z) clst)
                = MaskFCOSLoss.pos_gt_mask_of clst).
    { unfold IOULoss.ew1, MaskFCOSLoss.pos_gt_mask_of.
      rewrite map_map. apply map_ext. intro row.
      rewrite map_map. apply map_ext. intro c. now rewrite positive_class. }
    rewrite E. reflexivity.
Qed.

End MaskFCOSBlocks.

(** ** The distillation loss *)

Section DistillationFacts.

Import DistillationSoftmaxCrossEntropyLoss.

Variable label_t : Type.
Variable soft_loss : mat -> mat -> list Q.
Variable hard_loss : mat -> label_t -> list Q.

(** X14.  The three branches of
    [DistillationSoftmaxCrossEntropyLoss.hybrid_forward] are one formula:
    whatever [hard_weight] is, the loss of a sample is
    [(1 - hard_weight) * temperature^2 * soft + hard_weight * hard], the
    branches for the weights 0 and 1 leaving out the term that vanishes. *)
Theorem distillation_is_one_formula (L : t) (output : mat) (label : label_t)
    (soft_target : mat) :
  let soft :=
    soft_loss (map (map (fun x => x / _temperature L)) output) soft_target in
  let hard := hard_loss output label in
  length soft = length hard ->
  veq (hybrid_forward label_t soft_loss hard_loss L output label soft_target)
      (nd.map2 (fun s h => (1 - _hard_weight L) * (_temperature L ^ 2 * s)
                           + _hard_weight L * h) soft hard).
Proof.
  intros soft hard Hlen. unfold hybrid_forward. fold soft. fold hard.
  clearbody soft hard. set (t2 := _temperature L ^ 2).
  destruct (Qeq_bool (_hard_weight L) 0) eqn:E0;
    [|destruct (Qeq_bool (_hard_weight L) 1) eqn:E1].
  - apply Qeq_bool_iff in E0. revert hard Hlen.
    induction soft as [|s soft IH]; intros [|h hard] Hlen; try discriminate;
      simpl; constructor.
    + rewrite E0. ring.
    + apply IH. simpl in Hlen. lia.
  - apply Qeq_bool_iff in E1. revert soft Hlen.
    induction hard as [|h hard IH]; intros [|s soft] Hlen; try discriminate;
      simpl; constructor.
    + rewrite E1. ring.
    + apply IH. simpl in Hlen. lia.
  - clear. revert hard.
    induction soft as [|s soft IH]; intros [|h hard]; simpl; constructor.
    + ring.
    + apply IH.
Qed.

End DistillationFacts.

(** ** Masks with their mean taken out *)

Section GlobalAwareFacts.

Variable sqrt : Q -> Q.

Lemma fill2_shape (tpl : mat) (flat : list Q) :
  length flat = length (concat tpl) ->
  map (@length Q) (fst (fill2 tpl flat)) = map (@length Q) tpl /\
  concat (fst (fill2 tpl flat)) = flat.
Proof.
  revert flat. induction tpl as [|r tpl IH]; intros flat H; simpl in *.
  - destruct flat; [split; reflexivity|discriminate].
  - rewrite length_app in H.
    destruct (IH (skipn (length r) flat)) as [IH1 IH2].
    { rewrite length_skipn. lia. }
    destruct (fill2 tpl (skipn (length r) flat)) as [m rest]. simpl in *.
    split.
    + f_equal; [|exact IH1]. rewrite length_firstn. lia.
    + rewrite IH2. apply firstn_skipn.
Qed.

Lemma sum_shifted (mu : Q) (v : list Q) :
  nd.sum (map (fun x => x - mu) v) == nd.sum v - n2q (length v) * mu.
Proof.
  induction v as [|a v IH]; [simpl; unfold n2q; simpl; ring|].
  cbn [map nd.sum fold_right length]. fold (nd.sum (map (fun x => x - mu) v)).
  fold (nd.sum v). rewrite IH.
  change (S (length v)) with (1 + length v)%nat. rewrite n2q_plus.
  change (n2q 1) with 1. ring.
Qed.

Lemma sum_divided (d : Q) (v : list Q) :
  nd.sum (map (fun x => x / d) v) == nd.sum v / d.
Proof.
  induction v as [|a v IH]; simpl; [unfold Qdiv; ring|].
  rewrite IH. unfold Qdiv. ring.
Qed.

(** X15.  [global_aware] (of [YOLACTMultiBoxLoss] and of [MaskLoss]) keeps
    the number and the shape of the masks, and the entries of every mask it
    returns add up to 0: the mean of the mask is taken out before the
    division by the deviation. *)
Theorem global_aware_takes_the_mean_out (masks : cube) (k : nat) :
  (k < length masks)%nat -> concat (nth k masks []) <> [] ->
  let out := MaskOps.global_aware sqrt masks in
  length out = length masks /\
  map (@length Q) (nth k out []) = map (@length Q) (nth k masks []) /\
  nd.sum2 (nth k out []) == 0.
Proof.
  intros Hk Hne out. subst out. unfold MaskOps.global_aware.
  split; [apply length_map|].
  rewrite (nth_map_lt _ _ _ []) by assumption.
  set (m := nth k masks []) in *.
  set (flat := concat m) in *.
  set (centered := map (fun x => x - nd.mean flat) flat).
  set (std := sqrt (nd.mean (map (fun x => x * x) centered))).
  set (scaled := map (fun x => x / (std + (1 # 1000000))) centered).
  destruct (fill2_shape m scaled) as [Hs Hc].
  { unfold scaled, centered. now rewrite !length_map. }
  split; [exact Hs|].
  rewrite sum2_concat, Hc. unfold scaled. rewrite sum_divided.
  unfold centered. rewrite sum_shifted. unfold nd.mean.
  assert (Hn : ~ n2q (length flat) == 0).
  { destruct flat as [|a flat']; [congruence|].
    intro H. assert (Hl : n2q 0 < n2q (length (a :: flat')))
      by (apply n2q_lt; simpl; lia).
    change (n2q 0) with 0 in Hl. lra. }
  setoid_replace (nd.sum flat - n2q (length flat) * (nd.sum flat / n2q (length flat)))
    with 0 by (field; exact Hn).
  unfold Qdiv. ring.
Qed.

End GlobalAwareFacts.

(** ** The devices of the training script *)

Section ScriptFacts.

Import TrainPointnet.

(** X16.  The module-level configuration of [train_pointnet.py]: the list
    [context] is never empty and names each device once, the GPUs 0, ...,
    [num_gpus - 1] when [num_gpus > 0] and the CPU otherwise, and the batch
    size is the per-device batch size times the number of devices. *)
Theorem batch_is_shared_by_the_devices (per_device num_gpus : Z) :
  context num_gpus <> [] /\
  NoDup (context num_gpus) /\
  (forall i, In (gpu i) (context num_gpus) <-> (Z.of_nat i < num_gpus)%Z) /\
  (In cpu (context num_gpus) <-> (num_gpus <= 0)%Z) /\
  batch_size per_device num_gpus
  = (per_device * Z.of_nat (length (context num_gpus)))%Z.
Proof.
  unfold context, batch_size.
  destruct (Z.ltb_spec 0 num_gpus) as [Hp|Hn].
  - assert (Hs : Z.to_nat num_gpus = S (Z.to_nat num_gpus - 1)) by lia.
    split; [rewrite Hs; discriminate|].
    split.
    { apply Finite.Injective_map_NoDup; [|apply seq_NoDup].
      intros a b H. now injection H. }
    split.
    { intro i. rewrite in_map_iff. split.
      - intros [j [Hj Hin]]. injection Hj as ->. apply in_seq in Hin. lia.
      - intro H. exists i. split; [reflexivity|]. apply in_seq. lia. }
    split.
    { rewrite in_map_iff. split; [|lia].
      intros [j [Hj _]]. discriminate. }
    rewrite length_map, length_seq. f_equal. lia.
  - split; [discriminate|].
    split; [repeat constructor; intros []|].
    split.
    { intro i. simpl. split; [intros [H|[]]; discriminate|lia]. }
    split; [simpl; split; [lia|auto]|].
    simpl. f_equal. lia.
Qed.

End ScriptFacts.

(** ** Sparse and dense labels of the focal loss *)

(** The same loss, told that its labels are dense. *)
Definition dense_of (L : FocalLoss.t) : FocalLoss.t :=
  {| FocalLoss._weight := FocalLoss._weight L;
     FocalLoss._batch_axis := FocalLoss._batch_axis L;
     FocalLoss._axis := FocalLoss._axis L;
     FocalLoss._alpha := FocalLoss._alpha L;
     FocalLoss._gamma := FocalLoss._gamma L;
     FocalLoss._sparse_label := false;
     FocalLoss._num_class := FocalLoss._num_class L;
     FocalLoss._from_logits := FocalLoss._from_logits L;
     FocalLoss._eps := FocalLoss._eps L;
     FocalLoss._size_average := FocalLoss._size_average L |}.

Section FocalLabels.

Import FocalLoss.

Variable sigmoid : Q -> Q.
Variable log : Q -> Q.
Variable power : Q -> Q -> Q.

Lemma one_hot_is_its_own_mask (c : Z) (depth : nat) :
  map (fun v => b2q (Qgtb v 0)) (nd.one_hot c depth) = nd.one_hot c depth.
Proof.
  unfold nd.one_hot. rewrite map_map. apply map_ext. intro j.
  now destruct (Z.of_nat j =? c)%Z.
Qed.

Lemma map_zeros {A : Type} (f : A -> Q) (l : list A) :
  (forall a, In a l -> f a = 0) -> map f l = repeat 0 (length l).
Proof.
  intro H. induction l as [|a l IH]; [reflexivity|].
  simpl. rewrite (H a) by now left. f_equal. apply IH.
  intros b Hb. apply H. now right.
Qed.

(** X17.  [FocalLoss.hybrid_forward] on class indices is
    [hybrid_forward] on their one-hot rows with [sparse_label=False]: the
    result, or the error, is the same.  A class index outside
    [0, num_class) has a row of zeros, so it counts as no class at all. *)
Theorem focal_sparse_labels_are_one_hot_rows (L : t) (pred : cube)
    (label : list (list Z)) (sw : option cube) :
  _sparse_label L = true ->
  let depth := Z.to_nat (int_value (_num_class L)) in
  hybrid_forward sigmoid log power L pred (SparseLabels label) sw
  = hybrid_forward sigmoid log power (dense_of L) pred
      (DenseLabels (map (map (fun c => nd.one_hot c depth)) label)) sw /\
  forall c, (c < 0 \/ Z.of_nat depth <= c)%Z ->
            nd.one_hot c depth = repeat 0 depth.
Proof.
  intros Hs depth. split.
  - unfold hybrid_forward, one_hot_of. rewrite Hs. cbn [dense_of _sparse_label
      _from_logits _weight _size_average _batch_axis].
    assert (E : Loss.ew1 (fun v => b2q (Qgtb v 0))
                  (map (map (fun c => nd.one_hot c depth)) label)
                = map (map (fun c => nd.one_hot c depth)) label).
    { unfold Loss.ew1. rewrite map_map. apply map_ext. intro row.
      rewrite map_map. apply map_ext. intro c.
      apply one_hot_is_its_own_mask. }
    rewrite E. fold depth. reflexivity.
  - intros c Hc. unfold nd.one_hot.
    transitivity (repeat 0 (length (seq 0 depth)));
      [|now rewrite length_seq].
    apply map_zeros. intros j Hj. apply in_seq in Hj.
    replace (Z.of_nat j =? c)%Z with false; [reflexivity|].
    symmetry. apply Z.eqb_neq. lia.
Qed.

End FocalLabels.

(** ** More on the training loop *)

Section TrainMore.

Import TrainPointnet.

Variable opt : options.
Variable num_batch : nat.
Variable val_acc : nat -> Q.

Definition is_save (ev : event) : bool :=
  match ev with
  | SaveParams _ => true
  | _ => false
  end.

Definition is_best (ev : event) : bool :=
  match ev with
  | SaveBest _ _ => true
  | _ => false
  end.

(** The score a [-best.params] checkpoint was saved with. *)
Definition score_of (ev : event) : Q :=
  match ev with
  | SaveBest _ q => q
  | _ => 0
  end.

Lemma saves_of_epoch (e : nat) :
  filter is_save (epoch_events opt num_batch val_acc e)
  = if periodic_save opt e then [SaveParams (Z.of_nat e)] else [].
Proof.
  unfold epoch_events. rewrite !filter_app.
  rewrite (filter_map_none is_save) by reflexivity.
  destruct (hit opt e); destruct (improves val_acc e);
    destruct (periodic_save opt e); reflexivity.
Qed.

Lemma bests_of_epoch (e : nat) :
  filter is_best (epoch_events opt num_batch val_acc e)
  = if improves val_acc e then [SaveBest e (val_acc e)] else [].
Proof.
  unfold epoch_events. rewrite !filter_app.
  rewrite (filter_map_none is_best) by reflexivity.
  destruct (hit opt e); destruct (improves val_acc e);
    destruct (periodic_save opt e); reflexivity.
Qed.

(** The epochs after which the parameters are saved. *)
Definition save_epoch (e : nat) : bool :=
  Z.eqb ((Z.of_nat e + 1) mod save_period opt) 0.

Definition is_save_parameters (ev : event) : bool := is_save ev || is_best ev.

Lemma parameters_of_epoch (e : nat) :
  filter is_save_parameters (epoch_events opt num_batch val_acc e)
  = (if improves val_acc e then [SaveBest e (val_acc e)] else [])
    ++ (if periodic_save opt e then [SaveParams (Z.of_nat e)] else []).
Proof.
  unfold epoch_events. rewrite !filter_app.
  rewrite (filter_map_none is_save_parameters) by reflexivity.
  destruct (hit opt e); destruct (improves val_acc e);
    destruct (periodic_save opt e); reflexivity.
Qed.

(** X18.  The calls of [net.save_parameters] in [train], for a loader that
    yields a mini-batch and a batch size that is not 0.  The epoch-numbered
    files [shapenet-<model>-<epoch>.params]: with an empty [save_dir] or a
    [save_period] of 0 none is written; otherwise one is written after each
    epoch [e] with [(e + 1) % save_period == 0], in order, and one more
    after the loop, named after epoch [epochs - 1], so that the file of the
    last epoch is written twice when [save_period] divides [epochs], and the
    file is named after epoch -1 when [epochs] is 0.  The [-best.params]
    files do not depend on [save_dir] and [save_period]: one is written in
    each epoch whose validation accuracy is above the best so far.  The two
    kinds together are all the parameter files written, in the order
    given. *)
Theorem train_saves_periodically (epochs : nat) :
  (0 < num_batch)%nat -> per_device_batch_size opt <> 0%Z ->
  exists s,
    train opt num_batch val_acc epochs = inl s /\
    filter is_save (trace s)
    = (if saving opt
       then map (fun e => SaveParams (Z.of_nat e))
              (filter save_epoch (seq 0 epochs))
            ++ [SaveParams (Z.of_nat epochs - 1)]
       else []) /\
    (saving opt = true -> forall n, epochs = S n -> save_epoch n = true ->
     exists before,
       filter is_save (trace s)
       = before ++ [SaveParams (Z.of_nat n); SaveParams (Z.of_nat n)]) /\
    filter is_best (trace s)
    = map (fun e => SaveBest e (val_acc e))
        (filter (improves val_acc) (seq 0 epochs)) /\
    filter is_save_parameters (trace s)
    = flat_map (fun e =>
                  (if improves val_acc e then [SaveBest e (val_acc e)] else [])
                  ++ (if saving opt && save_epoch e
                      then [SaveParams (Z.of_nat e)] else []))
        (seq 0 epochs)
      ++ (if saving opt then [SaveParams (Z.of_nat epochs - 1)] else []).
Proof.
  intros Hn Hb. pose proof (divisor_not_zero opt num_batch Hn Hb) as Hd.
  destruct (train opt num_batch val_acc epochs) as [s|e] eqn:E;
    [|rewrite train_state in E by exact Hd; discriminate].
  exists s. split; [reflexivity|].
  destruct (train_trace opt num_batch val_acc epochs s E) as (Ht & _).
  assert (F : filter is_save (trace s)
              = (if saving opt
                 then map (fun e => SaveParams (Z.of_nat e))
                        (filter save_epoch (seq 0 epochs))
                      ++ [SaveParams (Z.of_nat epochs - 1)]
                 else [])).
  { rewrite Ht, filter_app, filter_flat_map.
    rewrite (flat_map_ext _ _ saves_of_epoch).
    unfold periodic_save. fold save_epoch.
    destruct (saving opt); simpl.
    - now rewrite flat_map_filter_map.
    - rewrite app_nil_r. clear. induction (seq 0 epochs); auto. }
  split; [exact F|]. split; [|split].
  - intros Hs n -> Hsn. rewrite F, Hs, seq_S, filter_app.
    change (filter save_epoch [(0 + n)%nat]) with (if save_epoch n then [n] else []).
    rewrite Hsn, map_app. cbn [map]. rewrite <- app_assoc. cbn [app].
    replace (Z.of_nat (S n) - 1)%Z with (Z.of_nat n) by lia.
    eexists. reflexivity.
  - rewrite Ht, filter_app, filter_flat_map.
    rewrite (flat_map_ext _ _ bests_of_epoch), flat_map_filter_map.
    replace (filter is_best
               (if saving opt then [SaveParams (Z.of_nat epochs - 1)] else []))
      with (@nil event) by (now destruct (saving opt)).
    apply app_nil_r.
  - rewrite Ht, filter_app, filter_flat_map.
    rewrite (flat_map_ext _ _ parameters_of_epoch).
    unfold periodic_save. fold save_epoch.
    f_equal. now destruct (saving opt).
Qed.

Lemma decayed_bounds (k : nat) :
  0 <= lr opt -> 0 <= lr_decay opt <= 1 ->
  0 <= decayed opt (S k) /\ decayed opt (S k) <= decayed opt k /\
  decayed opt k <= lr opt.
Proof.
  intros Hl [Hd0 Hd1].
  assert (H : 0 <= decayed opt k /\ decayed opt k <= lr opt).
  { induction k as [|k [IH1 IH2]]; [simpl; lra|].
    change (decayed opt (S k)) with (decayed opt k * lr_decay opt).
    split.
    - apply Qmult_le_0_compat; assumption.
    - assert (Hm : decayed opt k * lr_decay opt <= decayed opt k * 1).
      { rewrite !(Qmult_comm (decayed opt k)).
        apply Qmult_le_compat_r; assumption. }
      lra. }
  destruct H as [H1 H2].
  change (decayed opt (S k)) with (decayed opt k * lr_decay opt).
  split; [apply Qmult_le_0_compat; assumption|].
  split; [|assumption].
  assert (Hm : decayed opt k * lr_decay opt <= decayed opt k * 1).
  { rewrite !(Qmult_comm (decayed opt k)).
    apply Qmult_le_compat_r; assumption. }
  lra.
Qed.

(** X19.  For a loader that yields a mini-batch and a batch size that is
    not 0 (the epochs then complete), with a learning rate that is not
    negative and a decay factor in [0, 1], the learning rate of the trainer
    never rises and never leaves [0, lr]: it is the same or smaller after
    every epoch. *)
Theorem learning_rate_never_rises (n : nat) :
  (0 < num_batch)%nat -> per_device_batch_size opt <> 0%Z ->
  0 <= lr opt -> 0 <= lr_decay opt <= 1 ->
  exists s s',
    run opt num_batch val_acc n = inl s /\
    run opt num_batch val_acc (S n) = inl s' /\
    0 <= learning_rate s' /\
    learning_rate s' <= learning_rate s /\
    learning_rate s <= lr opt.
Proof.
  intros Hn Hb Hl Hd.
  pose proof (divisor_not_zero opt num_batch Hn Hb) as Hz.
  exists (state_after opt num_batch val_acc n),
         (state_after opt num_batch val_acc (S n)).
  split; [now apply run_state|]. split; [now apply run_state|].
  simpl. rewrite matched_succ.
  destruct (decayed_bounds (matched opt n) Hl Hd) as (H1 & H2 & H3).
  destruct (hit opt n).
  - repeat split; assumption.
  - assert (H0 : 0 <= decayed opt (matched opt n)).
    { destruct (matched opt n) as [|k]; [simpl; lra|].
      now destruct (decayed_bounds k Hl Hd). }
    repeat split; try assumption. lra.
Qed.

Lemma sorted_snoc (l : list Q) (x : Q) :
  StronglySorted Qlt l -> Forall (fun y => y < x) l ->
  StronglySorted Qlt (l ++ [x]).
Proof.
  intros Hs Hx. induction Hs as [|a l Hs IH Ha]; simpl.
  - repeat constructor.
  - inversion Hx as [|? ? Hax Hlx]; subst.
    constructor; [now apply IH|].
    apply Forall_app. split; [assumption|]. now repeat constructor.
Qed.

(** Where the checkpoints of the first [n] epochs stand. *)
Lemma bests_before (n : nat) :
  let scores :=
    map score_of
      (filter is_best (flat_map (epoch_events opt num_batch val_acc) (seq 0 n))) in
  best_before val_acc n = last scores 0 /\
  StronglySorted Qlt (0 :: scores) /\
  Forall (fun q => q <= best_before val_acc n) (0 :: scores).
Proof.
  induction n as [|n IH]; cbv zeta in *.
  - simpl. repeat constructor. lra.
  - destruct IH as (IH1 & IH2 & IH3).
    rewrite seq_S, flat_map_app, filter_app, map_app. simpl flat_map.
    rewrite app_nil_r, bests_of_epoch.
    change (best_before val_acc (S n))
      with (if improves val_acc n then val_acc n else best_before val_acc n).
    destruct (improves val_acc n) eqn:E.
    + simpl map. rewrite last_last.
      split; [reflexivity|].
      unfold improves in E. apply Qltb_lt in E.
      split.
      * change (StronglySorted Qlt
                  ((0 :: map score_of
                         (filter is_best
                            (flat_map (epoch_events opt num_batch val_acc)
                               (seq 0 n)))) ++ [val_acc n])).
        apply sorted_snoc; [exact IH2|].
        eapply Forall_impl; [|exact IH3]. intros q Hq. simpl in Hq. lra.
      * constructor.
        { inversion IH3; subst. lra. }
        apply Forall_app. split.
        { inversion IH3 as [|? ? _ Hr]; subst.
          eapply Forall_impl; [|exact Hr]. intros q Hq. simpl in Hq. lra. }
        repeat constructor. lra.
    + simpl map. rewrite app_nil_r. repeat split; assumption.
Qed.

(** X20.  For a loader that yields a mini-batch and a batch size that is
    not 0, [train] completes, the [-best.params] checkpoints it saves carry
    strictly rising scores, all above 0, and when training ends
    [best_val_score] is the score of the last of them (0 if none was saved):
    the file on disk is that of the best validation accuracy seen. *)
Theorem best_checkpoint_is_the_last_saved (epochs : nat) :
  (0 < num_batch)%nat -> per_device_batch_size opt <> 0%Z ->
  exists s,
    train opt num_batch val_acc epochs = inl s /\
    let scores := map score_of (filter is_best (trace s)) in
    best_val_score s = last scores 0 /\
    StronglySorted Qlt (0 :: scores).
Proof.
  intros Hn Hbs. pose proof (divisor_not_zero opt num_batch Hn Hbs) as Hd.
  destruct (train opt num_batch val_acc epochs) as [s|e] eqn:E;
    [|rewrite train_state in E by exact Hd; discriminate].
  exists s. split; [reflexivity|].
  destruct (train_trace opt num_batch val_acc epochs s E) as (Ht & _ & _ & _ & Hb).
  cbv zeta. rewrite Ht, Hb, filter_app.
  replace (filter is_best
             (if saving opt then [SaveParams (Z.of_nat epochs - 1)] else []))
    with (@nil event) by (now destruct (saving opt)).
  rewrite app_nil_r.
  destruct (bests_before epochs) as (H1 & H2 & _).
  split; assumption.
Qed.

End TrainMore.

Lemma learning_rate_never_rises_witness :
  exists s s',
    TrainPointnet.run ascending_opt 2 rising_then_flat 2 = inl s /\
    TrainPointnet.run ascending_opt 2 rising_then_flat 3 = inl s' /\
    0 <= TrainPointnet.learning_rate s' /\
    TrainPointnet.learning_rate s' <= TrainPointnet.learning_rate s /\
    TrainPointnet.learning_rate s <= TrainPointnet.lr ascending_opt.
Proof.
  apply (learning_rate_never_rises ascending_opt 2 rising_then_flat 2).
  - lia.
  - simpl. lia.
  - simpl. lra.
  - simpl. lra.
Defined.

Lemma train_saves_periodically_witness :
  exists s,
    TrainPointnet.train ascending_opt 2 rising_then_flat 20 = inl s /\
    filter is_save (TrainPointnet.trace s)
    = [TrainPointnet.SaveParams 9; TrainPointnet.SaveParams 19;
       TrainPointnet.SaveParams 19].
Proof.
  destruct (train_saves_periodically ascending_opt 2 rising_then_flat 20)
    as (s & E & F & _); [lia | simpl; lia |].
  exists s. split; [exact E | exact F].
Defined.

Lemma best_checkpoint_is_the_last_saved_witness :
  exists s,
    TrainPointnet.train ascending_opt 2 rising_then_flat 6 = inl s /\
    TrainPointnet.best_val_score s
    = last (map score_of (filter is_best (TrainPointnet.trace s))) 0.
Proof.
  destruct (best_checkpoint_is_the_last_saved ascending_opt 2 rising_then_flat 6)
    as (s & E & H & _); [lia | simpl; lia |].
  exists s. split; [exact E | exact H].
Defined.

(** With a loader that yields no mini-batch, [train] raises
    [ZeroDivisionError] in its first epoch, at
    [train_loss /= batch_size * num_batch]; without an epoch it only writes
    the final file, named after epoch -1, when saving is on. *)
Lemma train_without_batches (opt : TrainPointnet.options) (val_acc : nat -> Q)
      (epochs : nat) :
  TrainPointnet.train opt 0 val_acc (S epochs)
  = inr TrainPointnet.ZeroDivisionError /\
  TrainPointnet.train opt 0 val_acc 0
  = inl (if TrainPointnet.saving opt
         then TrainPointnet.emit (TrainPointnet.initial opt)
                (TrainPointnet.SaveParams (-1))
         else TrainPointnet.initial opt).
Proof.
  split.
  - unfold TrainPointnet.train. rewrite run_cases.
    rewrite (divisor_without_batches opt 0 eq_refl). reflexivity.
  - reflexivity.
Qed.

(** ** The YOLOv3 losses are sums *)

(** An entry of a tensor of rank three, and a tensor of shape (B, N, D). *)
Definition at3 (x : cube) (b n k : nat) : Q := nth k (nth n (nth b x []) []) 0.

Definition shaped (x : cube) (B N D : nat) : Prop :=
  Loss.shape x = repeat (repeat D N) B.

(** The sum of [f 0], ..., [f (n - 1)]. *)
Definition sum_upto (n : nat) (f : nat -> Q) : Q := nd.sum (map f (seq 0 n)).

(** The target and the weight the objectness loss is given, for an
    objectness target [o]: [where(o > 0, 1, o)] and
    [where(o > 0, o, o >= 0)]. *)
Definition hard_objness (o : Q) : Q := nd.where_ (b2q (Qgtb o 0)) 1 o.
Definition objness_mask (o : Q) : Q := nd.where_ (b2q (Qgtb o 0)) o (b2q (Qgeb o 0)).

Section ShapedFacts.

Lemma nth_repeat_lt {A : Type} (a d : A) (n i : nat) :
  (i < n)%nat -> nth i (repeat a n) d = a.
Proof.
  revert i. induction n as [|n IH]; intros [|i] H; simpl; try lia; auto.
  apply IH. lia.
Qed.

Lemma shaped_length (x : cube) (B N D : nat) : shaped x B N D -> length x = B.
Proof.
  intro H. apply (f_equal (@length _)) in H. unfold Loss.shape in H.
  now rewrite length_map, repeat_length in H.
Qed.

Lemma shaped_row (x : cube) (B N D b : nat) :
  shaped x B N D -> (b < B)%nat ->
  map (@length Q) (nth b x []) = repeat D N.
Proof.
  intros H Hb. pose proof (shaped_length x B N D H) as HL.
  apply (f_equal (fun s => nth b s [])) in H.
  unfold Loss.shape in H.
  rewrite (nth_map_lt _ _ _ []) in H by lia.
  now rewrite nth_repeat_lt in H.
Qed.

Lemma shaped_rows (x : cube) (B N D b : nat) :
  shaped x B N D -> (b < B)%nat -> length (nth b x []) = N.
Proof.
  intros H Hb. pose proof (shaped_row x B N D b H Hb) as E.
  apply (f_equal (@length _)) in E.
  now rewrite length_map, repeat_length in E.
Qed.

Lemma shaped_cols (x : cube) (B N D b n : nat) :
  shaped x B N D -> (b < B)%nat -> (n < N)%nat ->
  length (nth n (nth b x []) []) = D.
Proof.
  intros H Hb Hn. pose proof (shaped_row x B N D b H Hb) as E.
  apply (f_equal (fun s => nth n s 0%nat)) in E.
  rewrite (nth_map_lt _ _ _ []) in E
    by (now rewrite (shaped_rows x B N D b)).
  now rewrite nth_repeat_lt in E.
Qed.

Lemma shaped_intro (x : cube) (B N D : nat) :
  length x = B ->
  (forall b, (b < B)%nat -> length (nth b x []) = N) ->
  (forall b n, (b < B)%nat -> (n < N)%nat ->
               length (nth n (nth b x []) []) = D) ->
  shaped x B N D.
Proof.
  intros HB HN HD. unfold shaped, Loss.shape.
  apply (nth_ext _ _ [] []).
  - now rewrite length_map, repeat_length.
  - intros b Hb. rewrite length_map, HB in Hb.
    rewrite (nth_map_lt _ _ _ []) by lia.
    rewrite nth_repeat_lt by assumption.
    apply (nth_ext _ _ 0%nat 0%nat).
    + rewrite length_map, repeat_length. now apply HN.
    + intros n Hn. rewrite length_map, (HN b Hb) in Hn.
      rewrite (nth_map_lt _ _ _ []) by (rewrite (HN b Hb); assumption).
      rewrite nth_repeat_lt by assumption. now apply HD.
Qed.

Lemma shaped_ew1 (f : Q -> Q) (x : cube) (B N D : nat) :
  shaped x B N D -> shaped (Loss.ew1 f x) B N D.
Proof.
  unfold shaped, Loss.shape, Loss.ew1. intros <-.
  rewrite map_map. apply map_ext. intro m.
  rewrite map_map. apply map_ext. intro r. apply length_map.
Qed.

Lemma at3_ew1 (f : Q -> Q) (x : cube) (B N D b n k : nat) :
  shaped x B N D -> (b < B)%nat -> (n < N)%nat -> (k < D)%nat ->
  at3 (Loss.ew1 f x) b n k = f (at3 x b n k).
Proof.
  intros H Hb Hn Hk. unfold at3, Loss.ew1.
  rewrite (nth_map_lt _ _ _ []) by (now rewrite (shaped_length x B N D)).
  rewrite (nth_map_lt _ _ _ []) by (now rewrite (shaped_rows x B N D b)).
  rewrite (nth_map_lt _ _ _ 0) by (now rewrite (shaped_cols x B N D b n)).
  reflexivity.
Qed.

Lemma at3_ew2 (f : Q -> Q -> Q) (x y : cube) (B N D b n k : nat) :
  shaped x B N D -> shaped y B N D ->
  (b < B)%nat -> (n < N)%nat -> (k < D)%nat ->
  at3 (Loss.ew2 f x y) b n k = f (at3 x b n k) (at3 y b n k).
Proof.
  intros Hx Hy Hb Hn Hk. unfold at3, Loss.ew2.
  rewrite (nth_map2 _ _ _ _ [] [])
    by (rewrite ?(shaped_length x B N D), ?(shaped_length y B N D); assumption).
  rewrite (nth_map2 _ _ _ _ [] [])
    by (rewrite ?(shaped_rows x B N D b), ?(shaped_rows y B N D b); assumption).
  rewrite (nth_map2 _ _ _ _ 0 0)
    by (rewrite ?(shaped_cols x B N D b n), ?(shaped_cols y B N D b n); assumption).
  reflexivity.
Qed.

Lemma shaped_ew2 (f : Q -> Q -> Q) (x y : cube) (B N D : nat) :
  shaped x B N D -> shaped y B N D -> shaped (Loss.ew2 f x y) B N D.
Proof.
  intros Hx Hy. apply shaped_intro.
  - unfold Loss.ew2. rewrite length_map2.
    rewrite (shaped_length x B N D), (shaped_length y B N D) by assumption. lia.
  - intros b Hb. unfold Loss.ew2.
    rewrite (nth_map2 _ _ _ _ [] [])
      by (rewrite ?(shaped_length x B N D), ?(shaped_length y B N D); assumption).
    rewrite length_map2.
    rewrite (shaped_rows x B N D b), (shaped_rows y B N D b) by assumption. lia.
  - intros b n Hb Hn. unfold Loss.ew2.
    rewrite (nth_map2 _ _ _ _ [] [])
      by (rewrite ?(shaped_length x B N D), ?(shaped_length y B N D); assumption).
    rewrite (nth_map2 _ _ _ _ [] [])
      by (rewrite ?(shaped_rows x B N D b), ?(shaped_rows y B N D b); assumption).
    rewrite length_map2.
    rewrite (shaped_cols x B N D b n), (shaped_cols y B N D b n) by assumption.
    lia.
Qed.

(** Broadcasting. *)

Lemma bnth_one {A : Type} (l : list A) (i : nat) (d : A) :
  length l = 1%nat -> Loss.bnth l i d = nth 0 l d.
Proof.
  intro H. destruct l as [|v [|w l]]; try discriminate. reflexivity.
Qed.

Lemma length_bmap2 {A B C : Type} (f : A -> B -> C) (da : A) (db : B)
      (x : list A) (y : list B) :
  length (Loss.bmap2 f da db x y) = Nat.max (length x) (length y).
Proof. unfold Loss.bmap2. now rewrite length_map, length_seq. Qed.

Lemma nth_bmap2 {A B C : Type} (f : A -> B -> C) (da : A) (db : B) (dc : C)
      (x : list A) (y : list B) (i : nat) :
  (i < Nat.max (length x) (length y))%nat ->
  nth i (Loss.bmap2 f da db x y) dc = f (Loss.bnth x i da) (Loss.bnth y i db).
Proof.
  intro H. unfold Loss.bmap2.
  rewrite (nth_map_lt _ _ _ 0%nat) by (now rewrite length_seq).
  now rewrite seq_nth.
Qed.

Lemma broadcastable_shaped (x y : cube) (B N D D' : nat) :
  shaped x B N D -> shaped y B N D' -> D' = D \/ D' = 1%nat ->
  Loss.broadcastable x y = true.
Proof.
  unfold shaped, Loss.broadcastable. intros -> -> HD.
  unfold Loss.broadcastable_shapes. rewrite !repeat_length.
  assert (Hb : forall a, Loss.blen a a = true).
  { intro a. unfold Loss.blen. now rewrite Nat.eqb_refl. }
  rewrite Hb. cbn [andb]. apply forallb_forall. intros i Hi.
  apply in_seq in Hi.
  rewrite !bnth_lt by (rewrite repeat_length; lia).
  rewrite !nth_repeat_lt by lia. cbv zeta.
  rewrite !repeat_length, Hb. cbn [andb]. apply forallb_forall. intros j Hj.
  apply in_seq in Hj.
  rewrite !bnth_lt by (rewrite repeat_length; lia).
  rewrite !nth_repeat_lt by lia.
  unfold Loss.blen. destruct HD as [->| ->].
  - now rewrite Nat.eqb_refl.
  - rewrite (Nat.eqb_refl 1). now rewrite !orb_true_r.
Qed.

Lemma shaped_broadcast_mul (x y : cube) (B N D D' : nat) :
  shaped x B N D -> shaped y B N D' -> D' = D \/ D' = 1%nat -> (0 < D)%nat ->
  shaped (Loss.broadcast_mul x y) B N D.
Proof.
  intros Hx Hy HD HD0.
  assert (LB : Nat.max (length x) (length y) = B).
  { rewrite (shaped_length x B N D), (shaped_length y B N D') by assumption. lia. }
  assert (LN : forall b, (b < B)%nat ->
             Nat.max (length (nth b x [])) (length (nth b y [])) = N).
  { intros b Hb.
    rewrite (shaped_rows x B N D b), (shaped_rows y B N D' b) by assumption. lia. }
  assert (Bx : forall b, (b < B)%nat -> Loss.bnth x b [] = nth b x []).
  { intros b Hb. apply bnth_lt. now rewrite (shaped_length x B N D). }
  assert (By : forall b, (b < B)%nat -> Loss.bnth y b [] = nth b y []).
  { intros b Hb. apply bnth_lt. now rewrite (shaped_length y B N D'). }
  apply shaped_intro.
  - unfold Loss.broadcast_mul. now rewrite length_bmap2.
  - intros b Hb. unfold Loss.broadcast_mul.
    rewrite (nth_bmap2 _ _ _ []) by lia.
    rewrite length_bmap2, Bx, By by assumption. now apply LN.
  - intros b n Hb Hn. unfold Loss.broadcast_mul.
    rewrite (nth_bmap2 _ _ _ []) by lia.
    rewrite Bx, By by assumption.
    rewrite (nth_bmap2 _ _ _ []) by (rewrite LN; assumption).
    rewrite length_bmap2.
    rewrite !bnth_lt
      by (rewrite ?(shaped_rows x B N D b), ?(shaped_rows y B N D' b); assumption).
    rewrite (shaped_cols x B N D b n), (shaped_cols y B N D' b n) by assumption.
    destruct HD as [->| ->]; lia.
Qed.

Lemma at3_broadcast_mul (x y : cube) (B N D D' b n k : nat) :
  shaped x B N D -> shaped y B N D' -> D' = D \/ D' = 1%nat ->
  (b < B)%nat -> (n < N)%nat -> (k < D)%nat ->
  at3 (Loss.broadcast_mul x y) b n k
  = at3 x b n k * at3 y b n (if Nat.eqb D' 1 then 0 else k).
Proof.
  intros Hx Hy HD Hb Hn Hk. unfold at3, Loss.broadcast_mul.
  rewrite (nth_bmap2 _ _ _ [])
    by (rewrite (shaped_length x B N D), (shaped_length y B N D') by assumption; lia).
  rewrite !bnth_lt
    by (rewrite ?(shaped_length x B N D), ?(shaped_length y B N D'); assumption).
  rewrite (nth_bmap2 _ _ _ [])
    by (rewrite (shaped_rows x B N D b), (shaped_rows y B N D' b) by assumption; lia).
  rewrite !bnth_lt
    by (rewrite ?(shaped_rows x B N D b), ?(shaped_rows y B N D' b); assumption).
  pose proof (shaped_cols x B N D b n Hx Hb Hn) as Cx.
  pose proof (shaped_cols y B N D' b n Hy Hb Hn) as Cy.
  rewrite (nth_bmap2 _ _ _ 0) by lia.
  rewrite (bnth_lt (nth n (nth b x []) [])) by lia.
  destruct (Nat.eqb_spec D' 1) as [E|E].
  - rewrite bnth_one by lia. reflexivity.
  - rewrite bnth_lt by (destruct HD; lia). reflexivity.
Qed.

(** The sum of the entries of a sample. *)

Lemma sum_upto_S (n : nat) (f : nat -> Q) :
  sum_upto (S n) f == f 0%nat + sum_upto n (fun i => f (S i)).
Proof.
  unfold sum_upto. cbn [seq map nd.sum fold_right].
  rewrite <- seq_shift, map_map. reflexivity.
Qed.

Lemma sum_upto_ext (n : nat) (f g : nat -> Q) :
  (forall i, (i < n)%nat -> f i == g i) -> sum_upto n f == sum_upto n g.
Proof.
  intro H. unfold sum_upto. apply sum_veq.
  assert (G : forall i, In i (seq 0 n) -> f i == g i).
  { intros i Hi. apply in_seq in Hi. apply H. lia. }
  clear H. induction (seq 0 n) as [|a l IH]; constructor.
  - apply G. now left.
  - apply IH. intros i Hi. apply G. now right.
Qed.

Lemma sum_row (r : list Q) : nd.sum r = sum_upto (length r) (fun k => nth k r 0).
Proof. unfold sum_upto. now rewrite map_nth_seq. Qed.

Lemma sum_sample (m : mat) (N D : nat) :
  length m = N -> (forall n, (n < N)%nat -> length (nth n m []) = D) ->
  length (concat m) = (N * D)%nat /\
  nd.sum (concat m)
  == sum_upto N (fun n => sum_upto D (fun k => nth k (nth n m []) 0)).
Proof.
  revert N. induction m as [|r m IH]; intros N HN HD; simpl in HN; subst N.
  - split; reflexivity.
  - destruct (IH (length m) eq_refl) as [IH1 IH2].
    { intros n Hn. apply (HD (S n)). simpl. lia. }
    pose proof (HD 0%nat ltac:(simpl; lia)) as H0. simpl in H0.
    split.
    + simpl. rewrite length_app, IH1, H0. lia.
    + cbn [concat]. rewrite sum_app, IH2, sum_upto_S. cbn [nth].
      rewrite sum_row, H0. reflexivity.
Qed.

Lemma mean_times_count (W : cube) (B N D b : nat) (d : Q) :
  shaped W B N D -> (b < B)%nat -> (0 < N * D)%nat -> d == n2q (N * D) ->
  Loss.mean_of (nth b W []) * d
  == sum_upto N (fun n => sum_upto D (fun k => at3 W b n k)).
Proof.
  intros H Hb Hpos Hd.
  destruct (sum_sample (nth b W []) N D) as [E1 E2].
  { now apply (shaped_rows W B N D). }
  { intros n Hn. now apply (shaped_cols W B N D). }
  unfold Loss.mean_of, nd.mean. rewrite E1, Hd, E2.
  assert (Hn : ~ n2q (N * D) == 0).
  { intro Hz. assert (Hl : n2q 0 < n2q (N * D)) by (now apply n2q_lt).
    change (n2q 0) with 0 in Hl. lra. }
  unfold at3. field. exact Hn.
Qed.

Lemma objness_cases (o : Q) :
  (o < 0 -> objness_mask o = 0) /\
  (o == 0 -> objness_mask o = 1) /\
  (0 < o -> objness_mask o = o /\ hard_objness o = 1).
Proof.
  unfold objness_mask, hard_objness, Qgtb, Qgeb.
  split; [|split]; intro H.
  - replace (Qltb 0 o) with false by (symmetry; apply Qltb_ge; lra).
    replace (Qle_bool 0 o) with false by (symmetry; apply Qle_bool_gt; lra).
    reflexivity.
  - replace (Qltb 0 o) with false by (symmetry; apply Qltb_ge; lra).
    replace (Qle_bool 0 o) with true by (symmetry; apply Qle_bool_iff; lra).
    reflexivity.
  - replace (Qltb 0 o) with true by (symmetry; now apply Qltb_lt).
    split; reflexivity.
Qed.

End ShapedFacts.

Section YoloFacts.

Import YOLOV3Loss.

(** [Activation(x, act_type='softrelu')], elementwise. *)
Variable softrelu : Q -> Q.

(** The logistic loss of a score [x] against a target [z] as the library
    computes it, and its L1 loss. *)
Definition bce (x z : Q) : Q := nd.maximum x 0 - x * z + softrelu (- Qabs x).
Definition l1 (x z : Q) : Q := Qabs (z - x).

(** What a loss of the library does with its elementwise loss [f]: the
    label in the shape of the prediction, the loss of every entry times
    its sample weight, and the mean over all axes but the batch axis. *)
Definition weighted_mean (f : Q -> Q -> Q) (pred label sample_weight : cube)
  : outcome (list Q) :=
  let label := _reshape_like label pred in
  let loss := Loss.ew2 f pred label in
  match Loss._apply_weighting loss None (Some sample_weight) with
  | Raises e => Raises e
  | Ok loss => Loss.reduce_exclude true 0 loss
  end.

Lemma library_loss_sum (f : Q -> Q -> Q) (pred label sw : cube)
      (B N D : nat) (d : Q) :
  shaped pred B N D -> shaped label B N D -> shaped sw B N D ->
  (0 < N * D)%nat -> d == n2q (N * D) ->
  exists v,
    times (weighted_mean f pred label sw) d = Ok v /\
    length v = B /\
    forall b, (b < B)%nat ->
      nth b v 0
      == sum_upto N (fun n =>
           sum_upto D (fun k =>
             f (at3 pred b n k) (at3 label b n k) * at3 sw b n k)).
Proof.
  intros Hp Hl Hs Hpos Hd. unfold weighted_mean.
  rewrite (reshape_like_same label pred)
    by (unfold shaped in Hp, Hl; congruence).
  pose proof (shaped_ew2 f pred label B N D Hp Hl) as Hloss.
  unfold Loss._apply_weighting.
  rewrite (broadcastable_shaped _ _ B N D D Hloss Hs (or_introl eq_refl)).
  assert (HD0 : (0 < D)%nat) by nia.
  pose proof (shaped_broadcast_mul _ _ B N D D Hloss Hs (or_introl eq_refl) HD0)
    as HW.
  remember (Loss.broadcast_mul (Loss.ew2 f pred label) sw) as W eqn:EW.
  change (Loss.reduce_exclude true 0 W) with (Ok (map Loss.mean_of W)).
  cbn [times]. eexists. split; [reflexivity|]. split.
  - do 2 rewrite length_map. unfold mat. now apply (shaped_length W B N D).
  - intros b Hb.
    pose proof (shaped_length W B N D HW) as LW.
    rewrite (nth_map_lt _ _ _ 0) by (rewrite length_map; unfold mat; lia).
    rewrite (nth_map_lt Loss.mean_of W b [] 0) by (unfold mat; lia).
    rewrite (mean_times_count W B N D b d HW Hb Hpos Hd).
    apply sum_upto_ext. intros n Hn. apply sum_upto_ext. intros k Hk.
    rewrite EW.
    rewrite (at3_broadcast_mul _ _ B N D D b n k Hloss Hs (or_introl eq_refl))
      by assumption.
    rewrite (at3_ew2 f pred label B N D) by assumption.
    destruct (Nat.eqb_spec D 1) as [E|E]; [|reflexivity].
    now replace k with 0%nat by lia.
Qed.

Lemma denorm_shaped (x : cube) (B N D : nat) :
  shaped x B N D -> (0 < B)%nat -> denorm_of x = n2q (N * D).
Proof.
  intros H HB. unfold denorm_of.
  destruct (Nat.eq_dec N 0) as [->|HN].
  - now rewrite (shaped_rows x B 0 D 0 H HB).
  - rewrite (shaped_rows x B N D 0 H HB).
    now rewrite (shaped_cols x B N D 0 0 H HB) by lia.
Qed.

Lemma sum_upto_one (f : nat -> Q) : sum_upto 1 f == f 0%nat.
Proof. unfold sum_upto. simpl. ring. Qed.

Variable _sigmoid_ce : cube -> cube -> cube -> outcome (list Q).
Variable _l1_loss : cube -> cube -> cube -> outcome (list Q).

Hypothesis sigmoid_ce_is :
  forall pred label sw, _sigmoid_ce pred label sw = weighted_mean bce pred label sw.
Hypothesis l1_loss_is :
  forall pred label sw, _l1_loss pred label sw = weighted_mean l1 pred label sw.

(** X21.  [YOLOV3Loss.hybrid_forward] returns sums, as its documentation
    says: with the library losses taking the weighted mean of their
    elementwise loss over the axes of a sample, the factors [denorm],
    [denorm * 2] and [denorm_class] are the numbers of entries the means
    divide by.  For a batch of B samples with N anchors (objectness of shape
    (B, N, 1), centres and scales of shape (B, N, 2), C classes), sample [b]
    gets
    - [obj_loss]: the sum over the anchors of the logistic loss against
      [where(o > 0, 1, o)] times the weight [where(o > 0, o, o >= 0)], [o]
      being the anchor's objectness target: an ignored anchor ([o < 0])
      weighs 0, a negative one ([o = 0]) weighs 1;
    - [center_loss], [scale_loss], [cls_loss]: the sums over anchors and
      coordinates (classes) of the logistic, L1 and logistic losses, each
      times [weight_t * o] (times [class_mask * o]). *)
Theorem yolo_losses_are_sums (L : t) (B N C : nat)
    (objness box_centers box_scales cls_preds : cube)
    (objness_t center_t scale_t weight_t class_t class_mask : cube) :
  (0 < N)%nat -> (0 < C)%nat ->
  shaped objness B N 1 -> shaped objness_t B N 1 ->
  shaped box_centers B N 2 -> shaped center_t B N 2 ->
  shaped box_scales B N 2 -> shaped scale_t B N 2 -> shaped weight_t B N 2 ->
  shaped cls_preds B N C -> shaped class_t B N C -> shaped class_mask B N C ->
  exists obj_loss center_loss scale_loss cls_loss,
    hybrid_forward _sigmoid_ce _l1_loss L objness box_centers box_scales
      cls_preds objness_t center_t scale_t weight_t class_t class_mask
    = Ok (obj_loss, center_loss, scale_loss, cls_loss) /\
    length obj_loss = B /\ length center_loss = B /\
    length scale_loss = B /\ length cls_loss = B /\
    (forall b, (b < B)%nat ->
       let o n := at3 objness_t b n 0 in
       nth b obj_loss 0
       == sum_upto N (fun n =>
            bce (at3 objness b n 0) (hard_objness (o n)) * objness_mask (o n)) /\
       nth b center_loss 0
       == sum_upto N (fun n => sum_upto 2 (fun k =>
            bce (at3 box_centers b n k) (at3 center_t b n k)
            * (at3 weight_t b n k * o n))) /\
       nth b scale_loss 0
       == sum_upto N (fun n => sum_upto 2 (fun k =>
            l1 (at3 box_scales b n k) (at3 scale_t b n k)
            * (at3 weight_t b n k * o n))) /\
       nth b cls_loss 0
       == sum_upto N (fun n => sum_upto C (fun k =>
            bce (at3 cls_preds b n k) (at3 class_t b n k)
            * (at3 class_mask b n k * o n)))) /\
    (forall o, (o < 0 -> objness_mask o = 0) /\
               (o == 0 -> objness_mask o = 1) /\
               (0 < o -> objness_mask o = o /\ hard_objness o = 1)).
Proof.
  intros HN HC Ho Hot Hc Hct Hs Hst Hw Hp Hpt Hm.
  unfold hybrid_forward, broadcast_mul.
  rewrite (broadcastable_shaped weight_t objness_t B N 2 1 Hw Hot (or_intror eq_refl)).
  rewrite (broadcastable_shaped class_mask objness_t B N C 1 Hm Hot (or_intror eq_refl)).
  pose proof (shaped_broadcast_mul weight_t objness_t B N 2 1 Hw Hot
                (or_intror eq_refl) ltac:(lia)) as Hw'.
  pose proof (shaped_broadcast_mul class_mask objness_t B N C 1 Hm Hot
                (or_intror eq_refl) HC) as Hm'.
  rewrite !sigmoid_ce_is, l1_loss_is.
  fold hard_objness. fold objness_mask.
  assert (D1 : (0 < B)%nat -> denorm_of objness_t == n2q (N * 1)).
  { intro HB. now rewrite (denorm_shaped objness_t B N 1 Hot HB). }
  assert (D2 : (0 < B)%nat -> denorm_of objness_t * 2 == n2q (N * 2)).
  { intro HB. rewrite (denorm_shaped objness_t B N 1 Hot HB).
    unfold n2q. rewrite !Nat2Z.inj_mul, !inject_Z_mult. simpl. ring. }
  assert (D3 : (0 < B)%nat -> denorm_of class_t == n2q (N * C)).
  { intro HB. now rewrite (denorm_shaped class_t B N C Hpt HB). }
  destruct (Nat.eq_dec B 0) as [->|HB].
  - (* an empty batch *)
    assert (E : forall x N' D', shaped x 0 N' D' -> x = []).
    { intros x N' D' H. apply shaped_length in H. now destruct x. }
    rewrite (E _ _ _ Ho), (E _ _ _ Hot), (E _ _ _ Hc), (E _ _ _ Hct),
      (E _ _ _ Hs), (E _ _ _ Hst), (E _ _ _ Hw), (E _ _ _ Hp), (E _ _ _ Hpt),
      (E _ _ _ Hm).
    exists [], [], [], []. split; [reflexivity|].
    repeat (split; [reflexivity|]).
    split; [intros b Hb; lia|].
    exact objness_cases.
  - assert (HB' : (0 < B)%nat) by lia.
    destruct (library_loss_sum bce objness
                (Loss.ew1 hard_objness objness_t)
                (Loss.ew1 objness_mask objness_t) B N 1 (denorm_of objness_t)
                Ho (shaped_ew1 _ _ _ _ _ Hot) (shaped_ew1 _ _ _ _ _ Hot)
                ltac:(lia) (D1 HB')) as (obj & Eobj & Lobj & Sobj).
    destruct (library_loss_sum bce box_centers center_t
                (Loss.broadcast_mul weight_t objness_t) B N 2
                (denorm_of objness_t * 2) Hc Hct Hw' ltac:(lia) (D2 HB'))
      as (ctr & Ectr & Lctr & Sctr).
    destruct (library_loss_sum l1 box_scales scale_t
                (Loss.broadcast_mul weight_t objness_t) B N 2
                (denorm_of objness_t * 2) Hs Hst Hw' ltac:(lia) (D2 HB'))
      as (scl & Escl & Lscl & Sscl).
    destruct (library_loss_sum bce cls_preds class_t
                (Loss.broadcast_mul class_mask objness_t) B N C
                (denorm_of class_t) Hp Hpt Hm' ltac:(nia) (D3 HB'))
      as (cls & Ecls & Lcls & Scls).
    rewrite Eobj, Ectr, Escl, Ecls.
    exists obj, ctr, scl, cls. split; [reflexivity|].
    repeat (split; [assumption|]).
    split.
    + intros b Hb. split; [|split; [|split]].
      * rewrite (Sobj b Hb). apply sum_upto_ext. intros n Hn.
        rewrite sum_upto_one.
        rewrite !(at3_ew1 _ objness_t B N 1) by (assumption || lia).
        reflexivity.
      * rewrite (Sctr b Hb). apply sum_upto_ext. intros n Hn.
        apply sum_upto_ext. intros k Hk.
        rewrite (at3_broadcast_mul weight_t objness_t B N 2 1 b n k Hw Hot
                   (or_intror eq_refl)) by assumption.
        reflexivity.
      * rewrite (Sscl b Hb). apply sum_upto_ext. intros n Hn.
        apply sum_upto_ext. intros k Hk.
        rewrite (at3_broadcast_mul weight_t objness_t B N 2 1 b n k Hw Hot
                   (or_intror eq_refl)) by assumption.
        reflexivity.
      * rewrite (Scls b Hb). apply sum_upto_ext. intros n Hn.
        apply sum_upto_ext. intros k Hk.
        rewrite (at3_broadcast_mul class_mask objness_t B N C 1 b n k Hm Hot
                   (or_intror eq_refl)) by assumption.
        reflexivity.
    + exact objness_cases.
Qed.

End YoloFacts.

(** ** The further properties on small inputs *)

(** One device, with the masks of [proj_example]. *)
Lemma yolact_losses_scale_ssd_losses_witness :
  Forall2 veq
    (snd (fst (fst (YOLACTMultiBoxLoss.forward (fun x => x) (fun x => x)
                      abs_error empty_Y (One mining_cp) (One mining_bp)
                      [proj_mask_pred] [proj_mask_eoc] (One mining_ct)
                      (One mining_bt) [proj_mask_target] [proj_matches]
                      [proj_bt_target]))))
    (map (map (Qmult (YOLACTMultiBoxLoss.conf_lambd empty_Y)))
       (snd (fst (SSDMultiBoxLoss.forward (fun x => x)
                    (YOLACTMultiBoxLoss.mining_params empty_Y) (One mining_cp)
                    (One mining_bp) (One mining_ct) (One mining_bt))))).
Proof.
  destruct (yolact_losses_scale_ssd_losses (fun x => x) (fun x => x) abs_error
              empty_Y (One mining_cp) (One mining_bp) [proj_mask_pred]
              [proj_mask_eoc] (One mining_ct) (One mining_bt)
              [proj_mask_target] [proj_matches] [proj_bt_target]) as [H _];
    [simpl; lia|].
  exact H.
Defined.

(** The sample of [proj_example] with its matches taken away. *)
Example unmatched_example :
  MaskLoss.forward (fun x => x) abs_error (MaskLoss.__init__ (5 # 4))
    proj_bt_target proj_mask_target [[-1; -1; -1]%Z] proj_mask_pred
    proj_mask_eoc == 0.
Proof. reflexivity. Qed.

(** Two anchors with one score each: the first is positive. *)
Example ctrness_example :
  exists r,
    CtrNessLoss.hybrid_forward log_standin (fun x => x)
      (CtrNessLoss.__init__ (1 # 100000) None 0)
      [[[1]; [-2]]] [[1 # 2; 1]] [[1; 0]] = Ok r
    /\ r == - (1 # 2).
Proof. eexists. split; reflexivity. Qed.

(** Three classes, the background among them: two channels. *)
Definition sf_loss : SigmoidFocalLoss.t :=
  {| SigmoidFocalLoss._weight := None;
     SigmoidFocalLoss._batch_axis := 0;
     SigmoidFocalLoss._alpha := 1 # 4;
     SigmoidFocalLoss._gamma := 2;
     SigmoidFocalLoss._sparse_label := true;
     SigmoidFocalLoss._num_class := PyInt 3;
     SigmoidFocalLoss._from_logits := true;
     SigmoidFocalLoss._eps := 0 |}.

Definition sf_pred : cube := [[[1 # 2; 1 # 4]; [1 # 2; 1 # 2]]].
Definition sf_label : list (list Z) := [[2; 0]%Z].

Lemma sigmoid_focal_loss_formula_witness :
  exists r,
    SigmoidFocalLoss.hybrid_forward (fun x => x) log_standin square_standin
      sf_loss sf_pred sf_label None = Ok r /\
    r == nd.sum3 (sigmoid_focal_terms (fun x => x) log_standin square_standin
                    sf_loss sf_pred sf_label)
         / nd.maximum
             (n2q (length (filter (fun c => (0 <? c)%Z) (concat sf_label)))) 1.
Proof.
  apply (sigmoid_focal_loss_formula (fun x => x) log_standin square_standin
           sf_loss sf_pred sf_label None).
  - reflexivity.
  - simpl. lia.
  - repeat constructor.
  - repeat constructor.
  - reflexivity.
Defined.

(** A stand-in for the library's cross-entropy: the sum of a row. *)
Definition row_sums {T : Type} (output : mat) (label : T) : list Q :=
  map nd.sum output.

Definition distill : DistillationSoftmaxCrossEntropyLoss.t :=
  DistillationSoftmaxCrossEntropyLoss.__init__ 2 0.

Lemma distillation_is_one_formula_witness :
  veq (DistillationSoftmaxCrossEntropyLoss.hybrid_forward (list Z) row_sums
         row_sums distill [[1; 2]] [0%Z] [[1; 0]])
      (nd.map2 (fun s h =>
                  (1 - DistillationSoftmaxCrossEntropyLoss._hard_weight distill)
                  * (DistillationSoftmaxCrossEntropyLoss._temperature distill ^ 2 * s)
                  + DistillationSoftmaxCrossEntropyLoss._hard_weight distill * h)
         (row_sums (map (map (fun x =>
                                x / DistillationSoftmaxCrossEntropyLoss._temperature
                                      distill)) [[1; 2]]) [[1; 0]])
         (row_sums [[1; 2]] [0%Z])).
Proof.
  apply (distillation_is_one_formula (list Z) row_sums row_sums distill
           [[1; 2]] [0%Z] [[1; 0]]).
  reflexivity.
Defined.

Lemma global_aware_takes_the_mean_out_witness :
  nd.sum2 (nth 0 (MaskOps.global_aware (fun x => x) [[[1; 2]; [3; 6]]]) []) == 0.
Proof.
  destruct (global_aware_takes_the_mean_out (fun x => x) [[[1; 2]; [3; 6]]] 0)
    as (_ & _ & H); [simpl; lia | discriminate |].
  exact H.
Defined.

Lemma focal_sparse_labels_are_one_hot_rows_witness :
  FocalLoss.hybrid_forward (fun x => x) log_standin square_standin
    weighted_focal focal_pred (SparseLabels focal_label) None
  = FocalLoss.hybrid_forward (fun x => x) log_standin square_standin
      (dense_of weighted_focal) focal_pred (DenseLabels [[[1]]]) None.
Proof.
  destruct (focal_sparse_labels_are_one_hot_rows (fun x => x) log_standin
              square_standin weighted_focal focal_pred focal_label None)
    as [H _]; [reflexivity|].
  exact H.
Defined.

(** One sample with two anchors, the second one ignored, and one class;
    the library losses as [weighted_mean] describes them, with a stand-in
    for [softrelu]. *)
Definition yolo_objness_t : cube := [[[1]; [-1]]].
Definition yolo_pairs : cube := [[[1; 2]; [3; 4]]].

Lemma yolo_losses_are_sums_witness :
  exists obj_loss center_loss scale_loss cls_loss,
    YOLOV3Loss.hybrid_forward (weighted_mean (bce (fun x => x)))
      (weighted_mean l1) (YOLOV3Loss.__init__ 0 None)
      [[[2]; [3]]] yolo_pairs yolo_pairs [[[1]; [0]]]
      yolo_objness_t yolo_pairs yolo_pairs yolo_pairs [[[1]; [0]]] [[[1]; [1]]]
    = Ok (obj_loss, center_loss, scale_loss, cls_loss) /\
    length obj_loss = 1%nat /\
    nth 0 obj_loss 0
    == sum_upto 2 (fun n =>
         bce (fun x => x) (at3 [[[2]; [3]]] 0 n 0)
           (hard_objness (at3 yolo_objness_t 0 n 0))
         * objness_mask (at3 yolo_objness_t 0 n 0)).
Proof.
  destruct (yolo_losses_are_sums (fun x => x) (weighted_mean (bce (fun x => x)))
              (weighted_mean l1) (fun _ _ _ => eq_refl) (fun _ _ _ => eq_refl)
              (YOLOV3Loss.__init__ 0 None) 1 2 1
              [[[2]; [3]]] yolo_pairs yolo_pairs [[[1]; [0]]]
              yolo_objness_t yolo_pairs yolo_pairs yolo_pairs [[[1]; [0]]]
              [[[1]; [1]]])
    as (obj & ctr & scl & cls & E & Lo & _ & _ & _ & S & _);
    try reflexivity; try lia.
  exists obj, ctr, scl, cls. split; [exact E|]. split; [exact Lo|].
  apply (S 0%nat). lia.
Defined.

(** The defaults of the script, three GPUs and 16 samples each; and a run
    of two epochs that saves after every second epoch: the file of epoch 1
    is written twice. *)
Example script_examples :
  TrainPointnet.context 3
  = [TrainPointnet.gpu 0; TrainPointnet.gpu 1; TrainPointnet.gpu 2]
  /\ TrainPointnet.context 0 = [TrainPointnet.cpu]
  /\ TrainPointnet.batch_size 16 3 = 48%Z
  /\ match TrainPointnet.train
             {| TrainPointnet.lr := 1;
                TrainPointnet.lr_decay := 1 # 2;
                TrainPointnet.lr_decay_epoch := [1]%Z;
                TrainPointnet.save_period := 2;
                TrainPointnet.save_dir := true;
                TrainPointnet.per_device_batch_size := 16;
                TrainPointnet.num_gpus := 3 |} 1 rising_then_flat 2 with
     | inl s =>
         filter is_save (TrainPointnet.trace s)
         = [TrainPointnet.SaveParams 1; TrainPointnet.SaveParams 1]
     | inr _ => False
     end.
Proof. repeat split. Qed.
